(** * Sir Trevor editor orchestration (src/editor.js)

    A shallow embedding of the [Editor] prototype of src/editor.js and the
    properties of its validate/serialise pipeline, teardown, block
    repositioning, initial block creation and event wiring.

    editor.js is the only module under verification.  Its collaborators
    (the mediator and the process-wide EventBus, the store, the error
    handler, the block manager, the DOM helpers, lodash, config) live in
    other modules; their behaviour is either a field of the environment
    record [Env] or a definition modelled from the specification, marked as
    such. *)

From stdpp Require Import base strings list gmap.

(** * JavaScript values *)

(** Values that reach editor.js as plain arguments or options
    ([shouldValidate], [options.defaultType], a block type). *)
Inductive Value :=
| VUndefined
| VNull
| VBool (b : bool)
| VNum (z : Z)
| VStr (s : string).

(** Serialisable block data. *)
#[local] Unset Elimination Schemes.
Inductive Json :=
| JNull
| JBool (b : bool)
| JNum (z : Z)
| JStr (s : string)
| JArr (items : list Json)
| JObj (fields : list (string * Json)).
#[local] Set Elimination Schemes.

(** The object literal [{}]. *)
Definition empty_object : Json := JObj [].

(** A store entry [{type, data}]. *)
Record Entry := { e_type : string; e_data : Json }.

(** An error record [{text}]; [None] is [undefined]. *)
Record ErrorRecord := { text : option string }.

(** Arguments passed along with a mediator event. *)
Inductive Arg :=
| AValue (v : Value)
| AJson (j : Json)
| AError (r : ErrorRecord).

(** [v === false] *)
Definition is_false (v : Value) : bool :=
  match v with
  | VBool false => true
  | _ => false
  end.

(** [a || b] and [!a] on array lengths: [0] is the only falsy length. *)
Definition js_or (a b : nat) : nat := if decide (a = 0) then b else a.
Definition js_not (a : nat) : bool := bool_decide (a = 0).

(** * DOM *)

Module Dom.

(** An element.  [key] is the identity of the node ([===] is equality of
    the whole record, two distinct elements have distinct keys);
    [node_id] is its [id] attribute ([None]: [getAttribute] gives
    [null]). *)
Record Node := { key : nat; node_id : option string; classes : list string }.

#[global] Instance Node_eq_dec : EqDecision Node.
Proof. solve_decision. Defined.

Definition getAttribute_id (n : Node) : option string := node_id n.

Definition has_class (c : string) (n : Node) : bool :=
  bool_decide (c ∈ classes n).

(** [parent.querySelectorAll('.' + c)]: a static list, document order.
    The subtree of the wrapper is represented by the list of its element
    children: blocks are rendered as children of the wrapper
    (_renderInPosition, lines 199-205). *)
Definition querySelectorAll (c : string) (children : list Node) : list Node :=
  filter (λ n, has_class c n = true) children.

Definition remove_node (n : Node) (children : list Node) : list Node :=
  filter (λ m, m ≠ n) children.

(** Place [n] right before the first occurrence of [ref]; at the end if
    [ref] is not there. *)
Fixpoint place_before (ref n : Node) (children : list Node) : list Node :=
  match children with
  | [] => [n]
  | m :: rest =>
      if decide (m = ref) then n :: m :: rest
      else m :: place_before ref n rest
  end.

(** Place [n] right after the first occurrence of [ref]. *)
Fixpoint place_after (ref n : Node) (children : list Node) : list Node :=
  match children with
  | [] => [n]
  | m :: rest =>
      if decide (m = ref) then m :: n :: rest
      else m :: place_after ref n rest
  end.

(** [parent.insertBefore(n, ref)] for [ref] a child of [parent]: [n]
    leaves its old place and is put before [ref]; inserting a node before
    itself leaves the children as they are. *)
Definition insertBefore (n ref : Node) (children : list Node) : list Node :=
  if decide (n = ref) then children
  else place_before ref n (remove_node n children).

(** Modelled from the spec: [Dom.insertAfter(n, ref)] of ./packages/dom
    (not part of editor.js), "inserts after it": [n] leaves its old place
    and becomes the next sibling of [ref]. *)
Definition insertAfter (n ref : Node) (children : list Node) : list Node :=
  if decide (n = ref) then children
  else place_after ref n (remove_node n children).

End Dom.
Export Dom.

(** * Blocks and the block manager *)

Module Block.
(** What editor.js uses of a block: [blockID], [valid()],
    [_.result(block, 'validationFailMsg')] and [getData()]. *)
Record t := {
  blockID : string;
  valid : bool;
  validationFailMsg : option string;
  getData : Entry
}.
End Block.

(** A queued item of a block: in-flight work with its deferred. *)
Record QueuedItem := { q_name : string; deferred : nat }.

(** The block manager.  [blocks] is the address of the array object that
    the field [block_manager.blocks] refers to; [arrays] holds the array
    objects, so that an update in place of an array and the binding of the
    field to a new array are different things. *)
Record Registry := {
  arrays : gmap nat (list Block.t);
  blocks : nat;
  queued : list QueuedItem
}.

Definition deref (r : Registry) (a : nat) : list Block.t :=
  default [] (arrays r !! a).

Definition bm_blocks (r : Registry) : list Block.t := deref r (blocks r).

(** Modelled from the spec: [BlockManager.findBlockById] of
    ./block-manager, the registry's lookup of a block by its id; [null]
    (no [id] attribute) resolves to nothing. *)
Definition bm_findBlockById (r : Registry) (block_id : option string)
  : option Block.t :=
  match block_id with
  | Some i => snd <$> list_find (λ b, Block.blockID b = i) (bm_blocks r)
  | None => None
  end.

(** Modelled from the spec: [BlockManager.getQueuedItems], the queued
    items outstanding in the registry. *)
Definition bm_getQueuedItems (r : Registry) : list QueuedItem := queued r.

(** * The editor instance *)

Record Editor := {
  defaultType : Value;          (* this.options.defaultType *)
  wrapper : list Node;          (* children of this.wrapper *)
  store : list Entry;           (* this.store: its data array *)
  errors : list Arg;            (* this.errorHandler.errors *)
  block_manager : Registry      (* this.block_manager *)
}.

Definition set_wrapper (w : list Node) (e : Editor) : Editor :=
  {| defaultType := defaultType e; wrapper := w; store := store e;
     errors := errors e; block_manager := block_manager e |}.
Definition set_store (s : list Entry) (e : Editor) : Editor :=
  {| defaultType := defaultType e; wrapper := wrapper e; store := s;
     errors := errors e; block_manager := block_manager e |}.
Definition set_errors (x : list Arg) (e : Editor) : Editor :=
  {| defaultType := defaultType e; wrapper := wrapper e; store := store e;
     errors := x; block_manager := block_manager e |}.
Definition set_block_manager (r : Registry) (e : Editor) : Editor :=
  {| defaultType := defaultType e; wrapper := wrapper e; store := store e;
     errors := errors e; block_manager := r |}.

(** Effectful calls editor.js makes on its collaborators, in the order it
    makes them.  Reads ([store.retrieve], [store.toString],
    [querySelectorAll], [findBlockById], [getQueuedItems]) are not
    recorded. *)
Inductive Action :=
| Trigger (name : string) (args : list Arg)     (* this.mediator.trigger *)
| CallValid (block_id : string)                 (* block.valid() *)
| CallGetData (block_id : string)               (* block.getData() *)
| StoreReset                                    (* this.store.reset() *)
| StoreAddData (r : Entry)                      (* this.store.addData(r) *)
| ValidateBlockTypesExist (shouldValidate : bool)
| Log (msg : string)                            (* utils.log(msg) *)
| LogData (msg : string) (r : Entry)            (* utils.log(msg, data) *)
| FormatBarDestroy
| FlBlockControlsDestroy
| BlockControlsDestroy
| MediatorStopListening
| EditorStopListening
| DomReplaceWithOuterEl                         (* Dom.replaceWith(outer, el) *)
| BlockControlsHide
| FormatBarHide.

(** What the other modules contribute. *)
Record Env := {
  (* config.skipValidation *)
  skipValidation : bool;
  (* EditorStore.toString *)
  store_toString : list Entry → string;
  (* the error records BlockManager.validateBlockTypesExist adds *)
  missing_type_errors : bool → Registry → list Arg;
  (* the subscribers of block:create and block:remove *)
  on_block_create : list Arg → Editor → Editor;
  on_block_remove : list Arg → Editor → Editor
}.

(** * Effects: a state and log monad *)

Record Out (A : Type) := MkOut {
  result : A;
  after : Editor;
  actions : list Action
}.
Arguments MkOut {A}.
Arguments result {A}.
Arguments after {A}.
Arguments actions {A}.

Definition M (A : Type) : Type := Editor → Out A.

Definition ret {A} (a : A) : M A := λ e, MkOut a e [].

Definition bind {A B} (m : M A) (k : A → M B) : M B :=
  λ e, let o := m e in
       let o' := k (result o) (after o) in
       MkOut (result o') (after o') (actions o ++ actions o').

Notation "'do' x <- m ; k" := (bind m (λ x, k))
  (at level 10, x name, m at level 100, k at level 200,
   format "'[v' 'do'  x  <-  m ; '/' k ']'").
Notation "'run' m ; k" := (bind m (λ _, k))
  (at level 10, m at level 100, k at level 200,
   format "'[v' 'run'  m ; '/' k ']'").

Definition act (a : Action) : M unit := λ e, MkOut () e [a].
Definition gets {A} (f : Editor → A) : M A := λ e, MkOut (f e) e [].
Definition modify (f : Editor → Editor) : M unit := λ e, MkOut () (f e) [].

(** [list.forEach(f)] over a list that is not an array object of the
    model (a static NodeList). *)
Fixpoint forEach {A} (l : list A) (f : A → M unit) : M unit :=
  match l with
  | [] => ret ()
  | x :: rest => run f x; forEach rest f
  end.

(** [array.forEach(f)] over a live array object: the length is read once,
    every index below it is visited in order, and an index that the array
    no longer has when it is reached is passed over. *)
Fixpoint forEach_live {A} (read : Editor → list A) (f : A → M unit)
    (todo k : nat) : M unit :=
  match todo with
  | 0 => ret ()
  | S todo' =>
      do x <- gets (λ e, read e !! k);
      run match x with Some a => f a | None => ret () end;
      forEach_live read f todo' (S k)
  end.

Definition forEach_array {A} (read : Editor → list A) (f : A → M unit) : M unit :=
  do len <- gets (λ e, length (read e));
  forEach_live read f len 0.

(** [var index; list.forEach(function(item, i) { if (block === item)
    { index = i; } }); return index]: the index of the last item that is
    the block, [None] for [undefined]. *)
Definition last_position (block : Node) (items : list Node) : option nat :=
  foldl (λ index p, if decide (block = p.2) then Some p.1 else index)
        None (zip (seq 0 (length items)) items).

(** * editor.js *)

Record Result := { data : string; errors_count : nat; canSubmit : bool }.

Section Editor.

Variable E : Env.

(** Modelled from the spec: the error handler of ./error-handler
    "accumulates validation failure messages for the current validation
    pass" and responds to [errors:reset]; for a built editor it is
    subscribed to the instance's mediator (build, line 79). *)
Definition errorHandler_on (name : string) (args : list Arg) (e : Editor) : Editor :=
  if decide (name = "errors:reset") then set_errors [] e
  else if decide (name = "errors:add") then
    set_errors (errors e ++ [default (AValue VUndefined) (head args)]) e
  else e.

(** The subscribers of the instance's mediator react to an event. *)
Definition deliver (name : string) (args : list Arg) (e : Editor) : Editor :=
  let e := errorHandler_on name args e in
  if decide (name = "block:create") then on_block_create E args e
  else if decide (name = "block:remove") then on_block_remove E args e
  else e.

(** [this.mediator.trigger(name, ...args)] *)
Definition trigger (name : string) (args : list Arg) : M unit :=
  run act (Trigger name args); modify (deliver name args).

(** Modelled from the spec: the store of ./extensions/editor-store,
    "supports reset, incremental append, and full-string
    serialization". *)
Definition store_reset : M unit :=
  run act StoreReset; modify (set_store []).

(** Modelled from the spec: [store.addData(record)], the "incremental
    append" of the same store. *)
Definition store_addData (r : Entry) : M unit :=
  run act (StoreAddData r); modify (λ e, set_store (store e ++ [r]) e).

(** [BlockManager.validateBlockTypesExist(shouldValidate)]: the registry
    adds an error record for each type it flags. *)
Definition bm_validateBlockTypesExist (shouldValidate : bool) : M unit :=
  run act (ValidateBlockTypesExist shouldValidate);
  modify (λ e, set_errors
                 (errors e ++ missing_type_errors E shouldValidate (block_manager e)) e).

(** lines 162-165 *)
Definition hideAllTheThings : M unit :=
  run act BlockControlsHide; act FormatBarHide.

(** lines 259-261 *)
Definition getBlockQueuedItems (e : Editor) : list QueuedItem :=
  bm_getQueuedItems (block_manager e).

(** lines 273-275 *)
Definition findBlockById (block_id : option string) (e : Editor) : option Block.t :=
  bm_findBlockById (block_manager e) block_id.

(** lines 207-218 *)
Definition validateAndSaveBlock (block : Block.t) (shouldValidate : bool) : M unit :=
  do failed <- (if negb (skipValidation E) || shouldValidate
                then run act (CallValid (Block.blockID block));
                     ret (negb (Block.valid block))
                else ret false);
  if failed then
    run trigger "errors:add" [AError {| text := Block.validationFailMsg block |}];
    act (Log ("Block " +:+ Block.blockID block +:+ " failed validation"))
  else
    run act (CallGetData (Block.blockID block));
    let blockData := Block.getData block in
    run act (LogData ("Adding data for block " +:+ Block.blockID block
                        +:+ " to block store:") blockData);
    store_addData blockData.

(** lines 263-271 *)
Definition validateBlocks (shouldValidate : bool) : M unit :=
  do nodes <- gets (λ e, querySelectorAll "st-block" (wrapper e));
  forEach nodes (λ block,
    do _block <- gets (findBlockById (getAttribute_id block));
    match _block with
    | Some b => validateAndSaveBlock b shouldValidate
    | None => ret ()
    end).

(** line 242: [(shouldValidate === false) ? false : true] *)
Definition as_shouldValidate (v : Value) : bool :=
  if is_false v then false else true.

(** lines 240-257 *)
Definition getData (shouldValidate : Value) : M Result :=
  let shouldValidate := as_shouldValidate shouldValidate in
  run trigger "errors:reset" [];
  run store_reset;
  run validateBlocks shouldValidate;
  run bm_validateBlockTypesExist shouldValidate;
  run trigger "errors:render" [];
  do e <- gets (λ e, e);
  ret {| data := store_toString E (store e);
         errors_count := length (errors e);
         canSubmit := js_not (js_or (length (errors e))
                                    (length (getBlockQueuedItems e))) |}.

(** lines 108-118; [store.data] is the store's array, read live by
    [forEach] *)
Definition createBlocks : M unit :=
  do len <- gets (λ e, length (store e));
  if decide (0 < len) then
    forEach_array store (λ block,
      trigger "block:create" [AValue (VStr (e_type block)); AJson (e_data block)])
  else
    do dt <- gets defaultType;
    if negb (is_false dt) then
      trigger "block:create" [AValue dt; AJson empty_object]
    else ret ().

(** lines 120-140; [this.block_manager.blocks] is evaluated once, to the
    array object that [forEach] then walks *)
Definition destroy : M unit :=
  run act FormatBarDestroy;
  run act FlBlockControlsDestroy;
  run act BlockControlsDestroy;
  do a <- gets (λ e, blocks (block_manager e));
  run forEach_array (λ e, deref (block_manager e) a) (λ block,
        trigger "block:remove" [AValue (VStr (Block.blockID block))]);
  run trigger "destroy" [];
  run act MediatorStopListening;
  run act EditorStopListening;
  run store_reset;
  act DomReplaceWithOuterEl.

(** lines 285-293 *)
Definition getBlockPosition (block : Node) (e : Editor) : option nat :=
  last_position block (querySelectorAll "st-block" (wrapper e)).

(** [list[i]] for an integer [i] *)
Definition item_at {A} (l : list A) (i : Z) : option A :=
  if decide (i < 0)%Z then None else l !! Z.to_nat i.

(** [a > b] where [a] may be [undefined] *)
Definition js_gt (a : option nat) (b : Z) : bool :=
  match a with
  | Some i => bool_decide (b < Z.of_nat i)%Z
  | None => false
  end.

(** lines 183-197 *)
Definition changeBlockPosition (block : Node) (selectedPosition : Z) : M unit :=
  let selectedPosition := (selectedPosition - 1)%Z in
  do blockPosition <- gets (getBlockPosition block);
  do blockBy <- gets (λ e, item_at (querySelectorAll "st-block" (wrapper e))
                              selectedPosition);
  match blockBy with
  | Some blockBy =>
      if decide (getAttribute_id blockBy ≠ getAttribute_id block) then
        run hideAllTheThings;
        if js_gt blockPosition selectedPosition then
          modify (λ e, set_wrapper (insertBefore block blockBy (wrapper e)) e)
        else
          modify (λ e, set_wrapper (insertAfter block blockBy (wrapper e)) e)
      else ret ()
  | None => ret ()
  end.

End Editor.

(** * process: the future and the event loop *)

(** The future [Promise.all(deferreds).then(() => this.getData(v))]:
    the deferreds it waits for and the argument kept by the callback. *)
Record Future := { awaits : list nat; then_arg : Value }.

(** The state of the future returned by [process]. *)
Inductive Status :=
| Waiting
| Resolved (r : Result)
| Failed.

(** The page between turns of the event loop: the editor, the deferreds
    settled so far ([true]: resolved, [false]: rejected; absent: pending)
    and the state of the future. *)
Record World := {
  editor : Editor;
  settled : gmap nat bool;
  status : Status
}.

(** What a turn can be: a pending deferred settles, other code changes the
    editor, the [then] callback of the future runs, the future is rejected
    because a deferred it waits for was. *)
Inductive Label :=
| Settle (d : nat) (ok : bool)
| Mutate (e' : Editor)
| Fire
| Reject.

Section Process.

Variable E : Env.

(** lines 225-233 *)
Definition process (shouldValidate : Value) (e : Editor) : Future :=
  {| awaits := (λ item, deferred item) <$> getBlockQueuedItems e;
     then_arg := shouldValidate |}.

(** [Promise.all] is fulfilled once every input is. *)
Definition all_resolved (fut : Future) (w : World) : bool :=
  forallb (λ d, bool_decide (settled w !! d = Some true)) (awaits fut).

Definition some_rejected (fut : Future) (w : World) : bool :=
  existsb (λ d, bool_decide (settled w !! d = Some false)) (awaits fut).

Definition is_waiting (w : World) : bool :=
  match status w with Waiting => true | _ => false end.

Definition turn (fut : Future) (l : Label) (w : World) : option World :=
  match l with
  | Settle d ok =>
      match settled w !! d with
      | None => Some {| editor := editor w; settled := <[d := ok]> (settled w);
                        status := status w |}
      | Some _ => None
      end
  | Mutate e' => Some {| editor := e'; settled := settled w; status := status w |}
  | Fire =>
      if is_waiting w && all_resolved fut w then
        let o := getData E (then_arg fut) (editor w) in
        Some {| editor := after o; settled := settled w;
                status := Resolved (result o) |}
      else None
  | Reject =>
      if is_waiting w && some_rejected fut w then
        Some {| editor := editor w; settled := settled w; status := Failed |}
      else None
  end.

Fixpoint turns (fut : Future) (ls : list Label) (w : World) : option World :=
  match ls with
  | [] => Some w
  | l :: rest =>
      match turn fut l w with
      | Some w' => turns fut rest w'
      | None => None
      end
  end.

(** The world right after the call [process(v)]. *)
Definition after_call (e : Editor) (s : gmap nat bool) : World :=
  {| editor := e; settled := s; status := Waiting |}.

End Process.

(** * What a validation pass comes to *)

Section Pass.

Variable E : Env.

(** Whether [block.valid()] is consulted (line 208, left conjunct). *)
Definition checks (shouldValidate : bool) : bool :=
  negb (skipValidation E) || shouldValidate.

(** Whether a block is reported instead of saved (line 208). *)
Definition fails (shouldValidate : bool) (b : Block.t) : bool :=
  checks shouldValidate && negb (Block.valid b).

Definition fail_record (b : Block.t) : Arg :=
  AError {| text := Block.validationFailMsg b |}.

(** The calls one block gives rise to. *)
Definition block_actions (shouldValidate : bool) (b : Block.t) : list Action :=
  (if checks shouldValidate then [CallValid (Block.blockID b)] else []) ++
  (if fails shouldValidate b then
     [Trigger "errors:add" [fail_record b];
      Log ("Block " +:+ Block.blockID b +:+ " failed validation")]
   else
     [CallGetData (Block.blockID b);
      LogData ("Adding data for block " +:+ Block.blockID b +:+ " to block store:")
              (Block.getData b);
      StoreAddData (Block.getData b)]).

(** The blocks of the registry that the block elements of the wrapper
    resolve to, in the order of the elements. *)
Definition blocks_in_dom_order (e : Editor) : list Block.t :=
  omap (λ n, findBlockById (getAttribute_id n) e)
       (querySelectorAll "st-block" (wrapper e)).

Definition saved (shouldValidate : bool) (bs : list Block.t) : list Entry :=
  Block.getData <$> filter (λ b, fails shouldValidate b = false) bs.

Definition reported (shouldValidate : bool) (bs : list Block.t) : list Arg :=
  fail_record <$> filter (λ b, fails shouldValidate b = true) bs.

(** The loop of [validateBlocks], over any list of elements. *)
Definition validate_nodes (shouldValidate : bool) (nodes : list Node) : M unit :=
  forEach nodes (λ block,
    do _block <- gets (findBlockById (getAttribute_id block));
    match _block with
    | Some b => validateAndSaveBlock E b shouldValidate
    | None => ret ()
    end).

Definition resolve (r : Registry) (nodes : list Node) : list Block.t :=
  omap (λ n, bm_findBlockById r (getAttribute_id n)) nodes.

Definition is_errors_add (a : Action) : bool :=
  match a with
  | Trigger name _ => bool_decide (name = "errors:add")
  | _ => false
  end.

(** [getData(false)] reports no validation error: the validation of the
    blocks triggers no [errors:add], and the errors counted are those of
    the check of the block types alone. *)
Definition getData_false_reports_no_error (e : Editor) : Prop :=
  let o := getData E (VBool false) e in
  (∀ a, a ∈ actions o → is_errors_add a = false) ∧
  errors (after o) = missing_type_errors E false (block_manager e) ∧
  errors_count (result o) = length (missing_type_errors E false (block_manager e)).

End Pass.

(** * What a walk over a live array comes to *)

(** The elements that [forEach_live] hands to the callback, when the
    callback leaves the editor in the state [step a e]. *)
Fixpoint visited_live {A} (read : Editor → list A) (step : A → Editor → Editor)
    (todo k : nat) (e : Editor) : list A :=
  match todo with
  | 0 => []
  | S todo' =>
      match read e !! k with
      | Some a => a :: visited_live read step todo' (S k) (step a e)
      | None => visited_live read step todo' (S k) e
      end
  end.

Section Teardown.

Variable E : Env.

Definition remove_args (b : Block.t) : list Arg :=
  [AValue (VStr (Block.blockID b))].

(** The blocks for which [destroy] triggers [block:remove]. *)
Definition destroy_visits (e : Editor) : list Block.t :=
  let a := blocks (block_manager e) in
  visited_live (λ e, deref (block_manager e) a)
               (λ b, deliver E "block:remove" (remove_args b))
               (length (bm_blocks (block_manager e))) 0 e.

(** The calls of [destroy] when the blocks [visited] get a
    [block:remove]. *)
Definition teardown (visited : list Block.t) : list Action :=
  [FormatBarDestroy; FlBlockControlsDestroy; BlockControlsDestroy]
  ++ ((λ b, Trigger "block:remove" (remove_args b)) <$> visited)
  ++ [Trigger "destroy" []; MediatorStopListening; EditorStopListening;
      StoreReset; DomReplaceWithOuterEl].

Definition create_event (entry : Entry) : Action :=
  Trigger "block:create" [AValue (VStr (e_type entry)); AJson (e_data entry)].

End Teardown.

(** * Sample data *)

Module Sample.

Definition text_block : Block.t :=
  {| Block.blockID := "st-block-1"; Block.valid := true;
     Block.validationFailMsg := None;
     Block.getData := {| e_type := "text"; e_data := JObj [("text", JStr "Hello")] |} |}.

Definition image_block : Block.t :=
  {| Block.blockID := "st-block-2"; Block.valid := false;
     Block.validationFailMsg := Some "Image is empty";
     Block.getData := {| e_type := "image"; e_data := empty_object |} |}.

Definition controls_node : Node :=
  {| key := 0; node_id := None; classes := ["st-block-controls__top"] |}.
Definition text_node : Node :=
  {| key := 1; node_id := Some "st-block-1"; classes := ["st-block"; "st-icon--add"] |}.
Definition image_node : Node :=
  {| key := 2; node_id := Some "st-block-2"; classes := ["st-block"] |}.
Definition stray_node : Node :=
  {| key := 3; node_id := Some "st-block-77"; classes := ["st-block"] |}.

Definition registry : Registry :=
  {| arrays := {[ 0 := [text_block; image_block] ]}; blocks := 0; queued := [] |}.

(** The same blocks, registered the other way round. *)
Definition swapped : Registry :=
  {| arrays := {[ 0 := [image_block; text_block] ]}; blocks := 0; queued := [] |}.

(** The image block is shown above the text block, the registry has
    them the other way round. *)
Definition editor : Editor :=
  {| defaultType := VStr "text";
     wrapper := [controls_node; image_node; text_node];
     store := []; errors := []; block_manager := registry |}.

Definition uploading : Registry :=
  {| arrays := {[ 0 := [text_block] ]}; blocks := 0;
     queued := [ {| q_name := "upload"; deferred := 7 |} ] |}.

Definition busy_editor : Editor :=
  {| defaultType := VStr "text"; wrapper := [controls_node; text_node];
     store := []; errors := []; block_manager := uploading |}.

(** The same editor once the upload is over. *)
Definition idle_editor : Editor :=
  set_block_manager
    {| arrays := {[ 0 := [text_block] ]}; blocks := 0; queued := [] |}
    busy_editor.

Definition toString (l : list Entry) : string :=
  String.concat "," (e_type <$> l).

(** [config.skipValidation] unset, handlers that leave the editor alone *)
Definition strict : Env :=
  {| skipValidation := false; store_toString := toString;
     missing_type_errors := λ _ _, [];
     on_block_create := λ _ e, e; on_block_remove := λ _ e, e |}.

(** [config.skipValidation] set *)
Definition lenient : Env :=
  {| skipValidation := true; store_toString := toString;
     missing_type_errors := λ _ _, [];
     on_block_create := λ _ e, e; on_block_remove := λ _ e, e |}.


(** A [block:remove] handler that binds the field to a new, filtered
    array ([this.blocks = this.blocks.filter(...)]). *)
Definition rebind_blocks (args : list Arg) (e : Editor) : Editor :=
  match args with
  | AValue (VStr i) :: _ =>
      let r := block_manager e in
      let a := fresh (dom (arrays r)) in
      set_block_manager
        {| arrays := <[a := filter (λ b, Block.blockID b ≠ i) (bm_blocks r)]>
                       (arrays r);
           blocks := a; queued := queued r |} e
  | _ => e
  end.


Definition rebinding : Env :=
  {| skipValidation := false; store_toString := toString;
     missing_type_errors := λ _ _, [];
     on_block_create := λ _ e, e; on_block_remove := rebind_blocks |}.

Definition stored : list Entry :=
  [ {| e_type := "text"; e_data := JObj [("text", JStr "Hello")] |};
    {| e_type := "image"; e_data := empty_object |} ].

End Sample.

(** * Further definitions *)

(** What the two branches of [changeBlockPosition] do to the children of
    the wrapper. *)
Definition moved (before : bool) (block blockBy : Node) (l : list Node) : list Node :=
  if before then insertBefore block blockBy l else insertAfter block blockBy l.

Definition is_call_valid (a : Action) : bool :=
  match a with
  | CallValid _ => true
  | _ => false
  end.

(** * removeBlockDragOver *)

(** [element.classList.remove(c)] *)
Definition classList_remove (c : string) (n : Node) : Node :=
  {| key := key n; node_id := node_id n;
     classes := filter (λ x, x ≠ c) (classes n) |}.

(** [parent.querySelector('.' + c)]: the first match in document order,
    with its index; [None] for [null]. *)
Definition querySelector (c : string) (below : list Node) : option (nat * Node) :=
  list_find (λ n, has_class c n = true) below.

(** lines 179-181, over the elements below [this.outer] in document order.
    [None]: [querySelector] gave [null] and reading [classList] of it
    throws a TypeError. *)
Definition removeBlockDragOver (below_outer : list Node) : option (list Node) :=
  match querySelector "st-drag-over" below_outer with
  | Some (i, n) => Some (<[i := classList_remove "st-drag-over" n]> below_outer)
  | None => None
  end.

(** The handler called [k] times in a row. *)
Fixpoint removeBlockDragOver_times (k : nat) (below_outer : list Node)
  : option (list Node) :=
  match k with
  | 0 => Some below_outer
  | S k' =>
      match removeBlockDragOver below_outer with
      | Some below' => removeBlockDragOver_times k' below'
      | None => None
      end
  end.

(** * Event wiring of several instances *)

Module Wiring.

(** A function handed to [on]: a method of an editor instance, bound to
    it or given with it as context ([this[name]]); or a function of other
    code, of a component of an instance or of no instance at all. *)
Inductive Callback :=
| Method (this : nat) (name : string)
| Part (this : nat) (f : string)
| Outsider (f : string).

#[global] Instance Callback_eq_dec : EqDecision Callback.
Proof. solve_decision. Defined.

(** The instance that a callback belongs to. *)
Definition belongs_to (c : Callback) : option nat :=
  match c with
  | Method this _ | Part this _ => Some this
  | Outsider _ => None
  end.

Record Subscription := { s_event : string; s_callback : Callback }.

(** The page: the process-wide [EventBus] of ./event-bus; the mediator
    objects made so far, by address; the mediator that each instance has
    in its field [this.mediator]; the number of instances created. *)
Record Page := {
  eventBus : list Subscription;
  objects : gmap nat (list Subscription);
  mediator : gmap nat nat;
  instances : nat
}.

Definition empty_page : Page :=
  {| eventBus := []; objects := ∅; mediator := ∅; instances := 0 |}.

(** Modelled from the spec: [on] of ./events, "the generic pub/sub
    primitive", adds a subscription after those that are there. *)
Definition on (name : string) (callback : Callback) (subs : list Subscription)
  : list Subscription :=
  subs ++ [ {| s_event := name; s_callback := callback |} ].

Definition receivers (name : string) (subs : list Subscription)
  : list Subscription :=
  filter (λ s, s_event s = name) subs.

(** [m.on(name, callback)] for the mediator object at the address [m] *)
Definition mediator_on (m : nat) (name : string) (callback : Callback) (p : Page)
  : Page :=
  {| eventBus := eventBus p;
     objects := alter (on name callback) m (objects p);
     mediator := mediator p;
     instances := instances p |}.

Definition EventBus_on (name : string) (callback : Callback) (p : Page) : Page :=
  {| eventBus := on name callback (eventBus p);
     objects := objects p;
     mediator := mediator p;
     instances := instances p |}.

(** The subscriptions on the mediator that the instance has. *)
Definition mediator_of (this : nat) (p : Page) : list Subscription :=
  default [] (m ← mediator p !! this; objects p !! m).

(** A call of [on] made by code outside editor.js: on a mediator object
    or on the EventBus. *)
Inductive Channel :=
| OnMediator (m : nat)
| OnEventBus.

Record Op := { op_channel : Channel; op_event : string; op_callback : Callback }.

Definition run_op (o : Op) (p : Page) : Page :=
  match op_channel o with
  | OnMediator m => mediator_on m (op_event o) (op_callback o) p
  | OnEventBus => EventBus_on (op_event o) (op_callback o) p
  end.

Definition run_ops (ops : list Op) (p : Page) : Page :=
  foldl (λ p o, run_op o p) p ops.

(** The points of [initialize] and [build] at which code of other
    modules, or of the user, runs and can subscribe. *)
Inductive Stage :=
| Constructors    (* lines 79-84: the components are constructed *)
| Render          (* lines 95-96: the controls are rendered *)
| CreateBlocks    (* line 100: the subscribers of block:create run *)
| EditorRender    (* line 104: the onEditorRender callback, if set *)
| FormEventsNew   (* line 64: the form events are constructed, if asked for *)
| Initialized.    (* line 67: the subscribers of initialize run *)

(** lines 36-40 *)
Definition events : list (string * string) :=
  [ ("block:reorder:dragend", "removeBlockDragOver");
    ("block:reorder:dropped", "removeBlockDragOver");
    ("block:content:dropped", "removeBlockDragOver") ].

(** lines 156-160 *)
Definition _setEvents (this : nat) (p : Page) : Page :=
  foldl (λ p kv, EventBus_on kv.1 (Method this kv.2) p) p events.

Section Build.

(** What the code outside editor.js that runs during [initialize]
    subscribes: [outside stage this m p] are the calls of [on] it makes at
    that stage, run for the instance [this] whose mediator is the object
    [m], on the page [p]. *)
Variable outside : Stage → nat → nat → Page → list Op.

Definition at_stage (stage : Stage) (this m : nat) (p : Page) : Page :=
  run_ops (outside stage this m p) p.

(** lines 76-106, the subscriptions; [None]: [this.mediator] is
    [undefined] and [this.mediator.on] throws *)
Definition build (this : nat) (p : Page) : option Page :=
  m ← mediator p !! this;
  let p := at_stage Constructors this m p in
  let p := mediator_on m "block:changePosition" (Method this "changeBlockPosition") p in
  let p := mediator_on m "block-controls:reset" (Method this "resetBlockControls") p in
  let p := mediator_on m "block:limitReached" (Method this "blockLimitReached") p in
  let p := mediator_on m "block:render" (Method this "renderBlock") p in
  let p := _setEvents this p in
  let p := at_stage Render this m p in
  let p := at_stage CreateBlocks this m p in
  Some (at_stage EditorRender this m p).

(** lines 42-68, the subscriptions, for options that name an element:
    [this.mediator] becomes a new object, [Object.assign({}, Events)] *)
Definition initialize (this : nat) (p : Page) : option Page :=
  let m := fresh (dom (objects p)) in
  let p := {| eventBus := eventBus p;
              objects := <[m := []]> (objects p);
              mediator := <[this := m]> (mediator p);
              instances := instances p |} in
  p ← build this p;
  let p := at_stage FormEventsNew this m p in
  Some (at_stage Initialized this m p).

(** [new Editor(options)] (lines 26-28): a new instance *)
Definition new_Editor (p : Page) : option Page :=
  initialize (instances p)
    {| eventBus := eventBus p; objects := objects p; mediator := mediator p;
       instances := S (instances p) |}.

(** The page after [n] editors were created. *)
Fixpoint page_with (n : nat) : option Page :=
  match n with
  | 0 => Some empty_page
  | S n' => p ← page_with n'; new_Editor p
  end.

(** Code that keeps to the instance it runs for: on a mediator it
    subscribes only callbacks that belong to no other instance, and only
    on the mediator of that instance. *)
Definition keeps_to_instance : Prop :=
  ∀ stage this m p o, o ∈ outside stage this m p →
    match op_channel o with
    | OnMediator m' =>
        m' = m ∧ ∀ j, belongs_to (op_callback o) = Some j → j = this
    | OnEventBus => True
    end.

(** Code that subscribes nothing on the EventBus for the events of
    [events]. *)
Definition leaves_drag_events : Prop :=
  ∀ stage this m p o, o ∈ outside stage this m p →
    op_channel o = OnEventBus → op_event o ∉ events.*1.

End Build.

Section Delivery.

(** The state that the callbacks work on is what is below [this.outer]
    of each instance, in document order.  [others] is what the callbacks
    other than [removeBlockDragOver] do; [None]: the callback throws. *)
Variable others : Callback → gmap nat (list Node) → option (gmap nat (list Node)).




End Delivery.




(** The subscription that [_setEvents] makes for the instance [this]. *)
Definition drag_subscription (name : string) (this : nat) : Subscription :=
  {| s_event := name; s_callback := Method this "removeBlockDragOver" |}.

(** The page [p'] is the page [p] with more subscriptions, made for the
    instance [this] whose mediator is the object [m]: on that mediator,
    of callbacks that belong to no other instance, and on the EventBus. *)
Definition extends (this m : nat) (p p' : Page) : Prop :=
  mediator p' = mediator p ∧ instances p' = instances p ∧
  dom (objects p') = dom (objects p) ∧
  (∀ a, a ≠ m → objects p' !! a = objects p !! a) ∧
  (∃ more, default [] (objects p' !! m) = default [] (objects p !! m) ++ more ∧
           ∀ s j, s ∈ more → belongs_to (s_callback s) = Some j → j = this) ∧
  (∃ more, eventBus p' = eventBus p ++ more).

(** On the way from [p] to [p'] the EventBus got the subscriptions [more]
    for the event. *)
Definition bus_adds (name : string) (more : list Subscription) (p p' : Page) : Prop :=
  receivers name (eventBus p') = receivers name (eventBus p) ++ more.

(** The subscriptions that [build] makes on the mediator for the editor
    itself (lines 86-89). *)
Definition own_subscriptions (this : nat) : list Subscription :=
  [ {| s_event := "block:changePosition";
       s_callback := Method this "changeBlockPosition" |};
    {| s_event := "block-controls:reset";
       s_callback := Method this "resetBlockControls" |};
    {| s_event := "block:limitReached";
       s_callback := Method this "blockLimitReached" |};
    {| s_event := "block:render"; s_callback := Method this "renderBlock" |} ].

(** A page of [n] instances, each with a mediator of its own that holds
    callbacks of that instance only, and with their [removeBlockDragOver]
    on the EventBus. *)
Definition wired (n : nat) (p : Page) : Prop :=
  instances p = n ∧
  (∀ i, i < n ↔ is_Some (mediator p !! i)) ∧
  (∀ i m, mediator p !! i = Some m → m ∈ dom (objects p)) ∧
  (∀ i j m, mediator p !! i = Some m → mediator p !! j = Some m → i = j) ∧
  (∀ i s j, s ∈ mediator_of i p → belongs_to (s_callback s) = Some j → j = i) ∧
  (∀ i, i < n → ∃ before after_,
          mediator_of i p = before ++ own_subscriptions i ++ after_) ∧
  (∀ name, name ∈ events.*1 →
           receivers name (eventBus p) = drag_subscription name <$> seq 0 n).

End Wiring.

(** * The life of an instance: initialize, build, reinitialize, renderBlock *)

(** The mount element: the node and its [value]. *)
Record Element := { el_node : Node; el_value : Value }.

(** Values of options: plain values, elements, functions. *)
Inductive OVal :=
| OV (v : Value)
| OElement (el : Element)
| OFunction (f : nat).

(** Truthiness, as [||], [&&] and [if] see it. *)
Definition truthy_value (v : Value) : bool :=
  match v with
  | VUndefined | VNull => false
  | VBool b => b
  | VNum z => negb (Z.eqb z 0)
  | VStr s => negb (String.eqb s "")
  end.

Definition truthy (o : OVal) : bool :=
  match o with
  | OV v => truthy_value v
  | OElement _ | OFunction _ => true
  end.

(** [object[key]]: a key the object does not have reads [undefined]. *)
Definition prop (name : string) (object : gmap string OVal) : OVal :=
  default (OV VUndefined) (object !! name).

(** [_.isUndefined(x)] *)
Definition isUndefined (o : OVal) : bool :=
  match o with
  | OV VUndefined => true
  | _ => false
  end.

(** [Object.assign({}, defaults, options)]: the keys of [options] win. *)
Definition Object_assign (defaults options : gmap string OVal) : gmap string OVal :=
  options ∪ defaults.

(** [x.value]; [None]: a TypeError ([x] is [null] or [undefined]). *)
Definition value_of (o : OVal) : option Value :=
  match o with
  | OElement el => Some (el_value el)
  | OV VUndefined | OV VNull => None
  | OV _ | OFunction _ => Some VUndefined
  end.

(** A block type as the pipeline records it (an element or a function
    in its place is recorded as [undefined]). *)
Definition primitive (o : OVal) : Value :=
  match o with
  | OV v => v
  | OElement _ | OFunction _ => VUndefined
  end.

(** The fields of an instance that [initialize] and [build] set. *)
Record Instance := {
  options : gmap string OVal;     (* this.options *)
  el : OVal;                      (* this.el *)
  onEditorRender : option nat;    (* this.onEditorRender, a function if set *)
  formEvents : bool;              (* whether this.formEvents is set *)
  dataStore : option string;      (* this.dataStore *)
  parts : option Editor           (* what build made: store, error handler,
                                     registry, children of the wrapper *)
}.

(** An instance before [initialize] ran. *)
Definition blank : Instance :=
  {| options := ∅; el := OV VUndefined; onEditorRender := None;
     formEvents := false; dataStore := None; parts := None |}.

(** The calls of these functions, in order: those of [Action] and the
    ones that only occur here. *)
Inductive Step :=
| Did (a : Action)
| DomCreateElement (tag : string) (attrs : list (string * string))
| DomWrapEl                    (* Dom.wrap(this.el, this.outer) *)
| DomWrapInWrapper             (* Dom.wrap(<that>, this.wrapper) *)
| NewMediator                  (* Object.assign({}, Events) *)
| BindFunctions                (* this._bindFunctions() *)
| DomHideEl                    (* Dom.hide(this.el) *)
| NewErrorHandler
| NewEditorStore (data : OVal)
| NewBlockManager
| NewBlockControls
| NewFloatingBlockControls
| NewFormatBar
| MediatorOn (name handler : string)
| EventBusOn (name handler : string)
| FlBlockControlsRender
| BlockControlsRender
| OuterAppendChild             (* this.outer.appendChild(...) *)
| WindowAddClickListener
| WrapperClassListAdd (c : string)
| CallOnEditorRender (f : nat)
| NewFormEvents
| BlockRender (block_id : string)                  (* block.render() *)
| BlockTrigger (block_id : string) (name : string). (* block.trigger(name) *)

(** What the other modules contribute to the life of an instance. *)
Record Setup := {
  (* the environment of the pipeline *)
  pipeline : Env;
  (* config.defaults *)
  config_defaults : gmap string OVal;
  (* the data array of a store constructed from the given data *)
  EditorStore_data : OVal → list Entry;
  (* the registry of a block manager constructed with the given options *)
  BlockManager_registry : gmap string OVal → Registry;
  (* the children of this.wrapper after the two Dom.wrap calls *)
  wrapped : list Node;
  (* this.fl_block_controls.render().el *)
  fl_block_controls_el : Node
}.

(** What [initialize] returns. *)
Inductive Returned := RFalse | RUndefined.

(** A call returns ([Some]) or throws ([None]); either way it leaves an
    instance and the calls made so far. *)
Record LOut (A : Type) := MkLOut {
  returned : option A;
  left_ : Instance;
  steps : list Step
}.
Arguments MkLOut {A}.
Arguments returned {A}.
Arguments left_ {A}.
Arguments steps {A}.

Definition L (A : Type) : Type := Instance → LOut A.

Definition lret {A} (a : A) : L A := λ i, MkLOut (Some a) i [].

Definition lthrow {A} : L A := λ i, MkLOut None i [].

Definition lbind {A B} (m : L A) (k : A → L B) : L B :=
  λ i, let o := m i in
       match returned o with
       | Some a =>
           let o' := k a (left_ o) in
           MkLOut (returned o') (left_ o') (steps o ++ steps o')
       | None => MkLOut None (left_ o) (steps o)
       end.

Notation "'let!' x <- m ; k" := (lbind m (λ x, k))
  (at level 10, x name, m at level 100, k at level 200,
   format "'[v' 'let!'  x  <-  m ; '/' k ']'").
Notation "'exec' m ; k" := (lbind m (λ _, k))
  (at level 10, m at level 100, k at level 200,
   format "'[v' 'exec'  m ; '/' k ']'").

(** The outcome [o], after the calls [s] were made. *)
Definition after_steps {A} (s : list Step) (o : LOut A) : LOut A :=
  MkLOut (returned o) (left_ o) (s ++ steps o).

Definition call (s : Step) : L unit := λ i, MkLOut (Some ()) i [s].
Definition lgets {A} (f : Instance → A) : L A := λ i, MkLOut (Some (f i)) i [].
Definition lmodify (f : Instance → Instance) : L unit := λ i, MkLOut (Some ()) (f i) [].

Definition set_options (o : gmap string OVal) (i : Instance) : Instance :=
  {| options := o; el := el i; onEditorRender := onEditorRender i;
     formEvents := formEvents i; dataStore := dataStore i; parts := parts i |}.
Definition set_el (x : OVal) (i : Instance) : Instance :=
  {| options := options i; el := x; onEditorRender := onEditorRender i;
     formEvents := formEvents i; dataStore := dataStore i; parts := parts i |}.
Definition set_onEditorRender (f : option nat) (i : Instance) : Instance :=
  {| options := options i; el := el i; onEditorRender := f;
     formEvents := formEvents i; dataStore := dataStore i; parts := parts i |}.
Definition set_formEvents (b : bool) (i : Instance) : Instance :=
  {| options := options i; el := el i; onEditorRender := onEditorRender i;
     formEvents := b; dataStore := dataStore i; parts := parts i |}.
Definition set_dataStore (d : option string) (i : Instance) : Instance :=
  {| options := options i; el := el i; onEditorRender := onEditorRender i;
     formEvents := formEvents i; dataStore := d; parts := parts i |}.
Definition set_parts (e : option Editor) (i : Instance) : Instance :=
  {| options := options i; el := el i; onEditorRender := onEditorRender i;
     formEvents := formEvents i; dataStore := dataStore i; parts := e |}.

(** A function of the pipeline run on the parts of the instance.  Before
    the first [build] the instance has no parts ([this.store],
    [this.formatBar], [this.block_controls], ... are [undefined]) and a
    call on one of them throws a TypeError. *)
Definition lift {A} (m : M A) : L A :=
  λ i, match parts i with
       | Some e =>
           let o := m e in
           MkLOut (Some (result o)) (set_parts (Some (after o)) i) (Did <$> actions o)
       | None => MkLOut None i []
       end.

(** [parent.appendChild(n)]: [n] leaves its old place and becomes the last
    child. *)
Definition appendChild (n : Node) (children : list Node) : list Node :=
  remove_node n children ++ [n].

(** [c.insertAdjacentElement('afterend', n)] as the children of the
    wrapper see it.  When [c] is one of them, [n] becomes its next
    sibling.  When it is not, [parented] tells whether [c] has a parent
    node at all: if it has one, [n] goes there and leaves the wrapper; if
    it has none, nothing is inserted and [n] stays where it is. *)
Definition insertAdjacentElement_afterend (c n : Node) (parented : bool)
    (children : list Node) : list Node :=
  if decide (c ∈ children) then
    if decide (n = c) then children
    else place_after c n (remove_node n children)
  else if parented then remove_node n children
  else children.

Section Life.

Variable U : Setup.

(** lines 306-325 *)
Definition _ensureAndSetElements : L bool :=
  let! opts <- lgets options;
  if isUndefined (prop "el" opts) then
    exec call (Did (Log "You must provide an el"));
    lret false
  else
    exec lmodify (set_el (prop "el" opts));
    exec call (DomCreateElement "div" [("class", "st-outer notranslate");
                                      ("dropzone", "copy link move")]);
    exec call (DomCreateElement "div" [("class", "st-blocks")]);
    exec call DomWrapEl;
    exec call DomWrapInWrapper;
    lret true.

(** lines 156-160, as calls *)
Definition _setEvents : L unit :=
  foldr (λ kv rest, exec call (EventBusOn kv.1 kv.2); rest) (lret ()) Wiring.events.

(** Modelled from the spec: the components as their constructors leave
    them (lines 79-84): a store holding the entries of the data, an error
    handler that has accumulated nothing, the registry of the new block
    manager; and the children the wrapper has then. *)
Definition constructed (opts : gmap string OVal) : Editor :=
  {| defaultType := primitive (prop "defaultType" opts);
     wrapper := wrapped U;
     store := EditorStore_data U (prop "data" opts);
     errors := [];
     block_manager := BlockManager_registry U opts |}.

(** [this.wrapper.insertBefore(n, this.wrapper.firstChild)] *)
Definition insert_first (n : Node) (children : list Node) : list Node :=
  match children with
  | [] => [n]
  | first :: _ => insertBefore n first children
  end.

(** lines 76-106 *)
Definition build : L unit :=
  exec call DomHideEl;
  let! opts <- lgets options;
  exec call NewErrorHandler;
  exec call (NewEditorStore (prop "data" opts));
  exec call NewBlockManager;
  exec call NewBlockControls;
  exec call NewFloatingBlockControls;
  exec call NewFormatBar;
  exec lmodify (set_parts (Some (constructed opts)));
  exec call (MediatorOn "block:changePosition" "changeBlockPosition");
  exec call (MediatorOn "block-controls:reset" "resetBlockControls");
  exec call (MediatorOn "block:limitReached" "blockLimitReached");
  exec call (MediatorOn "block:render" "renderBlock");
  exec lmodify (set_dataStore (Some "Please use store.retrieve();"));
  exec _setEvents;
  exec call FlBlockControlsRender;
  exec lift (modify (λ e, set_wrapper (insert_first (fl_block_controls_el U) (wrapper e)) e));
  exec call BlockControlsRender;
  exec call OuterAppendChild;
  exec call WindowAddClickListener;
  exec lift (createBlocks (pipeline U));
  exec call (WrapperClassListAdd "st-ready");
  let! f <- lgets onEditorRender;
  match f with
  | Some f => call (CallOnEditorRender f)
  | None => lret ()
  end.

(** lines 42-68; [options]: the argument, [None] when it is not given *)
Definition initialize (options_ : option (gmap string OVal)) : L Returned :=
  exec call (Did (Log "Init SirTrevor.Editor"));
  exec lmodify (set_options (Object_assign (config_defaults U) (default ∅ options_)));
  let! ok <- _ensureAndSetElements;
  if negb ok then lret RFalse
  else
    let! opts <- lgets options;
    let! x <- lgets el;
    let! data <- (if truthy (prop "data" opts) then lret (prop "data" opts)
                  else match value_of x with
                       | Some v => lret (OV v)
                       | None => lthrow
                       end);
    exec lmodify (set_options (<["data" := data]> opts));
    exec match prop "onEditorRender" opts with
        | OFunction f => lmodify (set_onEditorRender (Some f))
        | _ => lret ()
        end;
    exec call NewMediator;
    exec call BindFunctions;
    exec build;
    let! opts <- lgets options;
    let! has <- lgets formEvents;
    exec (if truthy (prop "formEvents" opts) && negb has then
           exec call NewFormEvents;
           lmodify (set_formEvents true)
         else lret ());
    exec lift (trigger (pipeline U) "initialize" []);
    lret RUndefined.

(** lines 142-145 *)
Definition reinitialize (options_ : option (gmap string OVal)) : L unit :=
  exec lift (destroy (pipeline U));
  let! current <- lgets options;
  exec initialize (Some (default current options_));
  lret ().

(** lines 26-28: [new Editor(options)] *)
Definition new_Editor (options_ : option (gmap string OVal)) : LOut Returned :=
  initialize options_ blank.

(** lines 199-205; [currentContainer] is
    [this.block_controls.currentContainer]: [None] when it is not set,
    else the element, given with whether it has a parent node *)
Definition _renderInPosition (currentContainer : option (Node * bool))
    (block : Node) : M unit :=
  match currentContainer with
  | Some (c, parented) =>
      modify (λ e, set_wrapper
                     (insertAdjacentElement_afterend c block parented (wrapper e)) e)
  | None => modify (λ e, set_wrapper (appendChild block (wrapper e)) e)
  end.

(** lines 172-177; [rendered] is [block.render().el] *)
Definition renderBlock (currentContainer : option (Node * bool)) (block : Block.t)
    (rendered : Node) : L unit :=
  exec call (BlockRender (Block.blockID block));
  exec lift (_renderInPosition currentContainer rendered);
  exec lift hideAllTheThings;
  call (BlockTrigger (Block.blockID block) "onRender").

End Life.

(** Blocks rendered one after the other, with no current container:
    each is given with the element its [render()] makes. *)
Fixpoint render_all (blocks : list (Block.t * Node)) : L unit :=
  match blocks with
  | [] => lret ()
  | b :: rest => exec renderBlock None b.1 b.2; render_all rest
  end.

(** What a successful [initialize] comes to. *)
Section Outcome.

Variable U : Setup.
Variable given : option (gmap string OVal).
Variable i : Instance.

(** The options merged over the defaults (line 45). *)
Definition merged : gmap string OVal :=
  Object_assign (config_defaults U) (default ∅ given).

(** The data the editor starts from (line 49), for the mount element [m]. *)
Definition initial_data (m : Element) : OVal :=
  if truthy (prop "data" merged) then prop "data" merged else OV (el_value m).

Definition final_options (m : Element) : gmap string OVal :=
  <["data" := initial_data m]> merged.

(** The render callback the instance has after lines 51-54. *)
Definition render_callback : option nat :=
  match prop "onEditorRender" merged with
  | OFunction f => Some f
  | _ => onEditorRender i
  end.

(** Whether the form events are constructed (line 63). *)
Definition makes_formEvents (m : Element) : bool :=
  truthy (prop "formEvents" (final_options m)) && negb (formEvents i).

(** The parts right before [createBlocks] runs. *)
Definition parts_before_blocks (m : Element) : Editor :=
  set_wrapper (insert_first (fl_block_controls_el U) (wrapped U))
              (constructed U (final_options m)).

Definition initialize_steps (m : Element) : list Step :=
  [ Did (Log "Init SirTrevor.Editor");
    DomCreateElement "div" [("class", "st-outer notranslate");
                            ("dropzone", "copy link move")];
    DomCreateElement "div" [("class", "st-blocks")];
    DomWrapEl; DomWrapInWrapper;
    NewMediator; BindFunctions;
    DomHideEl;
    NewErrorHandler; NewEditorStore (initial_data m); NewBlockManager;
    NewBlockControls; NewFloatingBlockControls; NewFormatBar;
    MediatorOn "block:changePosition" "changeBlockPosition";
    MediatorOn "block-controls:reset" "resetBlockControls";
    MediatorOn "block:limitReached" "blockLimitReached";
    MediatorOn "block:render" "renderBlock";
    EventBusOn "block:reorder:dragend" "removeBlockDragOver";
    EventBusOn "block:reorder:dropped" "removeBlockDragOver";
    EventBusOn "block:content:dropped" "removeBlockDragOver";
    FlBlockControlsRender; BlockControlsRender; OuterAppendChild;
    WindowAddClickListener ]
  ++ (Did <$> actions (createBlocks (pipeline U) (parts_before_blocks m)))
  ++ [WrapperClassListAdd "st-ready"]
  ++ match render_callback with
     | Some f => [CallOnEditorRender f]
     | None => []
     end
  ++ (if makes_formEvents m then [NewFormEvents] else [])
  ++ [Did (Trigger "initialize" [])].

Definition initialized (m : Element) : Instance :=
  {| options := final_options m;
     el := OElement m;
     onEditorRender := render_callback;
     formEvents := formEvents i || makes_formEvents m;
     dataStore := Some "Please use store.retrieve();";
     parts := Some (after (createBlocks (pipeline U) (parts_before_blocks m))) |}.

End Outcome.

(** * More sample data *)

Module Demo.

(** A [block:create] handler that appends a record of its own to the
    store. *)
Definition note_created (args : list Arg) (e : Editor) : Editor :=
  set_store (store e ++ [ {| e_type := "note"; e_data := empty_object |} ]) e.

Definition noting : Env :=
  {| skipValidation := false; store_toString := Sample.toString;
     missing_type_errors := λ _ _, [];
     on_block_create := note_created; on_block_remove := λ _ e, e |}.

(** A third block, registered but not rendered yet, and the element its
    [render()] makes. *)
Definition quote_block : Block.t :=
  {| Block.blockID := "st-block-3"; Block.valid := true;
     Block.validationFailMsg := None;
     Block.getData := {| e_type := "quote"; e_data := JObj [("text", JStr "So it goes")] |} |}.

Definition quote_node : Node :=
  {| key := 4; node_id := Some "st-block-3"; classes := ["st-block"] |}.

Definition editor : Editor :=
  set_block_manager
    {| arrays := {[ 0 := [Sample.text_block; Sample.image_block; quote_block] ]};
       blocks := 0; queued := [] |}
    Sample.editor.

(** A built instance. *)
Definition instance : Instance := set_parts (Some editor) blank.

(** A mount element with saved content, defaults, and the other
    modules. *)
Definition mount : Element :=
  {| el_node := {| key := 10; node_id := Some "editor"; classes := ["js-st-instance"] |};
     el_value := VStr "saved content" |}.

Definition defaults : gmap string OVal :=
  <["formEvents" := OV (VBool true)]> {["defaultType" := OV (VStr "text")]}.

Definition setup : Setup :=
  {| pipeline := Sample.strict;
     config_defaults := defaults;
     EditorStore_data := λ d, if truthy d then Sample.stored else [];
     BlockManager_registry := λ _, {| arrays := {[ 0 := [] ]}; blocks := 0; queued := [] |};
     wrapped := [el_node mount];
     fl_block_controls_el := Sample.controls_node |}.

Definition given : option (gmap string OVal) :=
  Some (<["onEditorRender" := OFunction 1]> {["el" := OElement mount]}).

(** Options that name the element and no callback. *)
Definition plain : option (gmap string OVal) :=
  Some {["el" := OElement mount]}.

(** A sample of what the code of other modules subscribes: the error
    handler and the block manager subscribe functions of theirs on the
    mediator they are constructed with; a block created for a stored
    entry subscribes on the mediator and, for another event, on the
    EventBus. *)
Definition outside (stage : Wiring.Stage) (this m : nat) (p : Wiring.Page)
  : list Wiring.Op :=
  match stage with
  | Wiring.Constructors =>
      (λ kv, {| Wiring.op_channel := Wiring.OnMediator m;
                Wiring.op_event := kv.1;
                Wiring.op_callback := Wiring.Part this kv.2 |})
        <$> [ ("errors:reset", "errorHandler.reset");
              ("errors:add", "errorHandler.addMessage");
              ("errors:render", "errorHandler.render");
              ("block:create", "block_manager.createBlock");
              ("block:remove", "block_manager.removeBlock") ]
  | Wiring.CreateBlocks =>
      [ {| Wiring.op_channel := Wiring.OnMediator m;
           Wiring.op_event := "block:focus";
           Wiring.op_callback := Wiring.Part this "block.focus" |};
        {| Wiring.op_channel := Wiring.OnEventBus;
           Wiring.op_event := "window:resize";
           Wiring.op_callback := Wiring.Part this "block.resize" |} ]
  | _ => []
  end.

(** Some elements below the outer element, one of them dragged over. *)
Definition dragged_over : list Node :=
  [ Sample.controls_node;
    {| key := 2; node_id := Some "st-block-2"; classes := ["st-block"; "st-drag-over"] |};
    Sample.text_node ].


End Demo.

(** * Properties *)

(** Case analysis on membership in an explicit list. *)
Ltac list_cases H :=
  repeat (apply elem_of_cons in H; destruct H as [H|H]; [subst|]);
  try (apply elem_of_nil in H; destruct H).

Lemma elem_of_concat {A} (x : A) (ls : list (list A)) :
  x ∈ concat ls ↔ ∃ l, x ∈ l ∧ l ∈ ls.
Proof.
  rewrite list_elem_of_In, in_concat. split.
  - intros (l & Hl & Hx). exists l. by rewrite !list_elem_of_In.
  - intros (l & Hx & Hl). exists l. by rewrite <- !list_elem_of_In.
Qed.

(** ** The monad *)

Lemma actions_bind {A B} (m : M A) (k : A → M B) e :
  actions (bind m k e) = actions (m e) ++ actions (k (result (m e)) (after (m e))).
Proof. reflexivity. Qed.

Lemma after_bind {A B} (m : M A) (k : A → M B) e :
  after (bind m k e) = after (k (result (m e)) (after (m e))).
Proof. reflexivity. Qed.

Lemma result_bind {A B} (m : M A) (k : A → M B) e :
  result (bind m k e) = result (k (result (m e)) (after (m e))).
Proof. reflexivity. Qed.

Lemma bind_gets {A B} (f : Editor → A) (k : A → M B) e :
  bind (gets f) k e = k (f e) e.
Proof. unfold bind, gets; simpl. by destruct (k (f e) e). Qed.

Lemma out_eq {A} (o1 o2 : Out A) :
  result o1 = result o2 → after o1 = after o2 → actions o1 = actions o2 → o1 = o2.
Proof. destruct o1, o2; cbn. by intros -> -> ->. Qed.

(** ** The validation pass *)

Section PassFacts.

Variable E : Env.

Lemma validateAndSaveBlock_actions b sv e :
  actions (validateAndSaveBlock E b sv e) = block_actions E sv b.
Proof.
  unfold validateAndSaveBlock, block_actions, fails, checks.
  destruct (negb (skipValidation E) || sv), (Block.valid b); reflexivity.
Qed.

Lemma validateAndSaveBlock_after b sv e :
  after (validateAndSaveBlock E b sv e) =
    if fails E sv b then set_errors (errors e ++ [fail_record b]) e
    else set_store (store e ++ [Block.getData b]) e.
Proof.
  unfold validateAndSaveBlock, fails, checks.
  destruct (negb (skipValidation E) || sv), (Block.valid b); reflexivity.
Qed.

Lemma resolve_cons r n nodes :
  resolve r (n :: nodes) =
    match bm_findBlockById r (getAttribute_id n) with
    | Some b => b :: resolve r nodes
    | None => resolve r nodes
    end.
Proof. reflexivity. Qed.

Lemma validate_nodes_spec sv nodes : ∀ e,
  let bs := resolve (block_manager e) nodes in
  let o := validate_nodes E sv nodes e in
  actions o = concat (block_actions E sv <$> bs) ∧
  after o = set_errors (errors e ++ reported E sv bs)
              (set_store (store e ++ saved E sv bs) e).
Proof.
  induction nodes as [|n nodes IH]; intros e; cbn zeta.
  - unfold reported, saved; simpl. rewrite !app_nil_r. by destruct e.
  - assert (Hstep : validate_nodes E sv (n :: nodes) e =
             bind (match bm_findBlockById (block_manager e) (getAttribute_id n) with
                   | Some b => validateAndSaveBlock E b sv
                   | None => ret ()
                   end) (λ _, validate_nodes E sv nodes) e).
    { unfold validate_nodes at 1. cbn [forEach]. unfold bind at 1.
      rewrite bind_gets. reflexivity. }
    rewrite Hstep, actions_bind, after_bind, resolve_cons. clear Hstep.
    destruct (bm_findBlockById (block_manager e) (getAttribute_id n)) as [b|] eqn:Hb.
    + destruct (IH (after (validateAndSaveBlock E b sv e))) as [IHa IHb].
      rewrite IHa, IHb, validateAndSaveBlock_actions.
      rewrite !validateAndSaveBlock_after.
      unfold reported, saved. rewrite !filter_cons.
      destruct (fails E sv b) eqn:Hf; simpl;
        destruct e; unfold set_errors, set_store; simpl;
        rewrite <- ?app_assoc; simpl; done.
    + destruct (IH e) as [IHa IHb]. simpl. by rewrite IHa, IHb.
Qed.

Lemma validateBlocks_unfold sv e :
  validateBlocks E sv e =
    validate_nodes E sv (querySelectorAll "st-block" (wrapper e)) e.
Proof. unfold validateBlocks. by rewrite bind_gets. Qed.

Lemma trigger_out name args e :
  trigger E name args e = MkOut () (deliver E name args e) [Trigger name args].
Proof. reflexivity. Qed.

Lemma store_reset_out e : store_reset e = MkOut () (set_store [] e) [StoreReset].
Proof. reflexivity. Qed.

Lemma bm_validateBlockTypesExist_out sv e :
  bm_validateBlockTypesExist E sv e =
    MkOut () (set_errors (errors e ++ missing_type_errors E sv (block_manager e)) e)
          [ValidateBlockTypesExist sv].
Proof. reflexivity. Qed.

Lemma deliver_errors_reset e : deliver E "errors:reset" [] e = set_errors [] e.
Proof. reflexivity. Qed.

Lemma deliver_errors_render e : deliver E "errors:render" [] e = e.
Proof. reflexivity. Qed.

(** The whole of a pass: what it calls, and what it leaves behind. *)
Lemma getData_spec v e :
  let sv := as_shouldValidate v in
  let bs := blocks_in_dom_order e in
  let o := getData E v e in
  actions o = [Trigger "errors:reset" []; StoreReset]
                ++ concat (block_actions E sv <$> bs)
                ++ [ValidateBlockTypesExist sv; Trigger "errors:render" []] ∧
  after o = set_errors (reported E sv bs ++ missing_type_errors E sv (block_manager e))
              (set_store (saved E sv bs) e) ∧
  result o = {| data := store_toString E (store (after o));
                errors_count := length (errors (after o));
                canSubmit := js_not (js_or (length (errors (after o)))
                                       (length (getBlockQueuedItems (after o)))) |}.
Proof.
  cbn zeta. unfold getData.
  set (sv := as_shouldValidate v).
  pose proof (validate_nodes_spec sv (querySelectorAll "st-block" (wrapper e))
                (set_store [] (set_errors [] e))) as [Ha Hb].
  cbn zeta in Ha, Hb.
  rewrite !actions_bind, !after_bind, !result_bind.
  rewrite !trigger_out. cbn [after actions result].
  rewrite deliver_errors_reset, !store_reset_out. cbn [after actions result].
  rewrite !validateBlocks_unfold.
  change (wrapper (set_store [] (set_errors [] e))) with (wrapper e).
  rewrite Ha, Hb, !bm_validateBlockTypesExist_out. cbn [after actions result].
  rewrite !deliver_errors_render.
  split_and!; reflexivity.
Qed.

Lemma getBlockQueuedItems_after_getData v e :
  getBlockQueuedItems (after (getData E v e)) = getBlockQueuedItems e.
Proof. destruct (getData_spec v e) as (_ & -> & _). reflexivity. Qed.

Lemma blocks_in_dom_order_resolve e :
  blocks_in_dom_order e
  = resolve (block_manager e) (querySelectorAll "st-block" (wrapper e)).
Proof. reflexivity. Qed.

(** A pass, in terms of the registry and of the elements of the wrapper. *)
Lemma getData_outcome v e :
  let sv := as_shouldValidate v in
  let bs := resolve (block_manager e) (querySelectorAll "st-block" (wrapper e)) in
  let o := getData E v e in
  actions o = [Trigger "errors:reset" []; StoreReset]
                ++ concat (block_actions E sv <$> bs)
                ++ [ValidateBlockTypesExist sv; Trigger "errors:render" []] ∧
  store (after o) = saved E sv bs ∧
  errors (after o) = reported E sv bs ++ missing_type_errors E sv (block_manager e) ∧
  block_manager (after o) = block_manager e ∧
  result o = {| data := store_toString E (store (after o));
                errors_count := length (errors (after o));
                canSubmit := js_not (js_or (length (errors (after o)))
                                       (length (queued (block_manager e)))) |}.
Proof.
  cbn zeta. destruct (getData_spec v e) as (Ha & Hb & Hr). cbn zeta in Ha, Hb, Hr.
  rewrite blocks_in_dom_order_resolve in Ha, Hb.
  split_and!; [exact Ha|by rewrite Hb..|].
  rewrite Hr. do 3 f_equal. by rewrite Hb.
Qed.

Lemma js_not_or a b : js_not (js_or a b) = true ↔ a = 0 ∧ b = 0.
Proof.
  unfold js_not, js_or. rewrite bool_decide_eq_true.
  destruct (decide (a = 0)); intuition lia.
Qed.

Lemma block_actions_no_error sv b :
  fails E sv b = false → ∀ a, a ∈ block_actions E sv b → is_errors_add a = false.
Proof.
  intros Hf a Ha. unfold block_actions in Ha. rewrite Hf in Ha.
  destruct (checks E sv); simpl in Ha; list_cases Ha; reflexivity.
Qed.

Lemma reported_nil sv bs :
  (∀ b, b ∈ bs → fails E sv b = false) → reported E sv bs = [].
Proof.
  intros H. unfold reported.
  induction bs as [|b bs IH]; [done|].
  rewrite filter_cons. rewrite (H b) by constructor.
  destruct (decide (false = true)); [done|]. apply IH.
  intros b' Hb'. apply H. by constructor.
Qed.

End PassFacts.

(** ** getData(false) *)

(** C1, as the specification states it, fails: without
    [config.skipValidation], [getData(false)] still consults [valid()] and
    reports the block that fails it. *)
Lemma getData_false_reports_error :
  ¬ getData_false_reports_no_error Sample.strict Sample.editor.
Proof.
  intros (_ & H & _). vm_compute in H. discriminate H.
Qed.

(** C1 (amended): when [config.skipValidation] is set, [getData(false)]
    reports no validation error whatever the blocks' [valid()] results are:
    the validation of the blocks triggers no [errors:add], and the errors
    counted are those of the check of the block types alone. *)
Theorem getData_false_skips_validation (E : Env) (e : Editor) :
  skipValidation E = true → getData_false_reports_no_error E e.
Proof.
  intros Hskip. unfold getData_false_reports_no_error. cbn zeta.
  destruct (getData_spec E (VBool false) e) as (Ha & Hb & Hr).
  cbn zeta in Ha, Hb, Hr.
  change (as_shouldValidate (VBool false)) with false in *.
  assert (Hf : ∀ b, fails E false b = false).
  { intros b. unfold fails, checks. by rewrite Hskip. }
  rewrite Hr, Hb, Ha. rewrite reported_nil by auto. cbn [errors set_errors app].
  split_and!; try reflexivity.
  intros a Hin.
  apply elem_of_cons in Hin as [->|Hin]; [reflexivity|].
  apply elem_of_cons in Hin as [->|Hin]; [reflexivity|].
  apply elem_of_app in Hin as [Hin|Hin].
  - apply elem_of_concat in Hin as (l & Hin & Hl).
    apply list_elem_of_fmap in Hl as (b & -> & _).
    by apply (block_actions_no_error E false b).
  - list_cases Hin; reflexivity.
Qed.

Lemma getData_false_skips_validation_witness :
  skipValidation Sample.lenient = true ∧
  getData_false_reports_no_error Sample.lenient Sample.editor.
Proof.
  split; [reflexivity|].
  apply (getData_false_skips_validation Sample.lenient Sample.editor).
  reflexivity.
Defined.

(** ** The result of getData *)

(** C2: [getData(v)] treats [v] as [true] unless it is exactly [false];
    it returns the serialisation of the store, the number of errors of the
    error handler, and [canSubmit], which is true exactly when there are no
    errors and the registry has no outstanding queued item; with a queued
    item outstanding in the registry [canSubmit] is false, also with no
    errors.  The store serialised holds the records of the blocks that the
    block elements resolve to and that pass; the errors counted are the
    failures of the others and the errors of the check of the block
    types. *)
Theorem getData_result (E : Env) (v : Value) (e : Editor) :
  let sv := as_shouldValidate v in
  let bs := resolve (block_manager e) (querySelectorAll "st-block" (wrapper e)) in
  let errs := reported E sv bs ++ missing_type_errors E sv (block_manager e) in
  let o := getData E v e in
  (sv = false ↔ v = VBool false) ∧
  getData E v e = getData E (VBool sv) e ∧
  data (result o) = store_toString E (store (after o)) ∧
  store (after o) = saved E sv bs ∧
  errors_count (result o) = length (errors (after o)) ∧
  errors (after o) = errs ∧
  (canSubmit (result o) = true ↔
     length errs = 0 ∧ length (queued (block_manager e)) = 0) ∧
  (queued (block_manager e) ≠ [] → canSubmit (result o) = false).
Proof.
  cbn zeta.
  destruct (getData_outcome E v e) as (_ & Hs & He & _ & Hr). cbn zeta in Hs, He, Hr.
  split_and!.
  - destruct v as [| |[|]| |]; split; (discriminate || reflexivity || idtac).
  - by destruct v as [| |[|]| |].
  - by rewrite Hr.
  - exact Hs.
  - by rewrite Hr.
  - exact He.
  - rewrite Hr, He. cbn [canSubmit]. apply js_not_or.
  - intros Hq. rewrite Hr. cbn [canSubmit].
    destruct (js_not _) eqn:Hn; [|reflexivity].
    apply js_not_or in Hn as [_ Hn]. by apply nil_length_inv in Hn.
Qed.

(** While the upload of the sample editor is outstanding in the registry,
    a pass that finds no error still says that the editor cannot be
    submitted. *)
Lemma getData_result_witness :
  queued (block_manager Sample.busy_editor) ≠ [] ∧
  errors (after (getData Sample.strict VUndefined Sample.busy_editor)) = [] ∧
  data (result (getData Sample.strict VUndefined Sample.busy_editor)) = "text" ∧
  canSubmit (result (getData Sample.strict VUndefined Sample.busy_editor)) = false.
Proof.
  destruct (getData_result Sample.strict VUndefined Sample.busy_editor)
    as (_ & _ & Hd & Hs & _ & He & _ & Hq).
  split_and!.
  - discriminate.
  - exact He.
  - rewrite Hd, Hs. reflexivity.
  - apply Hq. discriminate.
Defined.

(** ** Failing and passing blocks *)

(** C4: with validation enabled, a block whose [valid()] is false gets an
    [errors:add] event carrying its [validationFailMsg] and leaves the
    store as it was; a block whose [valid()] is true has its [getData()]
    appended to the store and records no error; a failing block does not
    stop the pass: the store ends up with the records of all the blocks
    that pass, and over two blocks of which one fails the result is
    [errors: 1], [canSubmit: false] and a store holding the record of the
    valid block only. *)
Theorem validation_failure_is_local (E : Env) :
  (∀ b sv e, checks E sv = true → Block.valid b = false →
     let o := validateAndSaveBlock E b sv e in
     actions o = [CallValid (Block.blockID b);
                  Trigger "errors:add" [AError {| text := Block.validationFailMsg b |}];
                  Log ("Block " +:+ Block.blockID b +:+ " failed validation")] ∧
     errors (after o) = errors e ++ [AError {| text := Block.validationFailMsg b |}] ∧
     store (after o) = store e) ∧
  (∀ b sv e, checks E sv = true → Block.valid b = true →
     let o := validateAndSaveBlock E b sv e in
     store (after o) = store e ++ [Block.getData b] ∧
     errors (after o) = errors e ∧
     (∀ a, a ∈ actions o → is_errors_add a = false)) ∧
  (∀ v e,
     let o := getData E v e in
     store (after o) = saved E (as_shouldValidate v) (blocks_in_dom_order e)) ∧
  (∀ v e n1 n2 b1 b2,
     checks E (as_shouldValidate v) = true →
     querySelectorAll "st-block" (wrapper e) = [n1; n2] →
     findBlockById (getAttribute_id n1) e = Some b1 →
     findBlockById (getAttribute_id n2) e = Some b2 →
     Block.valid b1 = negb (Block.valid b2) →
     missing_type_errors E (as_shouldValidate v) (block_manager e) = [] →
     let o := getData E v e in
     errors_count (result o) = 1 ∧
     canSubmit (result o) = false ∧
     store (after o) = [Block.getData (if Block.valid b1 then b1 else b2)]).
Proof.
  split_and!.
  - intros b sv e Hc Hv. cbn zeta.
    rewrite validateAndSaveBlock_actions, validateAndSaveBlock_after.
    unfold block_actions, fails. rewrite Hc, Hv. done.
  - intros b sv e Hc Hv. cbn zeta.
    rewrite validateAndSaveBlock_after.
    assert (Hf : fails E sv b = false) by (unfold fails; rewrite Hc, Hv; done).
    rewrite Hf. split_and!; try done.
    rewrite validateAndSaveBlock_actions. by apply block_actions_no_error.
  - intros v e. cbn zeta. by destruct (getData_spec E v e) as (_ & -> & _).
  - intros v e n1 n2 b1 b2 Hc Hq H1 H2 Hv Hm. cbn zeta.
    destruct (getData_spec E v e) as (_ & Ha & Hr). cbn zeta in Ha, Hr.
    assert (Hbs : blocks_in_dom_order e = [b1; b2]).
    { unfold blocks_in_dom_order. rewrite Hq. simpl. by rewrite H1, H2. }
    rewrite Hr, Ha, Hbs, Hm. unfold reported, saved, fails.
    rewrite !filter_cons, !filter_nil, Hc, Hv.
    destruct (Block.valid b2); simpl; done.
Qed.

Lemma validation_failure_is_local_witness :
  errors_count (result (getData Sample.strict VUndefined Sample.editor)) = 1 ∧
  canSubmit (result (getData Sample.strict VUndefined Sample.editor)) = false ∧
  store (after (getData Sample.strict VUndefined Sample.editor))
  = [Block.getData Sample.text_block].
Proof.
  destruct (validation_failure_is_local Sample.strict) as (_ & _ & _ & H).
  apply (H VUndefined Sample.editor Sample.image_node Sample.text_node
           Sample.image_block Sample.text_block); reflexivity.
Defined.

(** ** Order within a pass *)

(** With ids that are unique, the lookup finds the block that carries the
    id wherever it is in the array. *)
Lemma unique_by {A B} (f : A → B) (l : list A) (a b : A) :
  NoDup (f <$> l) → a ∈ l → b ∈ l → f a = f b → a = b.
Proof.
  intros Hnd Ha Hb Hf.
  apply list_elem_of_lookup in Ha as [i Hi], Hb as [j Hj].
  assert (i = j) as ->.
  { eapply NoDup_lookup; [exact Hnd| |].
    - rewrite list_lookup_fmap, Hi. reflexivity.
    - rewrite list_lookup_fmap, Hj. cbn. by rewrite Hf. }
  congruence.
Qed.

Lemma bm_findBlockById_Some r i b :
  NoDup (Block.blockID <$> bm_blocks r) →
  bm_findBlockById r (Some i) = Some b ↔ b ∈ bm_blocks r ∧ Block.blockID b = i.
Proof.
  intros Hnd. unfold bm_findBlockById. split.
  - destruct (list_find _ _) as [[k b']|] eqn:Hfind; [|done].
    intros [= <-]. apply list_find_Some in Hfind as (Hk & Hid & _).
    split; [by eapply list_elem_of_lookup_2|done].
  - intros [Hin Hid].
    destruct (list_find_elem_of (λ b, Block.blockID b = i) _ b Hin Hid)
      as [[k b'] Hfind].
    rewrite Hfind. cbn. f_equal.
    apply list_find_Some in Hfind as (Hk & Hid' & _).
    eapply (unique_by Block.blockID); [exact Hnd| |exact Hin|congruence].
    by eapply list_elem_of_lookup_2.
Qed.

Lemma bm_findBlockById_perm r r' i :
  NoDup (Block.blockID <$> bm_blocks r) →
  bm_blocks r' ≡ₚ bm_blocks r →
  bm_findBlockById r' i = bm_findBlockById r i.
Proof.
  intros Hnd Hperm. destruct i as [i|]; [|reflexivity].
  assert (Hnd' : NoDup (Block.blockID <$> bm_blocks r')) by (by rewrite Hperm).
  destruct (bm_findBlockById r (Some i)) as [b|] eqn:Hr.
  - apply bm_findBlockById_Some in Hr as [Hin Hid]; [|done].
    apply bm_findBlockById_Some; [done|]. by rewrite Hperm.
  - destruct (bm_findBlockById r' (Some i)) as [b|] eqn:Hr'; [|done].
    apply bm_findBlockById_Some in Hr' as [Hin Hid]; [|done].
    rewrite Hperm in Hin.
    assert (bm_findBlockById r (Some i) = Some b)
      by (by apply bm_findBlockById_Some).
    congruence.
Qed.

Lemma resolve_perm r r' nodes :
  NoDup (Block.blockID <$> bm_blocks r) →
  bm_blocks r' ≡ₚ bm_blocks r →
  resolve r' nodes = resolve r nodes.
Proof.
  intros Hnd Hperm. unfold resolve.
  induction nodes as [|n nodes IH]; [reflexivity|].
  cbn [omap list_omap]. by rewrite (bm_findBlockById_perm r r' _ Hnd Hperm), IH.
Qed.

(** C5: [getData] triggers [errors:reset] and resets the store before any
    block's [valid()] or [getData()] runs, so that what a former pass left
    in the error handler and in the store has no part in the outcome; and
    the blocks are checked and appended to the store in the order of the
    block elements in the wrapper: each element in turn is looked up in
    the registry, and with ids that are unique the order of the registry's
    array makes no difference to the calls and to the store. *)
Theorem getData_resets_then_follows_dom (E : Env) (v : Value) (e : Editor) :
  let sv := as_shouldValidate v in
  let bs := omap (λ n, bm_findBlockById (block_manager e) (getAttribute_id n))
                 (filter (λ n, has_class "st-block" n = true) (wrapper e)) in
  let o := getData E v e in
  actions o = Trigger "errors:reset" [] :: StoreReset ::
                concat (block_actions E sv <$> bs)
                ++ [ValidateBlockTypesExist sv; Trigger "errors:render" []] ∧
  (∀ s x, getData E v (set_store s (set_errors x e)) = getData E v e) ∧
  store (after o) = Block.getData <$> filter (λ b, fails E sv b = false) bs ∧
  errors (after o) =
    (fail_record <$> filter (λ b, fails E sv b = true) bs)
    ++ missing_type_errors E sv (block_manager e) ∧
  (∀ r', NoDup (Block.blockID <$> bm_blocks (block_manager e)) →
         bm_blocks r' ≡ₚ bm_blocks (block_manager e) →
         actions (getData E v (set_block_manager r' e)) = actions o ∧
         store (after (getData E v (set_block_manager r' e))) = store (after o)).
Proof.
  cbn zeta.
  destruct (getData_outcome E v e) as (Ha & Hs & He & _ & _). cbn zeta in Ha, Hs, He.
  split_and!; [exact Ha| |exact Hs|exact He|].
  - intros s x.
    destruct (getData_spec E v e) as (_ & Hb & Hr).
    destruct (getData_spec E v (set_store s (set_errors x e))) as (Ha' & Hb' & Hr').
    cbn zeta in Hb, Hr, Ha', Hb', Hr'.
    change (blocks_in_dom_order (set_store s (set_errors x e)))
      with (blocks_in_dom_order e) in *.
    change (block_manager (set_store s (set_errors x e))) with (block_manager e) in *.
    assert (Hafter : after (getData E v (set_store s (set_errors x e)))
                     = after (getData E v e)).
    { rewrite Hb, Hb'. by destruct e. }
    rewrite Hafter in Hr'. rewrite blocks_in_dom_order_resolve in Ha'.
    apply out_eq; [congruence|exact Hafter|]. by rewrite Ha', Ha.
  - intros r' Hnd Hperm.
    destruct (getData_outcome E v (set_block_manager r' e)) as (Ha' & Hs' & _).
    cbn zeta in Ha', Hs'.
    change (block_manager (set_block_manager r' e)) with r' in *.
    change (wrapper (set_block_manager r' e)) with (wrapper e) in *.
    rewrite (resolve_perm _ r' _ Hnd Hperm) in Ha', Hs'.
    split; [by rewrite Ha', Ha|by rewrite Hs', Hs].
Qed.

(** In the sample editor the image block is shown first and registered
    second: with validation skipped its record is saved first; and the
    registry holding the two blocks the other way round changes
    nothing. *)
Lemma getData_resets_then_follows_dom_witness :
  bm_blocks (block_manager Sample.editor) = [Sample.text_block; Sample.image_block] ∧
  store (after (getData Sample.lenient (VBool false) Sample.editor))
  = [Block.getData Sample.image_block; Block.getData Sample.text_block] ∧
  store (after (getData Sample.lenient (VBool false)
                  (set_block_manager Sample.swapped Sample.editor)))
  = store (after (getData Sample.lenient (VBool false) Sample.editor)).
Proof.
  destruct (getData_resets_then_follows_dom Sample.lenient (VBool false) Sample.editor)
    as (_ & _ & Hs & _ & Hp).
  split_and!; [reflexivity|exact Hs|].
  apply (Hp Sample.swapped).
  - apply (bool_decide_unpack _). vm_compute. exact I.
  - apply Permutation_swap.
Defined.

(** In the sample editor the image block is shown first and registered
    second: it is checked first, and the record of the text block is the
    first (and only) one saved. *)
Example getData_follows_dom_not_registry :
  bm_blocks (block_manager Sample.editor) = [Sample.text_block; Sample.image_block] ∧
  blocks_in_dom_order Sample.editor = [Sample.image_block; Sample.text_block] ∧
  actions (getData Sample.strict VUndefined Sample.editor)
  = [Trigger "errors:reset" []; StoreReset;
     CallValid "st-block-2";
     Trigger "errors:add" [AError {| text := Some "Image is empty" |}];
     Log "Block st-block-2 failed validation";
     CallValid "st-block-1";
     CallGetData "st-block-1";
     LogData "Adding data for block st-block-1 to block store:"
             (Block.getData Sample.text_block);
     StoreAddData (Block.getData Sample.text_block);
     ValidateBlockTypesExist true; Trigger "errors:render" []].
Proof. split_and!; vm_compute; reflexivity. Qed.

(** ** Elements that resolve to no block *)

(** C10: in a validation pass a block element whose [id] resolves to no
    block of the registry is passed over: the pass calls, saves and reports
    exactly what it would without that element, and it calls [valid()] and
    [getData()] for the blocks of the elements before and after it. *)
Theorem unresolved_element_is_skipped (E : Env) (sv : bool) (e : Editor)
    (before after_ : list Node) (n : Node) :
  wrapper e = before ++ n :: after_ →
  has_class "st-block" n = true →
  findBlockById (getAttribute_id n) e = None →
  let o := validateBlocks E sv e in
  let o' := validateBlocks E sv (set_wrapper (before ++ after_) e) in
  actions o = actions o' ∧
  store (after o) = store (after o') ∧
  errors (after o) = errors (after o') ∧
  actions o = concat (block_actions E sv <$>
                (resolve (block_manager e) (querySelectorAll "st-block" before) ++
                 resolve (block_manager e) (querySelectorAll "st-block" after_))).
Proof.
  intros Hw Hc Hn. cbn zeta. rewrite !validateBlocks_unfold.
  destruct (validate_nodes_spec E sv (querySelectorAll "st-block" (wrapper e)) e)
    as [Ha Hb].
  destruct (validate_nodes_spec E sv
              (querySelectorAll "st-block" (wrapper (set_wrapper (before ++ after_) e)))
              (set_wrapper (before ++ after_) e)) as [Ha' Hb'].
  cbn zeta in Ha, Hb, Ha', Hb'.
  change (wrapper (set_wrapper (before ++ after_) e)) with (before ++ after_) in *.
  change (block_manager (set_wrapper (before ++ after_) e)) with (block_manager e) in *.
  assert (Hres : resolve (block_manager e) (querySelectorAll "st-block" (wrapper e))
          = resolve (block_manager e) (querySelectorAll "st-block" before) ++
            resolve (block_manager e) (querySelectorAll "st-block" after_)).
  { rewrite Hw. unfold querySelectorAll, resolve.
    rewrite filter_app, filter_cons.
    destruct (decide (has_class "st-block" n = true)); [|done].
    rewrite omap_app. cbn [omap list_omap].
    unfold findBlockById in Hn. by rewrite Hn. }
  assert (Hres' : resolve (block_manager e) (querySelectorAll "st-block" (before ++ after_))
          = resolve (block_manager e) (querySelectorAll "st-block" before) ++
            resolve (block_manager e) (querySelectorAll "st-block" after_)).
  { unfold querySelectorAll, resolve. by rewrite filter_app, omap_app. }
  rewrite Ha, Ha', Hb, Hb', Hres, Hres'. done.
Qed.

Lemma unresolved_element_is_skipped_witness :
  actions (validateBlocks Sample.strict true
             (set_wrapper [Sample.image_node; Sample.stray_node; Sample.text_node]
                Sample.editor)) =
  actions (validateBlocks Sample.strict true
             (set_wrapper [Sample.image_node; Sample.text_node]
                (set_wrapper [Sample.image_node; Sample.stray_node; Sample.text_node]
                   Sample.editor))).
Proof.
  apply (unresolved_element_is_skipped Sample.strict true
           (set_wrapper [Sample.image_node; Sample.stray_node; Sample.text_node]
              Sample.editor)
           [Sample.image_node] [Sample.text_node] Sample.stray_node);
    reflexivity.
Defined.

(** ** Walks over live arrays *)

Section LiveWalk.

Context {A : Type} (read : Editor → list A) (f : A → M unit)
        (step : A → Editor → Editor) (g : A → Action).

Hypothesis f_out : ∀ a e, f a e = MkOut () (step a e) [g a].

Lemma forEach_live_actions todo : ∀ k e,
  actions (forEach_live read f todo k e) = g <$> visited_live read step todo k e.
Proof.
  induction todo as [|todo IH]; intros k e; [reflexivity|].
  cbn [forEach_live visited_live]. rewrite bind_gets, actions_bind.
  destruct (read e !! k) as [a|].
  - rewrite f_out. cbn [actions after result]. by rewrite IH.
  - cbn [ret actions after result]. by rewrite IH.
Qed.

Hypothesis stable : ∀ a e, read (step a e) = read e.

Lemma visited_live_stable todo : ∀ k e,
  visited_live read step todo k e = take todo (drop k (read e)).
Proof.
  induction todo as [|todo IH]; intros k e; [reflexivity|].
  cbn [visited_live]. destruct (read e !! k) as [a|] eqn:Hk.
  - rewrite IH, stable. rewrite (drop_S _ _ _ Hk). reflexivity.
  - rewrite IH. apply lookup_ge_None in Hk.
    rewrite (drop_ge (read e) k), (drop_ge (read e) (S k)) by lia.
    by rewrite !take_nil.
Qed.

End LiveWalk.

Lemma forEach_array_actions {A} (read : Editor → list A) (f : A → M unit)
    (step : A → Editor → Editor) (g : A → Action) e :
  (∀ a e, f a e = MkOut () (step a e) [g a]) →
  actions (forEach_array read f e)
  = g <$> visited_live read step (length (read e)) 0 e.
Proof.
  intros Hf. unfold forEach_array. rewrite bind_gets.
  by apply forEach_live_actions.
Qed.

(** ** createBlocks *)

(** C8: when the store has entries, [createBlocks] triggers one
    [block:create] per entry, with the type and data of the entry, in the
    order of the store, and nothing else; when it has none and
    [defaultType] is not [false], one [block:create] with the default type
    and empty data; when it has none and [defaultType] is [false],
    nothing.  (The handlers of [block:create] leave the store alone.) *)
Theorem createBlocks_events (E : Env) (e : Editor) :
  (∀ args e', store (on_block_create E args e') = store e') →
  (store e ≠ [] → actions (createBlocks E e) = create_event <$> store e) ∧
  (store e = [] → defaultType e ≠ VBool false →
     actions (createBlocks E e)
     = [Trigger "block:create" [AValue (defaultType e); AJson empty_object]]) ∧
  (store e = [] → defaultType e = VBool false → actions (createBlocks E e) = []).
Proof.
  intros Hstore. unfold createBlocks. rewrite bind_gets.
  split_and!.
  - intros Hne. destruct (decide (0 < length (store e))) as [_|Hl].
    + rewrite (forEach_array_actions store _
                 (λ block, deliver E "block:create"
                             [AValue (VStr (e_type block)); AJson (e_data block)])
                 create_event) by reflexivity.
      rewrite visited_live_stable.
      * rewrite drop_0. by rewrite take_ge.
      * intros a e'. unfold deliver. cbn. apply Hstore.
    + destruct (store e); [done|]. simpl in Hl. lia.
  - destruct e as [dt w st er bm]. cbn [store defaultType].
    intros -> Hdt. by destruct dt as [| |[|]| |].
  - destruct e as [dt w st er bm]. cbn [store defaultType].
    intros -> ->. reflexivity.
Qed.

Lemma createBlocks_events_witness :
  actions (createBlocks Sample.strict (set_store Sample.stored Sample.editor))
  = create_event <$> Sample.stored.
Proof.
  apply (createBlocks_events Sample.strict (set_store Sample.stored Sample.editor)).
  - intros args e'. reflexivity.
  - discriminate.
Defined.

(** ** destroy *)

Lemma destroy_actions (E : Env) (e : Editor) :
  actions (destroy E e) = teardown (destroy_visits E e).
Proof.
  unfold destroy, teardown, destroy_visits.
  rewrite !actions_bind. cbn [act gets actions after result].
  rewrite (forEach_array_actions _ _
             (λ b, deliver E "block:remove" (remove_args b))
             (λ b, Trigger "block:remove" (remove_args b))) by reflexivity.
  reflexivity.
Qed.

(** A walk in the course of which the callbacks keep to an invariant
    under which they leave the array as it is meets every element. *)
Lemma visited_live_invariant {A} (read : Editor → list A)
    (step : A → Editor → Editor) (Inv : Editor → Prop) :
  (∀ a e, Inv e → Inv (step a e) ∧ read (step a e) = read e) →
  ∀ todo k e, Inv e → visited_live read step todo k e = take todo (drop k (read e)).
Proof.
  intros Hstep. induction todo as [|todo IH]; intros k e Hinv; [reflexivity|].
  cbn [visited_live]. destruct (read e !! k) as [a|] eqn:Hk.
  - destruct (Hstep a e Hinv) as [Hinv' Hread].
    rewrite (IH _ _ Hinv'), Hread. rewrite (drop_S _ _ _ Hk). reflexivity.
  - rewrite (IH _ _ Hinv). apply lookup_ge_None in Hk.
    rewrite (drop_ge (read e) k), (drop_ge (read e) (S k)) by lia.
    by rewrite !take_nil.
Qed.


(** X25: [destroy] destroys the format bar, then the floating block
    controls, then the block controls, then triggers [block:remove] for
    every block that the registry's collection holds when [destroy] is
    called, once each and in order, then triggers [destroy], stops the
    subscriptions of the mediator and of the instance, resets the store and
    puts the original element back in place of the wrapper; this for
    handlers of [block:remove] that leave alone the array object that the
    registry's field referred to when [destroy] was called.  They may
    change the collection meanwhile by binding the field to another
    array. *)
Theorem destroy_teardown_order (E : Env) (e : Editor) :
  (∀ args e' l,
     arrays (block_manager e') !! blocks (block_manager e) = Some l →
     arrays (block_manager (on_block_remove E args e')) !! blocks (block_manager e)
     = Some l) →
  actions (destroy E e)
  = [FormatBarDestroy; FlBlockControlsDestroy; BlockControlsDestroy]
    ++ ((λ b, Trigger "block:remove" [AValue (VStr (Block.blockID b))])
          <$> bm_blocks (block_manager e))
    ++ [Trigger "destroy" []; MediatorStopListening; EditorStopListening;
        StoreReset; DomReplaceWithOuterEl].
Proof.
  intros Hkeep. rewrite destroy_actions. unfold teardown. do 2 f_equal.
  unfold destroy_visits, bm_blocks, deref.
  destruct (arrays (block_manager e) !! blocks (block_manager e)) as [l|] eqn:Hl;
    [|reflexivity].
  cbn [default].
  rewrite (visited_live_invariant _ _
             (λ e', arrays (block_manager e') !! blocks (block_manager e) = Some l)).
  - rewrite Hl. cbn [default]. rewrite drop_0. by rewrite take_ge.
  - intros b e' He'.
    assert (Hd : deliver E "block:remove" (remove_args b) e'
                 = on_block_remove E (remove_args b) e') by reflexivity.
    rewrite Hd, (Hkeep _ _ _ He'), He'. done.
  - exact Hl.
Qed.

(** In the sample editor, with a handler that takes the block out of the
    collection by binding the registry's field to a new array without it,
    both blocks get their [block:remove], and the collection is empty at
    the end. *)
Lemma destroy_teardown_order_witness :
  actions (destroy Sample.rebinding Sample.editor)
  = [FormatBarDestroy; FlBlockControlsDestroy; BlockControlsDestroy;
     Trigger "block:remove" [AValue (VStr "st-block-1")];
     Trigger "block:remove" [AValue (VStr "st-block-2")];
     Trigger "destroy" []; MediatorStopListening; EditorStopListening;
     StoreReset; DomReplaceWithOuterEl] ∧
  bm_blocks (block_manager (after (destroy Sample.rebinding Sample.editor))) = [].
Proof.
  split; [|vm_compute; reflexivity].
  apply (destroy_teardown_order Sample.rebinding Sample.editor).
  intros args e' l Hl. cbn [Sample.rebinding on_block_remove].
  unfold Sample.rebind_blocks.
  destruct args as [|[[| | | |i]| |] args]; try exact Hl.
  cbn [block_manager set_block_manager arrays].
  rewrite lookup_insert_ne; [exact Hl|].
  intros Heq. apply (is_fresh (dom (arrays (block_manager e')))).
  rewrite Heq. apply elem_of_dom. by eexists.
Defined.

(** ** changeBlockPosition *)

Lemma place_before_split (ref n : Node) (l : list Node) :
  ref ∈ l →
  ∃ l1 l2, l = l1 ++ ref :: l2 ∧ (ref ∉ l1) ∧
           place_before ref n l = l1 ++ n :: ref :: l2.
Proof.
  induction l as [|m l IH]; intros Hin; [by apply elem_of_nil in Hin|].
  cbn [place_before]. destruct (decide (m = ref)) as [->|Hne].
  - exists [], l. split_and!; [done| |done]. apply not_elem_of_nil.
  - apply elem_of_cons in Hin as [->|Hin]; [done|].
    destruct (IH Hin) as (l1 & l2 & -> & Hl1 & ->).
    exists (m :: l1), l2. split_and!; [done| |done].
    rewrite not_elem_of_cons. split; [congruence|done].
Qed.

Lemma place_after_split (ref n : Node) (l : list Node) :
  ref ∈ l →
  ∃ l1 l2, l = l1 ++ ref :: l2 ∧ (ref ∉ l1) ∧
           place_after ref n l = l1 ++ ref :: n :: l2.
Proof.
  induction l as [|m l IH]; intros Hin; [by apply elem_of_nil in Hin|].
  cbn [place_after]. destruct (decide (m = ref)) as [->|Hne].
  - exists [], l. split_and!; [done| |done]. apply not_elem_of_nil.
  - apply elem_of_cons in Hin as [->|Hin]; [done|].
    destruct (IH Hin) as (l1 & l2 & -> & Hl1 & ->).
    exists (m :: l1), l2. split_and!; [done| |done].
    rewrite not_elem_of_cons. split; [congruence|done].
Qed.

Section Position.

Lemma last_position_snoc block items x :
  last_position block (items ++ [x]) =
    if decide (block = x) then Some (length items) else last_position block items.
Proof.
  unfold last_position.
  rewrite length_app, seq_app. cbn [length seq].
  rewrite zip_with_app by (by rewrite length_seq).
  rewrite foldl_app. reflexivity.
Qed.

Lemma last_position_Some block items i :
  last_position block items = Some i → items !! i = Some block.
Proof.
  revert i. induction items as [|x items IH] using rev_ind; intros i.
  - discriminate.
  - rewrite last_position_snoc. destruct (decide (block = x)) as [->|Hne].
    + intros [= <-]. by rewrite lookup_app_r, Nat.sub_diag.
    + intros Hi. specialize (IH i Hi).
      rewrite lookup_app_l; [done|]. by eapply lookup_lt_Some.
Qed.

Lemma last_position_None block items :
  last_position block items = None → block ∉ items.
Proof.
  induction items as [|x items IH] using rev_ind.
  - intros _. apply not_elem_of_nil.
  - rewrite last_position_snoc. destruct (decide (block = x)); [done|].
    intros Hn. rewrite not_elem_of_app, not_elem_of_cons.
    split_and!; [by apply IH|done|apply not_elem_of_nil].
Qed.

Lemma item_at_elem_of {A} (l : list A) i x : item_at l i = Some x → x ∈ l.
Proof.
  unfold item_at. destruct (decide (i < 0)%Z); [done|].
  apply list_elem_of_lookup_2.
Qed.

End Position.

(** C7: [changeBlockPosition(block, selectedPosition)], for a block
    element whose [id] no other block element carries.  When the slot
    [selectedPosition - 1] of the block elements is empty, or holds the
    block itself, the editor is left as it is; otherwise the block leaves
    its place and is put right before the element of that slot if the
    block's index is greater than the slot, and right after it if not.
    The registry is never touched. *)
Theorem changeBlockPosition_moves (block : Node) (selectedPosition : Z)
    (e : Editor) :
  (∀ n, n ∈ querySelectorAll "st-block" (wrapper e) →
        getAttribute_id n = getAttribute_id block → n = block) →
  let items := querySelectorAll "st-block" (wrapper e) in
  let target := (selectedPosition - 1)%Z in
  let o := changeBlockPosition block selectedPosition e in
  block_manager (after o) = block_manager e ∧
  (∀ i, getBlockPosition block e = Some i → items !! i = Some block) ∧
  (getBlockPosition block e = None → block ∉ items) ∧
  match item_at items target with
  | None => after o = e
  | Some blockBy =>
      if decide (blockBy = block) then after o = e
      else ∃ l1 l2,
          remove_node block (wrapper e) = l1 ++ blockBy :: l2 ∧
          (blockBy ∉ l1) ∧
          wrapper (after o) =
            if js_gt (getBlockPosition block e) target
            then l1 ++ block :: blockBy :: l2
            else l1 ++ blockBy :: block :: l2
  end.
Proof.
  intros Huniq. cbn zeta.
  unfold changeBlockPosition. rewrite !bind_gets. unfold getBlockPosition.
  split_and!.
  - destruct (item_at _ _) as [blockBy|]; [|done].
    destruct (decide (getAttribute_id blockBy ≠ getAttribute_id block)); [|done].
    rewrite after_bind. by destruct (js_gt _ _).
  - apply last_position_Some.
  - apply last_position_None.
  - destruct (item_at _ _) as [blockBy|] eqn:Hat; [|done].
    pose proof (item_at_elem_of _ _ _ Hat) as Hin.
    destruct (decide (blockBy = block)) as [->|Hne].
    + destruct (decide (getAttribute_id block ≠ getAttribute_id block)); done.
    + destruct (decide (getAttribute_id blockBy ≠ getAttribute_id block)) as [_|Hid].
      * assert (Hin' : blockBy ∈ remove_node block (wrapper e)).
        { unfold remove_node. apply list_elem_of_filter. split; [done|].
          unfold querySelectorAll in Hin.
          by apply list_elem_of_filter in Hin as [_ Hin]. }
        rewrite after_bind. cbn [hideAllTheThings].
        destruct (js_gt _ _); cbn [modify after result wrapper set_wrapper].
        -- destruct (place_before_split blockBy block _ Hin') as (l1 & l2 & H1 & H2 & H3).
           exists l1, l2. split_and!; [done..|].
           unfold insertBefore. by destruct (decide (block = blockBy)).
        -- destruct (place_after_split blockBy block _ Hin') as (l1 & l2 & H1 & H2 & H3).
           exists l1, l2. split_and!; [done..|].
           unfold insertAfter. by destruct (decide (block = blockBy)).
      * exfalso. apply Hne, Huniq; [done|]. by apply dec_stable.
Qed.

Lemma changeBlockPosition_moves_witness :
  ∃ l1 l2,
    remove_node Sample.text_node (wrapper Sample.editor) = l1 ++ Sample.image_node :: l2 ∧
    (Sample.image_node ∉ l1) ∧
    wrapper (after (changeBlockPosition Sample.text_node 1 Sample.editor))
    = l1 ++ Sample.text_node :: Sample.image_node :: l2.
Proof.
  assert (H : ∀ n, n ∈ querySelectorAll "st-block" (wrapper Sample.editor) →
                   getAttribute_id n = getAttribute_id Sample.text_node →
                   n = Sample.text_node).
  { intros n Hn Hid. vm_compute in Hn. list_cases Hn; [discriminate Hid|reflexivity]. }
  destruct (changeBlockPosition_moves Sample.text_node 1 Sample.editor H)
    as (_ & _ & _ & Hm).
  exact Hm.
Defined.

(** ** process *)

Section ProcessFacts.

Variable E : Env.
Variable fut : Future.

Lemma turn_keeps_outcome l w w' :
  turn E fut l w = Some w' → status w ≠ Waiting → status w' = status w.
Proof.
  destruct l as [d ok|e'| |]; cbn [turn].
  - destruct (settled w !! d); [done|]. by intros [= <-].
  - by intros [= <-].
  - unfold is_waiting. destruct (status w); [done|discriminate..].
  - unfold is_waiting. destruct (status w); [done|discriminate..].
Qed.

Lemma turns_keep_outcome ls : ∀ w w',
  turns E fut ls w = Some w' → status w ≠ Waiting → status w' = status w.
Proof.
  induction ls as [|l ls IH]; intros w w'; cbn [turns].
  - by intros [= <-].
  - destruct (turn E fut l w) as [w1|] eqn:Ht; [|done].
    intros Hr Hw. rewrite (IH _ _ Hr); [by eapply turn_keeps_outcome|].
    by rewrite (turn_keeps_outcome _ _ _ Ht Hw).
Qed.

Lemma all_resolved_spec w :
  all_resolved fut w = true ↔ ∀ d, d ∈ awaits fut → settled w !! d = Some true.
Proof.
  unfold all_resolved. rewrite forallb_forall. split.
  - intros H d Hd. apply list_elem_of_In in Hd.
    specialize (H d Hd). by apply bool_decide_eq_true in H.
  - intros H d Hd. apply list_elem_of_In in Hd.
    apply bool_decide_eq_true. by apply H.
Qed.

(** A future that is resolved was resolved by a turn of its callback,
    taken while it was waiting and all its deferreds were resolved. *)
Lemma resolved_by_fire ls : ∀ w w' r,
  status w = Waiting →
  turns E fut ls w = Some w' →
  status w' = Resolved r →
  ∃ ls1 ls2 w1,
    ls = ls1 ++ Fire :: ls2 ∧
    turns E fut ls1 w = Some w1 ∧
    all_resolved fut w1 = true ∧
    r = result (getData E (then_arg fut) (editor w1)).
Proof.
  induction ls as [|l ls IH]; intros w w' r Hw; cbn [turns].
  - intros [= <-] Hr. congruence.
  - destruct (turn E fut l w) as [w1|] eqn:Ht; [|done].
    intros Hrun Hres.
    destruct l as [d ok|e'| |].
    + cbn [turn] in Ht. destruct (settled w !! d) eqn:Hd; [done|].
      injection Ht as <-.
      eapply IH in Hrun as (ls1 & ls2 & w2 & -> & Hrun1 & Hall & ->);
        [|exact Hw|exact Hres].
      exists (Settle d ok :: ls1), ls2, w2. split_and!; try done.
      cbn [turns turn]. by rewrite Hd.
    + cbn [turn] in Ht. injection Ht as <-.
      eapply IH in Hrun as (ls1 & ls2 & w2 & -> & Hrun1 & Hall & ->);
        [|exact Hw|exact Hres].
      by exists (Mutate e' :: ls1), ls2, w2.
    + exists [], ls, w. cbn [turn] in Ht.
      destruct (is_waiting w && all_resolved fut w) eqn:Hc; [|done].
      apply andb_true_iff in Hc as [_ Hall]. injection Ht as <-.
      apply turns_keep_outcome in Hrun; [|done].
      cbn [status] in Hrun. rewrite Hres in Hrun. injection Hrun as ->.
      done.
    + cbn [turn] in Ht.
      destruct (is_waiting w && some_rejected fut w); [|done].
      injection Ht as <-.
      apply turns_keep_outcome in Hrun; [|done].
      cbn [status] in Hrun. congruence.
Qed.

(** A deferred that is resolved either was so at the start or was
    resolved by one of the turns. *)
Lemma settled_by_turn d ls : ∀ w w',
  turns E fut ls w = Some w' →
  settled w' !! d = Some true →
  settled w !! d = Some true ∨ Settle d true ∈ ls.
Proof.
  induction ls as [|l ls IH]; intros w w'; cbn [turns].
  - intros [= <-] H. by left.
  - destruct (turn E fut l w) as [w1|] eqn:Ht; [|done].
    intros Hrun Hd. destruct (IH _ _ Hrun Hd) as [H1|Hin].
    + destruct l as [d' ok|e'| |]; cbn [turn] in Ht.
      * destruct (settled w !! d') eqn:Hd'; [done|]. injection Ht as <-.
        cbn [settled] in H1. destruct (decide (d' = d)) as [->|Hne].
        -- rewrite lookup_insert_eq in H1. injection H1 as ->.
           right. apply list_elem_of_here.
        -- rewrite lookup_insert_ne in H1 by done. by left.
      * injection Ht as <-. by left.
      * destruct (_ && _); [|done]. injection Ht as <-. by left.
      * destruct (_ && _); [|done]. injection Ht as <-. by left.
    + right. by apply list_elem_of_further.
Qed.

End ProcessFacts.

Section Settlement.

Variable E : Env.
Variable fut : Future.

Lemma turn_settled l w w' d b :
  turn E fut l w = Some w' → settled w !! d = Some b →
  settled w' !! d = Some b ∧ ∀ ok, l ≠ Settle d ok.
Proof.
  destruct l as [d' ok|e'| |]; cbn [turn].
  - destruct (settled w !! d') eqn:Hd'; [done|]. intros [= <-] Hd. cbn [settled].
    assert (d' ≠ d) by congruence. split; [|congruence].
    by rewrite lookup_insert_ne.
  - by intros [= <-] Hd.
  - destruct (_ && _); [|done]. by intros [= <-] Hd.
  - destruct (_ && _); [|done]. by intros [= <-] Hd.
Qed.

(** A deferred settles once: its outcome stays, and no later turn settles
    it again. *)
Lemma turns_settled ls : ∀ w w' d b,
  turns E fut ls w = Some w' → settled w !! d = Some b →
  settled w' !! d = Some b ∧ ∀ ok, Settle d ok ∉ ls.
Proof.
  induction ls as [|l ls IH]; intros w w' d b; cbn [turns].
  - intros [= <-] Hd. split; [done|]. intros ok. apply not_elem_of_nil.
  - destruct (turn E fut l w) as [w1|] eqn:Ht; [|done]. intros Hrun Hd.
    destruct (turn_settled _ _ _ _ _ Ht Hd) as [Hd1 Hl].
    destruct (IH _ _ _ _ Hrun Hd1) as [Hd' Hls]. split; [done|].
    intros ok. apply not_elem_of_cons. split; [by apply not_eq_sym, Hl|apply Hls].
Qed.

Lemma turns_app ls1 : ∀ ls2 w w',
  turns E fut (ls1 ++ ls2) w = Some w' →
  ∃ w1, turns E fut ls1 w = Some w1 ∧ turns E fut ls2 w1 = Some w'.
Proof.
  induction ls1 as [|l ls1 IH]; intros ls2 w w'; cbn [turns app].
  - intros H. by exists w.
  - destruct (turn E fut l w) as [w1|]; [apply IH|done].
Qed.

Lemma turns_settle_outcome ls : ∀ w w' d ok,
  turns E fut ls w = Some w' → Settle d ok ∈ ls → settled w' !! d = Some ok.
Proof.
  induction ls as [|l ls IH]; intros w w' d ok; cbn [turns].
  - intros _ Hin. by apply elem_of_nil in Hin.
  - destruct (turn E fut l w) as [w1|] eqn:Ht; [|done]. intros Hrun Hin.
    apply elem_of_cons in Hin as [<-|Hin]; [|by eapply IH].
    cbn [turn] in Ht. destruct (settled w !! d); [done|]. injection Ht as <-.
    eapply turns_settled in Hrun as [Hrun _]; [exact Hrun|].
    cbn [settled]. apply lookup_insert_eq.
Qed.

End Settlement.

(** C3: the future returned by [process(v)] waits for the deferreds of
    the queued items that the registry holds at the call.  As long as the
    deferred of one of them is not resolved, the callback cannot run and
    the future is not resolved.  When it is resolved, it was resolved by a
    turn that came after the resolution of every one of them, and its
    value is the result of [getData(v)] run in that turn.  Once all of
    them are resolved and as long as it is waiting, that turn can be
    taken. *)
Theorem process_resolves_after_queued_items (E : Env) (v : Value) (e0 : Editor)
    (s0 : gmap nat bool) :
  let fut := process v e0 in
  let outstanding := queued (block_manager e0) in
  awaits fut = deferred <$> outstanding ∧
  (∀ ls w item,
     turns E fut ls (after_call e0 s0) = Some w →
     item ∈ outstanding →
     settled w !! deferred item ≠ Some true →
     turn E fut Fire w = None ∧ ∀ r, status w ≠ Resolved r) ∧
  (∀ ls w r,
     turns E fut ls (after_call e0 s0) = Some w →
     status w = Resolved r →
     ∃ ls1 ls2 w1,
       ls = ls1 ++ Fire :: ls2 ∧
       turns E fut ls1 (after_call e0 s0) = Some w1 ∧
       (∀ item, item ∈ outstanding →
          settled w1 !! deferred item = Some true ∧
          (s0 !! deferred item = Some true ∨ Settle (deferred item) true ∈ ls1)) ∧
       r = result (getData E v (editor w1))) ∧
  (∀ ls w,
     turns E fut ls (after_call e0 s0) = Some w →
     status w = Waiting →
     (∀ item, item ∈ outstanding → settled w !! deferred item = Some true) →
     ∃ w', turn E fut Fire w = Some w' ∧
           status w' = Resolved (result (getData E v (editor w)))).
Proof.
  cbn zeta.
  assert (Hawaits : ∀ item, item ∈ queued (block_manager e0) →
                            deferred item ∈ awaits (process v e0)).
  { intros item Hitem. cbn [process awaits]. apply list_elem_of_fmap. by exists item. }
  split_and!; [reflexivity| | |].
  - intros ls w item Hrun Hitem Hnot. split.
    + cbn [turn]. destruct (is_waiting w); [|reflexivity]. cbn [andb].
      destruct (all_resolved (process v e0) w) eqn:Hall; [|reflexivity].
      destruct Hnot. apply (all_resolved_spec (process v e0) w); [done|].
      by apply Hawaits.
    + intros r Hres.
      destruct (resolved_by_fire E (process v e0) ls (after_call e0 s0) w r)
        as (ls1 & ls2 & w1 & -> & Hrun1 & Hall & _); [done..|].
      apply turns_app in Hrun as (w1' & Hrun1' & Hrun2).
      rewrite Hrun1 in Hrun1'. injection Hrun1' as <-.
      assert (Htrue : settled w1 !! deferred item = Some true).
      { apply (all_resolved_spec (process v e0) w1); [done|]. by apply Hawaits. }
      eapply turns_settled in Hrun2 as [Hrun2 _]; [|exact Htrue].
      congruence.
  - intros ls w r Hrun Hres.
    destruct (resolved_by_fire E (process v e0) ls (after_call e0 s0) w r)
      as (ls1 & ls2 & w1 & -> & Hrun1 & Hall & ->); [done..|].
    exists ls1, ls2, w1. split_and!; try done.
    intros item Hitem.
    assert (Hd : settled w1 !! deferred item = Some true).
    { apply (all_resolved_spec (process v e0) w1); [done|]. by apply Hawaits. }
    split; [done|].
    by apply (settled_by_turn E (process v e0) _ _ _ _ Hrun1).
  - intros ls w Hrun Hw Hall. cbn [turn].
    assert (Hc : is_waiting w && all_resolved (process v e0) w = true).
    { apply andb_true_iff. split; [unfold is_waiting; by rewrite Hw|].
      apply all_resolved_spec. intros d Hd. cbn [process awaits] in Hd.
      apply list_elem_of_fmap in Hd as (item & -> & Hitem). by apply Hall. }
    rewrite Hc. eexists. split; reflexivity.
Qed.

(** While the upload of the sample editor is outstanding the callback
    cannot run; in a run in which the future is resolved, the upload was
    resolved by an earlier turn, and the value is that of the pass run when
    the callback ran. *)
Lemma process_resolves_after_queued_items_witness :
  turn Sample.strict (process VUndefined Sample.busy_editor) Fire
       (after_call Sample.busy_editor ∅) = None ∧
  ∃ ls1 ls2 w1,
    [Settle 7 true; Mutate Sample.idle_editor; Fire] = ls1 ++ Fire :: ls2 ∧
    turns Sample.strict (process VUndefined Sample.busy_editor) ls1
      (after_call Sample.busy_editor ∅) = Some w1 ∧
    Settle 7 true ∈ ls1 ∧
    {| data := "text"; errors_count := 0; canSubmit := true |}
    = result (getData Sample.strict VUndefined (editor w1)).
Proof.
  destruct (process_resolves_after_queued_items Sample.strict VUndefined
              Sample.busy_editor ∅) as (_ & Hnot & H & _).
  split.
  - apply (Hnot [] (after_call Sample.busy_editor ∅)
             {| q_name := "upload"; deferred := 7 |}).
    + reflexivity.
    + apply list_elem_of_here.
    + cbn. rewrite lookup_empty. discriminate.
  - edestruct (H [Settle 7 true; Mutate Sample.idle_editor; Fire])
      as (ls1 & ls2 & w1 & Hls & Hrun & Hall & Hr);
      [vm_compute; reflexivity | reflexivity |].
    exists ls1, ls2, w1. split_and!; [exact Hls|exact Hrun| |exact Hr].
    destruct (Hall {| q_name := "upload"; deferred := 7 |}) as [_ [Habs|Hin]].
    + apply list_elem_of_here.
    + rewrite lookup_empty in Habs. discriminate Habs.
    + exact Hin.
Defined.

(** ** Several instances on one page *)

Section WiringFacts.

Import Wiring.

Variable outside : Stage → nat → nat → Page → list Op.

Lemma extends_refl this m p : extends this m p p.
Proof.
  unfold extends. split_and!; try done.
  - exists []. split; [by rewrite app_nil_r|]. by intros s j ?%elem_of_nil.
  - exists []. by rewrite app_nil_r.
Qed.

Lemma extends_trans this m p1 p2 p3 :
  extends this m p1 p2 → extends this m p2 p3 → extends this m p1 p3.
Proof.
  intros (Hm1 & Hi1 & Hd1 & Ho1 & (l1 & Hl1 & Hown1) & (b1 & Hb1))
         (Hm2 & Hi2 & Hd2 & Ho2 & (l2 & Hl2 & Hown2) & (b2 & Hb2)).
  unfold extends. split_and!; try congruence.
  - intros a Ha. by rewrite Ho2, Ho1.
  - exists (l1 ++ l2). split; [by rewrite Hl2, Hl1, <- app_assoc|].
    intros s j [Hs|Hs]%elem_of_app; eauto.
  - exists (b1 ++ b2). by rewrite Hb2, Hb1, <- app_assoc.
Qed.

Lemma extends_mediator_on this m name c p :
  (∀ j, belongs_to c = Some j → j = this) →
  extends this m p (mediator_on m name c p).
Proof.
  intros Hc. unfold extends, mediator_on. cbn. split_and!; try done.
  - apply dom_alter_L.
  - intros a Ha. by rewrite lookup_alter_ne.
  - rewrite lookup_alter_eq. destruct (objects p !! m) as [l|]; cbn.
    + eexists. split; [reflexivity|].
      intros s j ->%list_elem_of_singleton. apply Hc.
    + exists []. split; [done|]. by intros s j ?%elem_of_nil.
  - exists []. by rewrite app_nil_r.
Qed.

Lemma extends_EventBus_on this m name c p :
  extends this m p (EventBus_on name c p).
Proof.
  unfold extends, EventBus_on. cbn. split_and!; try done.
  - exists []. split; [by rewrite app_nil_r|]. by intros s j ?%elem_of_nil.
  - by eexists.
Qed.

Lemma extends_run_ops this m ops : ∀ p,
  (∀ o, o ∈ ops →
     match op_channel o with
     | OnMediator m' => m' = m ∧ ∀ j, belongs_to (op_callback o) = Some j → j = this
     | OnEventBus => True
     end) →
  extends this m p (run_ops ops p).
Proof.
  induction ops as [|o ops IH]; intros p Hops; [apply extends_refl|].
  cbn [run_ops foldl]. eapply extends_trans; [|apply IH].
  - specialize (Hops o (list_elem_of_here _ _)). unfold run_op.
    destruct (op_channel o) as [m'|].
    + destruct Hops as [-> Hc]. by apply extends_mediator_on.
    + apply extends_EventBus_on.
  - intros o' Ho'. apply Hops. by apply list_elem_of_further.
Qed.

Lemma extends_at_stage stage this m p :
  keeps_to_instance outside →
  extends this m p (at_stage outside stage this m p).
Proof.
  intros Hk. apply extends_run_ops. intros o Ho. by eapply Hk.
Qed.

Lemma extends__setEvents this m p : extends this m p (_setEvents this p).
Proof.
  unfold _setEvents, events. cbn [foldl fst snd].
  repeat (eapply extends_trans; [|apply extends_EventBus_on]).
  apply extends_refl.
Qed.

Lemma bus_adds_refl name p : bus_adds name [] p p.
Proof. unfold bus_adds. by rewrite app_nil_r. Qed.

Lemma bus_adds_trans name l1 l2 p1 p2 p3 :
  bus_adds name l1 p1 p2 → bus_adds name l2 p2 p3 → bus_adds name (l1 ++ l2) p1 p3.
Proof. unfold bus_adds. intros H1 H2. by rewrite H2, H1, <- app_assoc. Qed.

Lemma bus_adds_nil name p1 p2 p3 :
  bus_adds name [] p1 p2 → bus_adds name [] p2 p3 → bus_adds name [] p1 p3.
Proof. apply (bus_adds_trans name [] []). Qed.

Lemma bus_adds_mediator_on name m ev c p : bus_adds name [] p (mediator_on m ev c p).
Proof. unfold bus_adds, mediator_on. cbn. by rewrite app_nil_r. Qed.

Lemma bus_adds_run_ops name ops : ∀ p,
  (∀ o, o ∈ ops → op_channel o = OnEventBus → op_event o ≠ name) →
  bus_adds name [] p (run_ops ops p).
Proof.
  induction ops as [|o ops IH]; intros p Hops; [apply bus_adds_refl|].
  cbn [run_ops foldl]. eapply bus_adds_nil; [|apply IH].
  - specialize (Hops o (list_elem_of_here _ _)). unfold run_op.
    destruct (op_channel o) as [m'|]; [apply bus_adds_mediator_on|].
    unfold bus_adds, EventBus_on, on, receivers. cbn.
    rewrite filter_app, filter_cons, filter_nil. cbn.
    destruct (decide (op_event o = name)) as [He|]; [|done].
    exfalso. by apply Hops.
  - intros o' Ho'. apply Hops. by apply list_elem_of_further.
Qed.

Lemma bus_adds_at_stage name stage this m p :
  leaves_drag_events outside → name ∈ events.*1 →
  bus_adds name [] p (at_stage outside stage this m p).
Proof.
  intros Hl Hname. apply bus_adds_run_ops. intros o Ho Hc <-.
  by eapply Hl.
Qed.

Lemma bus_adds__setEvents name this p :
  name ∈ events.*1 →
  bus_adds name [drag_subscription name this] p (_setEvents this p).
Proof.
  intros Hname. unfold bus_adds, _setEvents, events, EventBus_on, on, receivers.
  cbn [foldl fst snd eventBus]. rewrite <- !app_assoc, filter_app. f_equal.
  cbn in Hname. list_cases Hname; reflexivity.
Qed.

Lemma build_spec this m p :
  keeps_to_instance outside →
  mediator p !! this = Some m →
  m ∈ dom (objects p) →
  ∃ p', build outside this p = Some p' ∧
    mediator p' = mediator p ∧ instances p' = instances p ∧
    dom (objects p') = dom (objects p) ∧
    (∀ a, a ≠ m → objects p' !! a = objects p !! a) ∧
    (∃ before after_,
       default [] (objects p' !! m)
       = default [] (objects p !! m) ++ before ++ own_subscriptions this ++ after_ ∧
       ∀ s j, s ∈ before ++ after_ → belongs_to (s_callback s) = Some j → j = this) ∧
    (∃ more, eventBus p' = eventBus p ++ more) ∧
    (leaves_drag_events outside → ∀ name, name ∈ events.*1 →
       bus_adds name [drag_subscription name this] p p').
Proof.
  intros Hk Hm Hdom. unfold build. rewrite Hm. cbn [mbind option_bind].
  set (p1 := at_stage outside Constructors this m p).
  set (p2 := mediator_on m "block:render" (Method this "renderBlock")
               (mediator_on m "block:limitReached" (Method this "blockLimitReached")
                  (mediator_on m "block-controls:reset" (Method this "resetBlockControls")
                     (mediator_on m "block:changePosition"
                        (Method this "changeBlockPosition") p1)))).
  set (p3 := _setEvents this p2).
  set (p4 := at_stage outside Render this m p3).
  set (p5 := at_stage outside CreateBlocks this m p4).
  set (p6 := at_stage outside EditorRender this m p5).
  exists p6. split; [reflexivity|].
  pose proof (extends_at_stage Constructors this m p Hk) as H1. fold p1 in H1.
  assert (H23 : extends this m p2 p3) by apply extends__setEvents.
  assert (H36 : extends this m p3 p6).
  { eapply extends_trans; [apply (extends_at_stage Render this m p3 Hk)|].
    eapply extends_trans; [apply (extends_at_stage CreateBlocks this m p4 Hk)|].
    apply (extends_at_stage EditorRender this m p5 Hk). }
  pose proof (extends_trans _ _ _ _ _ H23 H36) as H26.
  destruct H1 as (Hm1 & Hi1 & Hd1 & Ho1 & (l1 & Hl1 & Hown1) & (b1 & Hb1)).
  destruct H26 as (Hm2 & Hi2 & Hd2 & Ho2 & (l2 & Hl2 & Hown2) & (b2 & Hb2)).
  assert (Hm12 : mediator p2 = mediator p1) by reflexivity.
  assert (Hi12 : instances p2 = instances p1) by reflexivity.
  assert (Hb12 : eventBus p2 = eventBus p1) by reflexivity.
  assert (Hd12 : dom (objects p2) = dom (objects p1)).
  { unfold p2, mediator_on. cbn [objects]. by rewrite !dom_alter_L. }
  assert (Ho12 : ∀ a, a ≠ m → objects p2 !! a = objects p1 !! a).
  { intros a Ha. unfold p2, mediator_on. cbn [objects].
    by rewrite !lookup_alter_ne. }
  assert (Hl12 : default [] (objects p2 !! m)
                 = default [] (objects p1 !! m) ++ own_subscriptions this).
  { assert (His : is_Some (objects p1 !! m)).
    { apply elem_of_dom. by rewrite Hd1. }
    destruct His as [l Hl]. unfold p2, mediator_on. cbn [objects].
    rewrite !lookup_alter_eq, Hl. cbn. unfold on, own_subscriptions.
    by rewrite <- !app_assoc. }
  split_and!; try congruence.
  - intros a Ha. by rewrite Ho2, Ho12, Ho1.
  - exists l1, l2. split.
    + by rewrite Hl2, Hl12, Hl1, <- !app_assoc.
    + intros s j [Hs|Hs]%elem_of_app; eauto.
  - exists (b1 ++ b2). by rewrite Hb2, Hb12, Hb1, <- app_assoc.
  - intros Hl name Hname.
    assert (B1 : bus_adds name [] p p1) by (by apply bus_adds_at_stage).
    assert (B2 : bus_adds name [] p1 p2).
    { unfold bus_adds. by rewrite Hb12, app_nil_r. }
    assert (B3 : bus_adds name [drag_subscription name this] p2 p3)
      by (by apply bus_adds__setEvents).
    assert (B4 : bus_adds name [] p3 p6).
    { eapply bus_adds_nil; [by apply bus_adds_at_stage|].
      eapply bus_adds_nil; by apply bus_adds_at_stage. }
    pose proof (bus_adds_trans _ _ _ _ _ _
                  (bus_adds_trans _ _ _ _ _ _ (bus_adds_nil _ _ _ _ B1 B2) B3) B4) as B.
    by rewrite app_nil_r in B.
Qed.

Lemma initialize_spec this p :
  keeps_to_instance outside →
  ∃ p', initialize outside this p = Some p' ∧
    (fresh (dom (objects p)) ∉ dom (objects p)) ∧
    mediator p' = <[this := fresh (dom (objects p))]> (mediator p) ∧
    instances p' = instances p ∧
    dom (objects p') = {[fresh (dom (objects p))]} ∪ dom (objects p) ∧
    (∀ a, a ≠ fresh (dom (objects p)) → objects p' !! a = objects p !! a) ∧
    (∃ before after_,
       objects p' !! fresh (dom (objects p))
       = Some (before ++ own_subscriptions this ++ after_) ∧
       ∀ s j, s ∈ before ++ after_ → belongs_to (s_callback s) = Some j → j = this) ∧
    (∃ more, eventBus p' = eventBus p ++ more) ∧
    (leaves_drag_events outside → ∀ name, name ∈ events.*1 →
       bus_adds name [drag_subscription name this] p p').
Proof.
  intros Hk. unfold initialize.
  set (m := fresh (dom (objects p))).
  set (p0 := {| eventBus := eventBus p; objects := <[m := []]> (objects p);
                mediator := <[this := m]> (mediator p); instances := instances p |}).
  destruct (build_spec this m p0 Hk) as
    (p1 & Hb & Hm1 & Hi1 & Hd1 & Ho1 & (l1 & l2 & Hl1 & Hown1) & (b1 & Hb1) & Hbus1).
  { unfold p0. cbn. apply lookup_insert_eq. }
  { unfold p0. cbn. rewrite dom_insert_L. by apply elem_of_union_l, elem_of_singleton. }
  rewrite Hb. cbn [mbind option_bind].
  set (p2 := at_stage outside FormEventsNew this m p1).
  set (p3 := at_stage outside Initialized this m p2).
  exists p3. split; [reflexivity|].
  assert (H13 : extends this m p1 p3).
  { eapply extends_trans; [apply (extends_at_stage FormEventsNew this m p1 Hk)|].
    apply (extends_at_stage Initialized this m p2 Hk). }
  destruct H13 as (Hm2 & Hi2 & Hd2 & Ho2 & (l3 & Hl3 & Hown3) & (b2 & Hb2)).
  assert (Hdom : dom (objects p3) = {[m]} ∪ dom (objects p)).
  { rewrite Hd2, Hd1. unfold p0. cbn. by rewrite dom_insert_L. }
  split_and!.
  - apply is_fresh.
  - by rewrite Hm2, Hm1.
  - by rewrite Hi2, Hi1.
  - exact Hdom.
  - intros a Ha. rewrite Ho2, Ho1 by done. unfold p0. cbn.
    by rewrite lookup_insert_ne.
  - exists l1, (l2 ++ l3).
    assert (His : is_Some (objects p3 !! m)).
    { apply elem_of_dom. rewrite Hdom. by apply elem_of_union_l, elem_of_singleton. }
    destruct His as [l Hl]. rewrite Hl in Hl3. cbn in Hl3.
    rewrite Hl1 in Hl3. unfold p0 in Hl3. cbn in Hl3.
    rewrite lookup_insert_eq in Hl3. cbn in Hl3. split.
    + rewrite Hl, Hl3. by rewrite <- !app_assoc.
    + intros s j Hs Hj. rewrite app_assoc in Hs.
      apply elem_of_app in Hs as [Hs|Hs]; eauto.
  - exists (b1 ++ b2). rewrite Hb2, Hb1. unfold p0. cbn. by rewrite <- app_assoc.
  - intros Hl name Hname.
    assert (B1 : bus_adds name [drag_subscription name this] p p1).
    { specialize (Hbus1 Hl name Hname). unfold bus_adds in *.
      rewrite Hbus1. reflexivity. }
    assert (B2 : bus_adds name [] p1 p3).
    { eapply bus_adds_nil; by apply bus_adds_at_stage. }
    pose proof (bus_adds_trans _ _ _ _ _ _ B1 B2) as B.
    by rewrite app_nil_r in B.
Qed.

Lemma wired_empty : wired 0 empty_page.
Proof.
  unfold wired, empty_page, mediator_of. cbn. split_and!.
  - reflexivity.
  - intros i. rewrite lookup_empty. split; [lia|]. by intros [? ?].
  - intros i m. by rewrite lookup_empty.
  - intros i j m. by rewrite lookup_empty.
  - intros i s j. rewrite lookup_empty. cbn. by intros ?%elem_of_nil.
  - intros i Hi. lia.
  - reflexivity.
Qed.

Lemma wired_new_Editor n p :
  keeps_to_instance outside → leaves_drag_events outside →
  wired n p →
  ∃ p', new_Editor outside p = Some p' ∧ wired (S n) p'.
Proof.
  intros Hk Hl (Hn & Hmed & Halloc & Hinj & Hown & Hfour & Hbus).
  unfold new_Editor.
  set (p0 := {| eventBus := eventBus p; objects := objects p;
                mediator := mediator p; instances := S (instances p) |}).
  destruct (initialize_spec (instances p) p0 Hk) as
    (p' & Hinit & Hfresh & Hm' & Hi' & Hd' & Ho' & (l1 & l2 & Hl' & Hown') & _ & Hbus').
  change (objects p0) with (objects p) in *.
  change (mediator p0) with (mediator p) in *.
  change (instances p0) with (S (instances p)) in *.
  set (m := fresh (dom (objects p))) in *.
  exists p'. split; [exact Hinit|]. rewrite Hn in *.
  assert (Hold : ∀ i a, i ≠ n → mediator p !! i = Some a → a ≠ m).
  { intros i a _ Hi ->. apply Hfresh. by eapply Halloc. }
  unfold wired. split_and!.
  - exact Hi'.
  - intros i. rewrite Hm'. destruct (decide (i = n)) as [->|Hne].
    + rewrite lookup_insert_eq. split; [by eexists|lia].
    + rewrite lookup_insert_ne by done. rewrite <- Hmed. lia.
  - intros i a. rewrite Hm', Hd'. destruct (decide (i = n)) as [->|Hne].
    + rewrite lookup_insert_eq. intros [= <-]. by apply elem_of_union_l, elem_of_singleton.
    + rewrite lookup_insert_ne by done. intros Hi.
      apply elem_of_union_r. by eapply Halloc.
  - intros i j a. rewrite Hm'.
    destruct (decide (i = n)) as [->|Hi], (decide (j = n)) as [->|Hj];
      rewrite ?lookup_insert_eq, ?lookup_insert_ne by done; try done.
    + intros [= <-] Hjm. by destruct (Hold j m Hj Hjm).
    + intros Him [= <-]. by destruct (Hold i m Hi Him).
    + apply Hinj.
  - intros i s j. unfold mediator_of. rewrite Hm'.
    destruct (decide (i = n)) as [->|Hi].
    + rewrite lookup_insert_eq. cbn -[own_subscriptions app]. rewrite Hl'.
      cbn -[own_subscriptions app].
      rewrite !elem_of_app. intros [Hs|[Hs|Hs]].
      * apply (Hown' s j). apply elem_of_app. by left.
      * unfold own_subscriptions in Hs. list_cases Hs; cbn; by intros [= <-].
      * apply (Hown' s j). apply elem_of_app. by right.
    + rewrite lookup_insert_ne by done.
      destruct (mediator p !! i) as [a|] eqn:Ha; cbn; [|by intros ?%elem_of_nil].
      rewrite Ho' by (by eapply Hold). intros Hs.
      apply (Hown i s j). unfold mediator_of. rewrite Ha. exact Hs.
  - intros i Hi. unfold mediator_of. rewrite Hm'.
    destruct (decide (i = n)) as [->|Hne].
    + rewrite lookup_insert_eq. cbn -[own_subscriptions app]. rewrite Hl'.
      by exists l1, l2.
    + rewrite lookup_insert_ne by done.
      destruct (Hfour i) as (l3 & l4 & H34); [lia|]. exists l3, l4.
      rewrite <- H34. unfold mediator_of.
      destruct (mediator p !! i) as [a|] eqn:Ha; [|done].
      cbn -[own_subscriptions app]. rewrite Ho' by (by eapply Hold). done.
  - intros name Hname. specialize (Hbus' Hl name Hname). unfold bus_adds in Hbus'.
    rewrite Hbus'. change (eventBus p0) with (eventBus p).
    rewrite (Hbus name Hname), seq_S, fmap_app. reflexivity.
Qed.

Lemma page_with_wired n :
  keeps_to_instance outside → leaves_drag_events outside →
  ∃ p, page_with outside n = Some p ∧ wired n p.
Proof.
  intros Hk Hl. induction n as [|n (p & Hp & Hw)].
  - exists empty_page. split; [reflexivity|apply wired_empty].
  - destruct (wired_new_Editor n p Hk Hl Hw) as (p' & Hp' & Hw').
    exists p'. split; [|exact Hw']. cbn [page_with]. rewrite Hp. exact Hp'.
Qed.

End WiringFacts.

Section DeliveryFacts.

Import Wiring.

Variable others : Callback → gmap nat (list Node) → option (gmap nat (list Node)).








End DeliveryFacts.

Lemma Demo_outside_keeps_to_instance : Wiring.keeps_to_instance Demo.outside.
Proof.
  intros stage this m p o Ho.
  destruct stage; cbn in Ho; list_cases Ho; cbn; try done;
    (split; [reflexivity|]; by intros j [= <-]).
Qed.

Lemma Demo_outside_leaves_drag_events : Wiring.leaves_drag_events Demo.outside.
Proof.
  intros stage this m p o Ho Hc.
  destruct stage; cbn in Ho; list_cases Ho; try discriminate Hc.
  apply (bool_decide_unpack _). vm_compute. exact I.
Qed.





(** * Further properties of the validation pass *)

(** X1: a pass leaves the wrapper, the registry and the options alone, and
    a second pass right after a first one calls the same, returns the same
    and leaves the same state: nothing accumulates from one pass to the
    next. *)
Theorem getData_twice (E : Env) (v : Value) (e : Editor) :
  wrapper (after (getData E v e)) = wrapper e ∧
  block_manager (after (getData E v e)) = block_manager e ∧
  defaultType (after (getData E v e)) = defaultType e ∧
  getData E v (after (getData E v e)) = getData E v e.
Proof.
  destruct (getData_spec E v e) as (Ha & Hb & Hr). cbn zeta in Ha, Hb, Hr.
  rewrite Hb. split_and!; reflexivity.
Qed.

Lemma filter_none {A} (P : A → Prop) `{∀ x, Decision (P x)} (l : list A) :
  (∀ x, x ∈ l → ¬ P x) → filter P l = [].
Proof.
  induction l as [|x l IH]; intros Hl; [reflexivity|].
  rewrite filter_cons. destruct (decide (P x)) as [HP|_].
  - destruct (Hl x); [apply list_elem_of_here|done].
  - apply IH. intros y Hy. apply Hl. by apply list_elem_of_further.
Qed.

Lemma filter_all {A} (P : A → Prop) `{∀ x, Decision (P x)} (l : list A) :
  (∀ x, x ∈ l → P x) → filter P l = l.
Proof.
  induction l as [|x l IH]; intros Hl; [reflexivity|].
  rewrite filter_cons. destruct (decide (P x)) as [_|HP].
  - f_equal. apply IH. intros y Hy. apply Hl. by apply list_elem_of_further.
  - destruct HP. apply Hl, list_elem_of_here.
Qed.

Lemma filter_partition_length {A} (f : A → bool) (l : list A) :
  length (filter (λ x, f x = false) l) + length (filter (λ x, f x = true) l)
  = length l.
Proof.
  induction l as [|x l IH]; [reflexivity|].
  rewrite !filter_cons.
  destruct (f x); repeat case_decide; try congruence; cbn; lia.
Qed.

(** X2: in a pass every block that an element of the wrapper resolves to
    is either saved or reported, never both and never neither: the
    records saved and the failures reported add up to the blocks, and the
    errors counted are the failures of the blocks plus the errors of the
    check of the block types. *)
Theorem getData_partitions_blocks (E : Env) (v : Value) (e : Editor) :
  let sv := as_shouldValidate v in
  let bs := blocks_in_dom_order e in
  let o := getData E v e in
  length (store (after o)) + length (filter (λ b, fails E sv b = true) bs)
  = length bs ∧
  errors_count (result o)
  = length (filter (λ b, fails E sv b = true) bs)
    + length (missing_type_errors E sv (block_manager e)) ∧
  (∀ b, b ∈ bs →
     (fails E sv b = false ∧ Block.getData b ∈ store (after o)) ∨
     (fails E sv b = true ∧ fail_record b ∈ errors (after o))).
Proof.
  cbn zeta.
  destruct (getData_spec E v e) as (_ & Hb & Hr). cbn zeta in Hb, Hr.
  rewrite Hr, Hb. cbn [store errors set_store set_errors errors_count].
  unfold saved, reported. split_and!.
  - rewrite length_fmap. apply filter_partition_length.
  - by rewrite length_app, length_fmap.
  - intros b Hin. destruct (fails E (as_shouldValidate v) b) eqn:Hf.
    + right. split; [done|]. apply elem_of_app. left.
      apply list_elem_of_fmap. exists b. split; [done|].
      by apply list_elem_of_filter.
    + left. split; [done|].
      apply list_elem_of_fmap. exists b. split; [done|].
      by apply list_elem_of_filter.
Qed.

(** X3: a [shouldValidate] other than [false] forces the validation of
    the blocks, whether [config.skipValidation] is set or not: [valid()] is
    called for every block that a block element resolves to, the records
    saved are those of the blocks whose [valid()] is true, and the errors
    are the failures of the others, followed by what the check of the
    block types adds. *)
Theorem shouldValidate_overrides_skipValidation (E : Env) (v : Value) (e : Editor) :
  v ≠ VBool false →
  let bs := resolve (block_manager e) (querySelectorAll "st-block" (wrapper e)) in
  let o := getData E v e in
  (∀ b, b ∈ bs → CallValid (Block.blockID b) ∈ actions o) ∧
  store (after o) = Block.getData <$> filter (λ b, Block.valid b = true) bs ∧
  errors (after o)
  = (fail_record <$> filter (λ b, Block.valid b = false) bs)
    ++ missing_type_errors E true (block_manager e).
Proof.
  intros Hv. cbn zeta.
  assert (Hsv : as_shouldValidate v = true) by (by destruct v as [| |[|]| |]).
  destruct (getData_outcome E v e) as (Ha & Hs & He & _). cbn zeta in Ha, Hs, He.
  rewrite Hsv in Ha, Hs, He.
  assert (Hc : checks E true = true) by (unfold checks; apply orb_true_r).
  assert (Hf : ∀ b, fails E true b = negb (Block.valid b))
    by (intros b; unfold fails; by rewrite Hc).
  split_and!.
  - intros b Hb. rewrite Ha.
    apply list_elem_of_further, list_elem_of_further, elem_of_app. left.
    apply elem_of_concat. exists (block_actions E true b). split.
    + unfold block_actions. rewrite Hc. apply list_elem_of_here.
    + apply list_elem_of_fmap. by exists b.
  - rewrite Hs. unfold saved. f_equal. apply list_filter_iff.
    intros b. rewrite Hf. by destruct (Block.valid b).
  - rewrite He. unfold reported. do 2 f_equal. apply list_filter_iff.
    intros b. rewrite Hf. by destruct (Block.valid b).
Qed.

(** With [config.skipValidation] set, a pass asked for without an
    argument still reports the image block of the sample editor and saves
    the text block alone. *)
Lemma shouldValidate_overrides_skipValidation_witness :
  skipValidation Sample.lenient = true ∧
  store (after (getData Sample.lenient VUndefined Sample.editor))
  = [Block.getData Sample.text_block] ∧
  errors (after (getData Sample.lenient VUndefined Sample.editor))
  = [AError {| text := Some "Image is empty" |}].
Proof.
  destruct (shouldValidate_overrides_skipValidation Sample.lenient VUndefined
              Sample.editor) as (_ & Hs & He); [discriminate|].
  split_and!; [reflexivity|exact Hs|exact He].
Defined.

(** X4: [canSubmit] is true exactly when no block of the registry that a
    block element of the wrapper resolves to fails, the check of the block
    types adds no error and the registry has no queued item outstanding. *)
Theorem canSubmit_iff (E : Env) (v : Value) (e : Editor) :
  let sv := as_shouldValidate v in
  canSubmit (result (getData E v e)) = true ↔
    (∀ b, b ∈ resolve (block_manager e) (querySelectorAll "st-block" (wrapper e)) →
          fails E sv b = false) ∧
    missing_type_errors E sv (block_manager e) = [] ∧
    queued (block_manager e) = [].
Proof.
  cbn zeta.
  destruct (getData_outcome E v e) as (_ & _ & He & _ & Hr). cbn zeta in He, Hr.
  rewrite Hr, He. cbn [canSubmit]. rewrite js_not_or, length_app.
  unfold reported. rewrite length_fmap.
  set (bs := resolve _ _). split.
  - intros [Hlen Hq]. split_and!.
    + intros b Hin. destruct (fails E (as_shouldValidate v) b) eqn:Hf; [|done].
      assert (Hin' : b ∈ filter (λ b, fails E (as_shouldValidate v) b = true) bs)
        by (by apply list_elem_of_filter).
      destruct (filter _ _); [by apply elem_of_nil in Hin'|]. cbn in Hlen. lia.
    + apply nil_length_inv. lia.
    + by apply nil_length_inv.
  - intros (Hf & -> & ->). split; [|done].
    rewrite filter_none; [done|].
    intros b Hin. by rewrite (Hf b Hin).
Qed.

(** The sample editor can be submitted once its upload is over, not
    while it is outstanding, and not while the image block fails. *)
Lemma canSubmit_iff_witness :
  canSubmit (result (getData Sample.strict VUndefined Sample.idle_editor)) = true ∧
  canSubmit (result (getData Sample.strict VUndefined Sample.busy_editor)) ≠ true ∧
  canSubmit (result (getData Sample.strict VUndefined Sample.editor)) ≠ true.
Proof.
  split_and!.
  - apply (canSubmit_iff Sample.strict VUndefined Sample.idle_editor).
    split_and!; [|reflexivity..].
    intros b Hb. vm_compute in Hb. list_cases Hb. reflexivity.
  - intros H. apply (canSubmit_iff Sample.strict VUndefined Sample.busy_editor) in H.
    destruct H as (_ & _ & H). discriminate H.
  - intros H. apply (canSubmit_iff Sample.strict VUndefined Sample.editor) in H.
    destruct H as (H & _ & _).
    specialize (H Sample.image_block). cbn zeta in H.
    enough (true = false) by discriminate. apply H.
    apply list_elem_of_here.
Defined.

(** X5: with [config.skipValidation] set, [getData(false)] never calls
    [valid()] and saves the record of every block that an element of the
    wrapper resolves to, in the order of the elements. *)
Theorem getData_false_saves_every_block (E : Env) (e : Editor) :
  skipValidation E = true →
  store (after (getData E (VBool false) e))
  = Block.getData <$> blocks_in_dom_order e ∧
  (∀ a, a ∈ actions (getData E (VBool false) e) → is_call_valid a = false).
Proof.
  intros Hskip.
  destruct (getData_spec E (VBool false) e) as (Ha & Hb & _). cbn zeta in Ha, Hb.
  change (as_shouldValidate (VBool false)) with false in *.
  assert (Hf : ∀ b, fails E false b = false).
  { intros b. unfold fails, checks. by rewrite Hskip. }
  split.
  - rewrite Hb. cbn [store set_store set_errors]. unfold saved.
    rewrite filter_all; [done|].
    intros b _. apply Hf.
  - intros a. rewrite Ha. intros Hin.
    apply elem_of_cons in Hin as [->|Hin]; [reflexivity|].
    apply elem_of_cons in Hin as [->|Hin]; [reflexivity|].
    apply elem_of_app in Hin as [Hin|Hin].
    + apply elem_of_concat in Hin as (l & Hin & Hl).
      apply list_elem_of_fmap in Hl as (b & -> & _).
      unfold block_actions, checks in Hin. rewrite Hskip, Hf in Hin.
      cbn in Hin. list_cases Hin; reflexivity.
    + list_cases Hin; reflexivity.
Qed.

Lemma getData_false_saves_every_block_witness :
  skipValidation Sample.lenient = true ∧
  store (after (getData Sample.lenient (VBool false) Sample.editor))
  = [Block.getData Sample.image_block; Block.getData Sample.text_block].
Proof.
  split; [reflexivity|].
  apply (getData_false_saves_every_block Sample.lenient Sample.editor).
  reflexivity.
Defined.

(** * Further properties of changeBlockPosition *)

Section Moves.

Implicit Types (n m ref block blockBy : Node) (l : list Node).

Lemma remove_node_not_elem_of n l : n ∉ remove_node n l.
Proof. unfold remove_node. rewrite list_elem_of_filter. by intros [H _]. Qed.

Lemma remove_node_id n l : n ∉ l → remove_node n l = l.
Proof.
  intros Hn. unfold remove_node. apply filter_all.
  intros m Hm ->. done.
Qed.

Lemma remove_node_delete n l p :
  NoDup l → l !! p = Some n → remove_node n l = delete p l.
Proof.
  revert p. induction l as [|m l IH]; intros p Hnd Hp; [done|].
  apply NoDup_cons in Hnd as [Hm Hnd].
  unfold remove_node. rewrite filter_cons.
  destruct p as [|p]; cbn in Hp.
  - injection Hp as ->. destruct (decide (n ≠ n)); [done|].
    cbn. by apply remove_node_id.
  - destruct (decide (m ≠ n)) as [_|Heq].
    + cbn. f_equal. by apply IH.
    + apply dec_stable in Heq as ->. destruct Hm.
      by eapply list_elem_of_lookup_2.
Qed.

Lemma remove_node_perm n l : NoDup l → n ∈ l → n :: remove_node n l ≡ₚ l.
Proof.
  intros Hnd Hin. apply list_elem_of_lookup in Hin as [p Hp].
  rewrite (remove_node_delete _ _ _ Hnd Hp). symmetry. by apply delete_Permutation.
Qed.

Lemma place_before_perm ref n l : place_before ref n l ≡ₚ n :: l.
Proof.
  induction l as [|m l IH]; cbn; [done|].
  destruct (decide (m = ref)); [done|].
  rewrite IH. apply Permutation_swap.
Qed.

Lemma place_after_perm ref n l : place_after ref n l ≡ₚ n :: l.
Proof.
  induction l as [|m l IH]; cbn; [done|].
  destruct (decide (m = ref)); [apply Permutation_swap|].
  rewrite IH. apply Permutation_swap.
Qed.

Lemma remove_node_cons n m l :
  remove_node n (m :: l) = if decide (m = n) then remove_node n l
                           else m :: remove_node n l.
Proof.
  unfold remove_node. rewrite filter_cons.
  destruct (decide (m ≠ n)) as [Hne|Heq], (decide (m = n)); done.
Qed.

Lemma remove_node_place_before ref n l :
  n ∉ l → remove_node n (place_before ref n l) = l.
Proof.
  induction l as [|m l IH]; intros Hn; cbn [place_before].
  - rewrite remove_node_cons. by destruct (decide (n = n)).
  - apply not_elem_of_cons in Hn as [Hnm Hn].
    destruct (decide (m = ref)).
    + rewrite remove_node_cons. destruct (decide (n = n)); [|done].
      apply remove_node_id. by apply not_elem_of_cons.
    + rewrite remove_node_cons. destruct (decide (m = n)); [congruence|].
      f_equal. by apply IH.
Qed.

Lemma remove_node_place_after ref n l :
  n ∉ l → remove_node n (place_after ref n l) = l.
Proof.
  induction l as [|m l IH]; intros Hn; cbn [place_after].
  - rewrite remove_node_cons. by destruct (decide (n = n)).
  - apply not_elem_of_cons in Hn as [Hnm Hn].
    destruct (decide (m = ref)).
    + rewrite !remove_node_cons. destruct (decide (m = n)); [congruence|].
      destruct (decide (n = n)); [|done].
      f_equal. by apply remove_node_id.
    + rewrite remove_node_cons. destruct (decide (m = n)); [congruence|].
      f_equal. by apply IH.
Qed.

Lemma querySelectorAll_remove_node c n l :
  querySelectorAll c (remove_node n l) = remove_node n (querySelectorAll c l).
Proof.
  unfold querySelectorAll, remove_node.
  induction l as [|m l IH]; [done|].
  rewrite !filter_cons.
  destruct (decide (m ≠ n)), (decide (has_class c m = true));
    rewrite ?filter_cons; repeat case_decide; try done; by f_equal.
Qed.

Lemma last_position_lookup block l i :
  NoDup l → l !! i = Some block → last_position block l = Some i.
Proof.
  revert i. induction l as [|x l IH] using rev_ind; intros i Hnd Hi; [done|].
  rewrite last_position_snoc.
  apply NoDup_app in Hnd as (Hnd & Hx & _).
  destruct (decide (block = x)) as [->|Hne].
  - f_equal. destruct (decide (i < length l)) as [Hlt|Hge].
    + rewrite lookup_app_l in Hi by done.
      destruct (Hx x); [by eapply list_elem_of_lookup_2|apply list_elem_of_here].
    + apply lookup_lt_Some in Hi. rewrite length_app in Hi. cbn in Hi. lia.
  - apply IH; [done|].
    destruct (decide (i < length l)) as [Hlt|Hge].
    + by rewrite lookup_app_l in Hi.
    + rewrite lookup_app_r in Hi by lia.
      destruct (i - length l) as [|k]; cbn in Hi; [congruence|done].
Qed.

Lemma moved_spec before block blockBy l :
  block ≠ blockBy →
  moved before block blockBy l ≡ₚ block :: remove_node block l ∧
  remove_node block (moved before block blockBy l) = remove_node block l.
Proof.
  intros Hne. unfold moved, insertBefore, insertAfter.
  destruct (decide (block = blockBy)); [done|].
  destruct before.
  - split; [apply place_before_perm|].
    apply remove_node_place_before, remove_node_not_elem_of.
  - split; [apply place_after_perm|].
    apply remove_node_place_after, remove_node_not_elem_of.
Qed.

Lemma changeBlockPosition_after block selectedPosition e :
  after (changeBlockPosition block selectedPosition e) = e ∨
  ∃ blockBy,
    item_at (querySelectorAll "st-block" (wrapper e)) (selectedPosition - 1)
    = Some blockBy ∧
    getAttribute_id blockBy ≠ getAttribute_id block ∧
    after (changeBlockPosition block selectedPosition e)
    = set_wrapper (moved (js_gt (getBlockPosition block e) (selectedPosition - 1))
                     block blockBy (wrapper e)) e.
Proof.
  unfold changeBlockPosition. rewrite !bind_gets.
  destruct (item_at _ _) as [blockBy|] eqn:Hat; [|by left].
  destruct (decide (getAttribute_id blockBy ≠ getAttribute_id block)); [|by left].
  right. exists blockBy. split_and!; [done..|].
  rewrite after_bind. unfold moved. by destruct (js_gt _ _).
Qed.

End Moves.

Lemma changeBlockPosition_elements (block : Node) (selectedPosition : Z)
    (e : Editor) :
  NoDup (wrapper e) →
  NoDup (wrapper (after (changeBlockPosition block selectedPosition e))) ∧
  (block ∈ wrapper e →
   wrapper (after (changeBlockPosition block selectedPosition e)) ≡ₚ wrapper e) ∧
  remove_node block (wrapper (after (changeBlockPosition block selectedPosition e)))
  = remove_node block (wrapper e).
Proof.
  intros Hnd.
  destruct (changeBlockPosition_after block selectedPosition e)
    as [->|(blockBy & Hat & Hid & ->)]; [done|].
  cbn [wrapper set_wrapper].
  assert (Hne : block ≠ blockBy) by (intros ->; done).
  destruct (moved_spec (js_gt (getBlockPosition block e) (selectedPosition - 1))
              block blockBy (wrapper e) Hne) as [Hperm Hrem].
  split_and!; [|intros Hin|done].
  - rewrite Hperm. apply NoDup_cons. split; [apply remove_node_not_elem_of|].
    by apply NoDup_filter.
  - rewrite Hperm. by apply remove_node_perm.
Qed.

(** X6: [changeBlockPosition] neither loses nor duplicates an element of
    the wrapper: the children stay free of duplicates, they are a
    permutation of the former children when the block is one of them, and
    all elements other than the block keep their order. *)
Theorem changeBlockPosition_keeps_elements (block : Node) (selectedPosition : Z)
    (e : Editor) :
  NoDup (wrapper e) →
  NoDup (wrapper (after (changeBlockPosition block selectedPosition e))) ∧
  (block ∈ wrapper e →
   wrapper (after (changeBlockPosition block selectedPosition e)) ≡ₚ wrapper e) ∧
  remove_node block (wrapper (after (changeBlockPosition block selectedPosition e)))
  = remove_node block (wrapper e).
Proof. apply changeBlockPosition_elements. Qed.

Lemma changeBlockPosition_keeps_elements_witness :
  NoDup (wrapper Sample.editor) ∧
  remove_node Sample.text_node
    (wrapper (after (changeBlockPosition Sample.text_node 1 Sample.editor)))
  = remove_node Sample.text_node (wrapper Sample.editor).
Proof.
  assert (H : NoDup (wrapper Sample.editor)).
  { apply (bool_decide_unpack _). vm_compute. exact I. }
  split; [exact H|].
  apply (changeBlockPosition_keeps_elements Sample.text_node 1 Sample.editor H).
Defined.

Lemma item_at_lookup {A} (l : list A) (i : Z) (x : A) :
  item_at l i = Some x → (0 ≤ i)%Z ∧ l !! Z.to_nat i = Some x.
Proof.
  unfold item_at. destruct (decide (i < 0)%Z); [done|]. intros H. split; [lia|done].
Qed.

Lemma lookup_after_middle {A} (l1 l2 : list A) (x y : A) :
  (l1 ++ x :: y :: l2) !! S (length l1) = Some y.
Proof.
  change (l1 ++ x :: y :: l2) with (l1 ++ [x] ++ y :: l2).
  rewrite app_assoc.
  replace (S (length l1)) with (length (l1 ++ [x])); [apply list_lookup_middle; done|].
  rewrite length_app. cbn. lia.
Qed.

Lemma changeBlockPosition_moved block blockBy selectedPosition e :
  item_at (querySelectorAll "st-block" (wrapper e)) (selectedPosition - 1)
  = Some blockBy →
  getAttribute_id blockBy ≠ getAttribute_id block →
  after (changeBlockPosition block selectedPosition e)
  = set_wrapper (moved (js_gt (getBlockPosition block e) (selectedPosition - 1))
                   block blockBy (wrapper e)) e.
Proof.
  intros Hat Hid. unfold changeBlockPosition. rewrite !bind_gets, Hat.
  destruct (decide (getAttribute_id blockBy ≠ getAttribute_id block)); [|done].
  rewrite after_bind. unfold moved. by destruct (js_gt _ _).
Qed.

(** X7: when [changeBlockPosition] moves a block element of the wrapper
    (the slot [selectedPosition - 1] holds an element with another [id]),
    the block ends up at index [selectedPosition - 1] among the block
    elements, whatever its former index, and the other block elements keep
    their order. *)
Theorem changeBlockPosition_reaches_target (block blockBy : Node)
    (selectedPosition : Z) (e : Editor) :
  NoDup (wrapper e) →
  block ∈ querySelectorAll "st-block" (wrapper e) →
  item_at (querySelectorAll "st-block" (wrapper e)) (selectedPosition - 1)
  = Some blockBy →
  getAttribute_id blockBy ≠ getAttribute_id block →
  getBlockPosition block (after (changeBlockPosition block selectedPosition e))
  = Some (Z.to_nat (selectedPosition - 1)) ∧
  remove_node block
    (querySelectorAll "st-block"
       (wrapper (after (changeBlockPosition block selectedPosition e))))
  = remove_node block (querySelectorAll "st-block" (wrapper e)).
Proof.
  intros Hnd Hblock Hat Hid.
  destruct (changeBlockPosition_elements block selectedPosition e Hnd)
    as (Hnd' & _ & Hrem).
  rewrite (changeBlockPosition_moved block blockBy selectedPosition e Hat Hid) in *.
  cbn [wrapper set_wrapper] in *.
  set (items := querySelectorAll "st-block" (wrapper e)) in *.
  assert (Hne : block ≠ blockBy) by (intros ->; done).
  apply item_at_lookup in Hat as [Hpos Ht].
  set (t := Z.to_nat (selectedPosition - 1)) in *.
  assert (Hitems : NoDup items) by (by apply NoDup_filter).
  apply list_elem_of_lookup in Hblock as [p Hp].
  assert (Hpt : p ≠ t) by (intros ->; congruence).
  assert (Hcls : has_class "st-block" block = true ∧ has_class "st-block" blockBy = true).
  { split; [apply list_elem_of_lookup_2 in Hp|apply list_elem_of_lookup_2 in Ht];
      unfold items, querySelectorAll in *;
      match goal with H : _ ∈ filter _ _ |- _ => by apply list_elem_of_filter in H as [? _] end. }
  destruct Hcls as [Hcb Hcy].
  assert (Hby : blockBy ∈ remove_node block (wrapper e)).
  { apply list_elem_of_filter. split; [congruence|].
    apply list_elem_of_lookup_2 in Ht. unfold items, querySelectorAll in Ht.
    by apply list_elem_of_filter in Ht as [_ ?]. }
  (* the block elements without the block *)
  assert (Hrest : querySelectorAll "st-block" (remove_node block (wrapper e))
                  = delete p items).
  { rewrite querySelectorAll_remove_node. by apply remove_node_delete. }
  split.
  2:{ unfold items. rewrite <- 2!querySelectorAll_remove_node. by rewrite Hrem. }
  unfold getBlockPosition. cbn [wrapper set_wrapper].
  apply last_position_lookup; [by apply NoDup_filter|].
  fold items. rewrite (last_position_lookup block items p Hitems Hp).
  unfold js_gt, moved, insertBefore, insertAfter.
  destruct (decide (block = blockBy)); [done|].
  assert (Htz : Z.of_nat t = (selectedPosition - 1)%Z) by (unfold t; lia).
  clearbody t.
  destruct (bool_decide_reflect (selectedPosition - 1 < Z.of_nat p)%Z) as [Hlt|Hge].
  - destruct (place_before_split blockBy block _ Hby) as (l1 & l2 & H1 & H2 & ->).
    rewrite H1 in Hrest. unfold querySelectorAll in *.
    rewrite !filter_app, !filter_cons in *.
    destruct (decide (has_class "st-block" block = true)); [|done].
    destruct (decide (has_class "st-block" blockBy = true)); [|done].
    assert (Hlen : length (filter (λ n, has_class "st-block" n = true) l1) = t).
    { assert (Hd : delete p items !! t = Some blockBy).
      { rewrite list_lookup_delete_lt by lia. done. }
      rewrite <- Hrest in Hd.
      eapply NoDup_lookup; [|apply list_lookup_middle; reflexivity|exact Hd].
      rewrite Hrest. clear -Hitems.
      eapply sublist_NoDup; [|apply sublist_delete]; done. }
    by apply list_lookup_middle.
  - destruct (place_after_split blockBy block _ Hby) as (l1 & l2 & H1 & H2 & ->).
    rewrite H1 in Hrest. unfold querySelectorAll in *.
    rewrite !filter_app, !filter_cons in *.
    destruct (decide (has_class "st-block" block = true)); [|done].
    destruct (decide (has_class "st-block" blockBy = true)); [|done].
    assert (Hlen : S (length (filter (λ n, has_class "st-block" n = true) l1)) = t).
    { assert (Hd : delete p items !! (t - 1) = Some blockBy).
      { rewrite list_lookup_delete_ge by lia. replace (S (t - 1)) with t by lia. done. }
      rewrite <- Hrest in Hd.
      assert (length (filter (λ n, has_class "st-block" n = true) l1) = t - 1); [|lia].
      eapply NoDup_lookup; [|apply list_lookup_middle; reflexivity|exact Hd].
      rewrite Hrest. clear -Hitems.
      eapply sublist_NoDup; [|apply sublist_delete]; done. }
    rewrite <- Hlen. apply lookup_after_middle.
Qed.

Lemma changeBlockPosition_reaches_target_witness :
  getBlockPosition Sample.text_node
    (after (changeBlockPosition Sample.text_node 1 Sample.editor)) = Some 0.
Proof.
  assert (H : NoDup (wrapper Sample.editor)).
  { apply (bool_decide_unpack _). vm_compute. exact I. }
  apply (changeBlockPosition_reaches_target Sample.text_node Sample.image_node 1
           Sample.editor H).
  - apply list_elem_of_In. vm_compute. tauto.
  - reflexivity.
  - discriminate.
Defined.

(** X8: [changeBlockPosition] does nothing at all (no element moves, the
    controls and the format bar are not hidden) when [selectedPosition] is
    below 1 or above the number of block elements, and when it is the
    block's own position, that is its index plus one. *)
Theorem changeBlockPosition_noop (block : Node) (e : Editor) :
  (∀ selectedPosition,
     (selectedPosition < 1)%Z ∨
     (Z.of_nat (length (querySelectorAll "st-block" (wrapper e))) < selectedPosition)%Z →
     changeBlockPosition block selectedPosition e = MkOut () e []) ∧
  (∀ p, getBlockPosition block e = Some p →
     changeBlockPosition block (Z.of_nat p + 1) e = MkOut () e []).
Proof.
  split.
  - intros sp Hsp. unfold changeBlockPosition. rewrite !bind_gets.
    assert (Hat : item_at (querySelectorAll "st-block" (wrapper e)) (sp - 1) = None).
    { unfold item_at. destruct (decide (sp - 1 < 0)%Z); [done|].
      apply lookup_ge_None. lia. }
    by rewrite Hat.
  - intros p Hp. unfold changeBlockPosition. rewrite !bind_gets.
    apply last_position_Some in Hp.
    assert (Hat : item_at (querySelectorAll "st-block" (wrapper e)) (Z.of_nat p + 1 - 1)
                  = Some block).
    { unfold item_at. destruct (decide (Z.of_nat p + 1 - 1 < 0)%Z); [lia|].
      by replace (Z.to_nat (Z.of_nat p + 1 - 1)) with p by lia. }
    rewrite Hat.
    by destruct (decide (getAttribute_id block ≠ getAttribute_id block)).
Qed.

Lemma changeBlockPosition_noop_witness :
  getBlockPosition Sample.text_node Sample.editor = Some 1 ∧
  changeBlockPosition Sample.text_node 2 Sample.editor = MkOut () Sample.editor [] ∧
  changeBlockPosition Sample.text_node 0 Sample.editor = MkOut () Sample.editor [].
Proof.
  destruct (changeBlockPosition_noop Sample.text_node Sample.editor) as [H1 H2].
  split_and!.
  - reflexivity.
  - apply (H2 1). reflexivity.
  - apply (H1 0%Z). left. lia.
Defined.

(** X9: [getBlockPosition] and the list of block elements agree: in a
    wrapper without duplicates, the position of an element is [i] exactly
    when it is the block element of index [i], and in any wrapper it is
    undefined exactly when the element is not among the block elements. *)
Theorem getBlockPosition_lookup (block : Node) (e : Editor) :
  (NoDup (wrapper e) →
   ∀ i, getBlockPosition block e = Some i ↔
        querySelectorAll "st-block" (wrapper e) !! i = Some block) ∧
  (getBlockPosition block e = None ↔
   block ∉ querySelectorAll "st-block" (wrapper e)).
Proof.
  unfold getBlockPosition. split.
  - intros Hnd i. split; [apply last_position_Some|].
    apply last_position_lookup. by apply NoDup_filter.
  - split; [apply last_position_None|].
    intros Hn. destruct (last_position _ _) as [i|] eqn:Hi; [|done].
    apply last_position_Some in Hi. destruct Hn. by eapply list_elem_of_lookup_2.
Qed.

Lemma getBlockPosition_lookup_witness :
  getBlockPosition Sample.image_node Sample.editor = Some 0 ↔
  querySelectorAll "st-block" (wrapper Sample.editor) !! 0 = Some Sample.image_node.
Proof.
  apply (getBlockPosition_lookup Sample.image_node Sample.editor).
  apply (bool_decide_unpack _). vm_compute. exact I.
Defined.

(** * Further properties of the walks over live arrays *)

Lemma visited_live_length {A} (read : Editor → list A) (step : A → Editor → Editor)
    (todo : nat) : ∀ k e, length (visited_live read step todo k e) ≤ todo.
Proof.
  induction todo as [|todo IH]; intros k e; cbn [visited_live]; [done|].
  destruct (read e !! k).
  - cbn. specialize (IH (S k) (step a e)). lia.
  - specialize (IH (S k) e). lia.
Qed.

Lemma visited_live_grows {A} (read : Editor → list A) (step : A → Editor → Editor) :
  (∀ a e, read e `prefix_of` read (step a e)) →
  ∀ todo k e l0,
    l0 `prefix_of` read e → k + todo ≤ length l0 →
    visited_live read step todo k e = take todo (drop k l0).
Proof.
  intros Hgrow. induction todo as [|todo IH]; intros k e l0 Hpre Hlen; [done|].
  cbn [visited_live].
  destruct (lookup_lt_is_Some_2 l0 k) as [a Ha]; [lia|].
  rewrite (prefix_lookup_Some _ _ _ _ Ha Hpre).
  rewrite (IH (S k) (step a e) l0); [|by etrans|lia].
  by rewrite (drop_S _ _ _ Ha).
Qed.

(** X10: whatever the handlers of [block:remove] do to the registry,
    [destroy] triggers at most as many [block:remove] events as the
    collection had blocks when the walk started (blocks added meanwhile
    at the end are not visited), and it leaves the store empty. *)
Theorem destroy_is_bounded (E : Env) (e : Editor) :
  length (destroy_visits E e) ≤ length (bm_blocks (block_manager e)) ∧
  length (actions (destroy E e)) ≤ 8 + length (bm_blocks (block_manager e)) ∧
  store (after (destroy E e)) = [].
Proof.
  split_and!.
  - apply visited_live_length.
  - rewrite destroy_actions. unfold teardown.
    rewrite !length_app, length_fmap. cbn [length].
    pose proof (visited_live_length
                  (λ e0, deref (block_manager e0) (blocks (block_manager e)))
                  (λ b, deliver E "block:remove" (remove_args b))
                  (length (bm_blocks (block_manager e))) 0 e) as H.
    unfold destroy_visits. lia.
  - reflexivity.
Qed.

(** X11: entries that the handlers of [block:create] append to the store
    while [createBlocks] runs get no [block:create] of their own: as long
    as the handlers only append, the events are those of the entries the
    store had at the start, in order. *)
Theorem createBlocks_ignores_appended_entries (E : Env) (e : Editor) :
  (∀ args e', store e' `prefix_of` store (on_block_create E args e')) →
  store e ≠ [] →
  actions (createBlocks E e) = create_event <$> store e.
Proof.
  intros Hgrow Hne. unfold createBlocks. rewrite bind_gets.
  destruct (decide (0 < length (store e))) as [_|Hl].
  - rewrite (forEach_array_actions store _
               (λ block, deliver E "block:create"
                           [AValue (VStr (e_type block)); AJson (e_data block)])
               create_event) by reflexivity.
    rewrite (visited_live_grows store _) with (l0 := store e); [| |done|lia].
    + rewrite drop_0. by rewrite take_ge.
    + intros a e'. unfold deliver. cbn. apply Hgrow.
  - destruct (store e); [done|]. cbn in Hl. lia.
Qed.

Lemma createBlocks_ignores_appended_entries_witness :
  actions (createBlocks Demo.noting (set_store Sample.stored Sample.editor))
  = create_event <$> Sample.stored.
Proof.
  apply (createBlocks_ignores_appended_entries Demo.noting
           (set_store Sample.stored Sample.editor)).
  - intros args e'. by apply prefix_app_r.
  - discriminate.
Defined.

(** * Further properties of process *)

(** X12: when the deferred of one of the queued items outstanding at the
    call is rejected, before or after the call, the future returned by
    [process] is never resolved: no result of [getData] is ever
    delivered. *)
Theorem process_never_resolves_after_rejection (E : Env) (v : Value)
    (e0 : Editor) (s0 : gmap nat bool) (item : QueuedItem)
    (ls : list Label) (w : World) :
  item ∈ getBlockQueuedItems e0 →
  s0 !! deferred item = Some false ∨ Settle (deferred item) false ∈ ls →
  turns E (process v e0) ls (after_call e0 s0) = Some w →
  ∀ r, status w ≠ Resolved r.
Proof.
  intros Hitem Hrej Hrun r Hres.
  assert (Hfalse : settled w !! deferred item = Some false).
  { destruct Hrej as [H0|Hin].
    - by eapply turns_settled in Hrun as [? _].
    - by eapply turns_settle_outcome. }
  destruct (resolved_by_fire E (process v e0) ls (after_call e0 s0) w r)
    as (ls1 & ls2 & w1 & -> & Hrun1 & Hall & _); [done..|].
  apply turns_app in Hrun as (w1' & Hrun1' & Hrun2).
  rewrite Hrun1 in Hrun1'. injection Hrun1' as <-.
  assert (Htrue : settled w1 !! deferred item = Some true).
  { apply (all_resolved_spec (process v e0) w1); [done|].
    cbn [process awaits]. apply list_elem_of_fmap. by exists item. }
  eapply turns_settled in Hrun2 as [Hrun2 _]; [|exact Htrue].
  congruence.
Qed.

Lemma process_never_resolves_after_rejection_witness :
  ∃ w, turns Sample.strict (process VUndefined Sample.busy_editor)
         [Settle 7 false; Reject] (after_call Sample.busy_editor ∅) = Some w ∧
       status w = Failed ∧ ∀ r, status w ≠ Resolved r.
Proof.
  eexists. split; [vm_compute; reflexivity|]. split; [reflexivity|].
  apply (process_never_resolves_after_rejection Sample.strict VUndefined
           Sample.busy_editor ∅ {| q_name := "upload"; deferred := 7 |}
           [Settle 7 false; Reject]).
  - apply list_elem_of_here.
  - right. apply list_elem_of_here.
  - vm_compute. reflexivity.
Defined.

(** * Properties of removeBlockDragOver *)

Lemma has_class_classList_remove c d n :
  has_class c (classList_remove d n) = if decide (c = d) then false else has_class c n.
Proof.
  unfold has_class, classList_remove. cbn [classes].
  destruct (decide (c = d)) as [->|Hne].
  - apply bool_decide_eq_false. rewrite list_elem_of_filter. by intros [? _].
  - apply bool_decide_ext. rewrite list_elem_of_filter.
    split; [by intros [_ ?]|]. intros Hc. by split.
Qed.

Lemma removeBlockDragOver_Some below below' :
  removeBlockDragOver below = Some below' →
  ∃ i n, below !! i = Some n ∧ has_class "st-drag-over" n = true ∧
         querySelectorAll "st-drag-over" (take i below) = [] ∧
         below' = <[i := classList_remove "st-drag-over" n]> below.
Proof.
  unfold removeBlockDragOver, querySelector.
  destruct (list_find _ _) as [[i n]|] eqn:Hfind; [|done].
  intros [= <-]. apply list_find_Some in Hfind as (Hi & Hn & Hfirst).
  exists i, n. split_and!; try done.
  apply filter_none. intros m Hm Hc.
  apply list_elem_of_lookup in Hm as [j Hj].
  apply lookup_take_Some in Hj as [Hj Hlt]. by apply (Hfirst j m).
Qed.

Lemma removeBlockDragOver_first (below : list Node) :
  (removeBlockDragOver below = None ↔ querySelectorAll "st-drag-over" below = []) ∧
  (∀ below', removeBlockDragOver below = Some below' →
     querySelectorAll "st-drag-over" below'
     = tail (querySelectorAll "st-drag-over" below) ∧
     length below' = length below ∧
     ∀ i n', below' !! i = Some n' →
       ∃ n, below !! i = Some n ∧ key n' = key n ∧ node_id n' = node_id n ∧
            ∀ c, c ≠ "st-drag-over" → has_class c n' = has_class c n).
Proof.
  split.
  - unfold removeBlockDragOver, querySelector. split.
    + destruct (list_find _ _) as [[i n]|] eqn:Hfind; [done|]. intros _.
      apply list_find_None in Hfind. apply filter_none.
      intros m Hm. by apply (proj1 (Forall_forall _ _) Hfind).
    + intros Hnone. destruct (list_find _ _) as [[i n]|] eqn:Hfind; [|done].
      apply list_find_Some in Hfind as (Hi & Hn & _).
      assert (Hin : n ∈ querySelectorAll "st-drag-over" below).
      { apply list_elem_of_filter. split; [done|]. by eapply list_elem_of_lookup_2. }
      rewrite Hnone in Hin. by apply elem_of_nil in Hin.
  - intros below' Hsome.
    apply removeBlockDragOver_Some in Hsome as (i & n & Hi & Hn & Hfirst & ->).
    split_and!.
    + rewrite <- (take_drop_middle below i n Hi) at 2.
      rewrite insert_take_drop by (by eapply lookup_lt_Some).
      unfold querySelectorAll in *. rewrite !filter_app, !filter_cons, Hfirst.
      rewrite has_class_classList_remove.
      destruct (decide ("st-drag-over" = "st-drag-over")); [|done].
      destruct (decide (false = true)); [done|].
      by destruct (decide (has_class "st-drag-over" n = true)).
    + apply length_insert.
    + intros j n' Hj. destruct (decide (i = j)) as [<-|Hne].
      * rewrite list_lookup_insert_eq in Hj by (by eapply lookup_lt_Some).
        injection Hj as <-. exists n. split_and!; try done.
        intros c Hc. rewrite has_class_classList_remove.
        by destruct (decide (c = "st-drag-over")).
      * rewrite list_lookup_insert_ne in Hj by done. by exists n'.
Qed.

(** X13: [removeBlockDragOver] throws exactly when no element below the
    outer element has the class [st-drag-over]; otherwise it takes the
    class off the first such element and off no other: the elements that
    still have it are the former ones but the first, and no element
    changes in any other class, in its [id] or in its place. *)
Theorem removeBlockDragOver_clears_first (below : list Node) :
  (removeBlockDragOver below = None ↔ querySelectorAll "st-drag-over" below = []) ∧
  (∀ below', removeBlockDragOver below = Some below' →
     querySelectorAll "st-drag-over" below'
     = tail (querySelectorAll "st-drag-over" below) ∧
     length below' = length below ∧
     ∀ i n', below' !! i = Some n' →
       ∃ n, below !! i = Some n ∧ key n' = key n ∧ node_id n' = node_id n ∧
            ∀ c, c ≠ "st-drag-over" → has_class c n' = has_class c n).
Proof. apply removeBlockDragOver_first. Qed.

(** X14: the handler can run without throwing exactly as many times in a
    row as there are elements with the class [st-drag-over]: with one such
    element, the call for [block:reorder:dropped] succeeds and a following
    call for [block:reorder:dragend] throws. *)
Theorem removeBlockDragOver_times_succeeds (k : nat) (below : list Node) :
  is_Some (removeBlockDragOver_times k below) ↔
  k ≤ length (querySelectorAll "st-drag-over" below).
Proof.
  revert below. induction k as [|k IH]; intros below; cbn [removeBlockDragOver_times].
  - split; [lia|]. by eexists.
  - destruct (removeBlockDragOver_first below) as [Hnone Hsome].
    destruct (removeBlockDragOver below) as [below'|] eqn:Hr.
    + destruct (Hsome below' eq_refl) as (Htail & _).
      rewrite IH, Htail.
      destruct (querySelectorAll "st-drag-over" below) as [|m ms] eqn:Hq.
      * destruct Hnone as [_ Hnone]. by specialize (Hnone eq_refl).
      * cbn. lia.
    + destruct Hnone as [Hnone _]. rewrite (Hnone eq_refl). cbn.
      split; [by intros [? ?]|lia].
Qed.

(** * Properties of renderBlock *)

Lemma lift_out {A} (m : M A) (i : Instance) (e : Editor) :
  parts i = Some e →
  lift m i = MkLOut (Some (result (m e))) (set_parts (Some (after (m e))) i)
                    (Did <$> actions (m e)).
Proof. intros H. unfold lift. by rewrite H. Qed.

Lemma lbind_out {A B} (m : L A) (k : A → L B) i a i' s :
  m i = MkLOut (Some a) i' s →
  lbind m k i = MkLOut (returned (k a i')) (left_ (k a i')) (s ++ steps (k a i')).
Proof. intros H. unfold lbind. by rewrite H. Qed.

Lemma lbind_throw {A B} (m : L A) (k : A → L B) i i' s :
  m i = MkLOut None i' s → lbind m k i = MkLOut None i' s.
Proof. intros H. unfold lbind. by rewrite H. Qed.

Lemma take_drop_after {A} (l1 l2 : list A) (c x : A) :
  take (S (length l1)) (l1 ++ c :: l2) ++ x :: drop (S (length l1)) (l1 ++ c :: l2)
  = l1 ++ c :: x :: l2.
Proof.
  induction l1 as [|y l1 IH]; cbn; [by rewrite take_0, drop_0|].
  f_equal. apply IH.
Qed.

Lemma renderBlock_out currentContainer block rendered i e :
  parts i = Some e →
  renderBlock currentContainer block rendered i
  = MkLOut (Some ())
      (set_parts (Some (after (_renderInPosition currentContainer rendered e))) i)
      [BlockRender (Block.blockID block); Did BlockControlsHide; Did FormatBarHide;
       BlockTrigger (Block.blockID block) "onRender"].
Proof.
  intros Hp. unfold renderBlock.
  erewrite lbind_out by reflexivity. cbn [returned left_ steps].
  erewrite (lbind_out (lift (_renderInPosition _ _))) by (by apply lift_out).
  erewrite (lbind_out (lift hideAllTheThings)) by (by apply lift_out).
  cbn. by destruct currentContainer as [[c parented]|].
Qed.

(** X15: [renderBlock] renders the block, places the element, hides the
    block controls and the format bar and tells the block [onRender] last.
    A new element (one that is not in the wrapper yet) becomes the last
    child of the wrapper when the block controls have no current
    container.  When they have one that is a child of the wrapper, a block
    element or not, the new element becomes its next sibling: among the
    block elements it comes after those up to the container and before
    those that follow it.  When the container is no child of the wrapper,
    the new element does not enter the wrapper. *)
Theorem renderBlock_position (currentContainer : option (Node * bool))
    (block : Block.t) (rendered : Node) (i : Instance) (e : Editor) :
  parts i = Some e →
  NoDup (wrapper e) →
  rendered ∉ wrapper e →
  has_class "st-block" rendered = true →
  let o := renderBlock currentContainer block rendered i in
  returned o = Some () ∧
  steps o = [BlockRender (Block.blockID block); Did BlockControlsHide;
             Did FormatBarHide; BlockTrigger (Block.blockID block) "onRender"] ∧
  ∃ e', parts (left_ o) = Some e' ∧
        store e' = store e ∧ block_manager e' = block_manager e ∧
        match currentContainer with
        | None =>
            wrapper e' = wrapper e ++ [rendered] ∧
            querySelectorAll "st-block" (wrapper e')
            = querySelectorAll "st-block" (wrapper e) ++ [rendered]
        | Some (c, parented) =>
            (∀ l1 l2, wrapper e = l1 ++ c :: l2 →
               wrapper e' = l1 ++ c :: rendered :: l2 ∧
               querySelectorAll "st-block" (wrapper e')
               = querySelectorAll "st-block" (l1 ++ [c])
                 ++ rendered :: querySelectorAll "st-block" l2) ∧
            (c ∉ wrapper e → wrapper e' = wrapper e)
        end.
Proof.
  intros Hp Hnd Hnew Hcls. cbn zeta.
  rewrite (renderBlock_out _ _ _ _ _ Hp). cbn [returned steps left_].
  split_and!; [done..|].
  eexists. split; [reflexivity|].
  destruct currentContainer as [[c parented]|]; cbn [_renderInPosition modify after];
    (split; [reflexivity|]; split; [reflexivity|]); cbn [wrapper set_wrapper].
  - unfold insertAdjacentElement_afterend. rewrite (remove_node_id _ _ Hnew). split.
    + intros l1 l2 Hw.
      assert (Hcw : c ∈ wrapper e).
      { rewrite Hw. apply elem_of_app. right. apply list_elem_of_here. }
      destruct (decide (c ∈ wrapper e)); [|done].
      destruct (decide (rendered = c)) as [->|_]; [done|].
      destruct (place_after_split c rendered _ Hcw) as (k1 & k2 & Hw' & Hk1 & ->).
      assert (Hl1 : c ∉ l1).
      { rewrite Hw in Hnd. apply NoDup_app in Hnd as (_ & Hd & _).
        intros Hin. apply (Hd c Hin), list_elem_of_here. }
      assert (Hsame : k1 = l1 ∧ k2 = l2).
      { rewrite Hw in Hw'. clear -Hw' Hk1 Hl1.
        revert k1 Hw' Hk1. induction l1 as [|x l1 IH]; intros [|y k1] Heq Hk1.
        - by injection Heq as ->.
        - injection Heq as -> _. destruct Hk1. apply list_elem_of_here.
        - injection Heq as -> _. destruct Hl1. apply list_elem_of_here.
        - injection Heq as -> Heq.
          destruct (IH (λ H, Hl1 (list_elem_of_further _ _ _ H)) k1 Heq
                       (λ H, Hk1 (list_elem_of_further _ _ _ H))) as [-> ->].
          done. }
      destruct Hsame as [-> ->]. split; [reflexivity|].
      unfold querySelectorAll. rewrite !filter_app, !filter_cons, filter_nil.
      destruct (decide (has_class "st-block" rendered = true)); [|done].
      destruct (decide (has_class "st-block" c = true));
        by rewrite <- ?app_assoc.
    + intros Hc. destruct (decide (c ∈ wrapper e)); [done|].
      by destruct parented.
  - unfold appendChild. rewrite (remove_node_id _ _ Hnew). split; [reflexivity|].
    unfold querySelectorAll. rewrite filter_app, filter_cons.
    destruct (decide (has_class "st-block" rendered = true)); done.
Qed.

(** With the top controls of the sample editor as the container, which
    are a child of the wrapper and no block element, the new block
    element comes first among the block elements. *)
Lemma renderBlock_position_witness :
  ∃ e', parts (left_ (renderBlock (Some (Sample.controls_node, true)) Demo.quote_block
                        Demo.quote_node Demo.instance)) = Some e' ∧
        wrapper e' = [Sample.controls_node; Demo.quote_node;
                      Sample.image_node; Sample.text_node] ∧
        querySelectorAll "st-block" (wrapper e')
        = [Demo.quote_node; Sample.image_node; Sample.text_node].
Proof.
  assert (Hnd : NoDup (wrapper Demo.editor)).
  { apply (bool_decide_unpack _). vm_compute. exact I. }
  assert (Hnew : Demo.quote_node ∉ wrapper Demo.editor).
  { apply (bool_decide_unpack _). vm_compute. exact I. }
  destruct (renderBlock_position (Some (Sample.controls_node, true)) Demo.quote_block
              Demo.quote_node Demo.instance Demo.editor eq_refl Hnd Hnew eq_refl)
    as (_ & _ & e' & He' & _ & _ & Hpos & _).
  exists e'. split; [exact He'|].
  apply (Hpos [] [Sample.image_node; Sample.text_node]). reflexivity.
Defined.

Lemma blocks_in_dom_order_append e n b :
  has_class "st-block" n = true →
  findBlockById (getAttribute_id n) e = Some b →
  blocks_in_dom_order (set_wrapper (wrapper e ++ [n]) e) = blocks_in_dom_order e ++ [b].
Proof.
  intros Hc Hb. unfold blocks_in_dom_order, querySelectorAll.
  cbn [wrapper set_wrapper]. rewrite filter_app, filter_cons.
  destruct (decide (has_class "st-block" n = true)); [|done].
  rewrite omap_app. f_equal. cbn. unfold findBlockById in *.
  cbn [block_manager set_wrapper]. by rewrite Hb.
Qed.

Lemma saved_app E sv bs1 bs2 : saved E sv (bs1 ++ bs2) = saved E sv bs1 ++ saved E sv bs2.
Proof. unfold saved. by rewrite filter_app, fmap_app. Qed.

Lemma render_all_dom_order (blocks : list (Block.t * Node)) : ∀ i e,
  parts i = Some e →
  NoDup (blocks.*2) →
  (∀ b n, (b, n) ∈ blocks →
          (n ∉ wrapper e) ∧ has_class "st-block" n = true ∧
          findBlockById (getAttribute_id n) e = Some b) →
  returned (render_all blocks i) = Some () ∧
  ∃ e', parts (left_ (render_all blocks i)) = Some e' ∧
        block_manager e' = block_manager e ∧
        blocks_in_dom_order e' = blocks_in_dom_order e ++ blocks.*1.
Proof.
  induction blocks as [|[b n] blocks IH]; intros i e Hp Hnd Hall.
  - cbn. split; [done|]. exists e. by rewrite app_nil_r.
  - cbn [render_all fst snd].
    erewrite lbind_out by (by apply renderBlock_out).
    cbn [returned left_ steps _renderInPosition modify after].
    destruct (Hall b n) as (Hn & Hc & Hb); [apply list_elem_of_here|].
    unfold appendChild. rewrite (remove_node_id _ _ Hn).
    apply NoDup_cons in Hnd as [Hn' Hnd].
    destruct (IH (set_parts (Some (set_wrapper (wrapper e ++ [n]) e)) i)
                 (set_wrapper (wrapper e ++ [n]) e) eq_refl Hnd)
      as (Hret & e' & He' & Hbm & Hdo).
    { intros b' n' Hin. destruct (Hall b' n') as (H1 & H2 & H3);
        [by apply list_elem_of_further|].
      split_and!; [|done..]. cbn [wrapper set_wrapper].
      rewrite not_elem_of_app, not_elem_of_cons. split_and!; [done| |apply not_elem_of_nil].
      intros ->. apply Hn'. apply list_elem_of_fmap. by exists (b', n). }
    split; [done|]. exists e'. split_and!; [done..|].
    rewrite Hdo, (blocks_in_dom_order_append e n b Hc Hb).
    by rewrite <- app_assoc.
Qed.

(** X16: blocks rendered one after the other while the block controls have
    no current container are serialised in the order they were rendered,
    after the blocks that were there: the elements resolve to the blocks in
    that order, and the next pass saves the records of the new blocks that
    pass, in that order, after the records it would have saved before. *)
Theorem render_all_then_getData (E : Env) (blocks : list (Block.t * Node))
    (i : Instance) (e : Editor) :
  parts i = Some e →
  NoDup (blocks.*2) →
  (∀ b n, (b, n) ∈ blocks →
          (n ∉ wrapper e) ∧ has_class "st-block" n = true ∧
          findBlockById (getAttribute_id n) e = Some b) →
  ∃ e', parts (left_ (render_all blocks i)) = Some e' ∧
        blocks_in_dom_order e' = blocks_in_dom_order e ++ blocks.*1 ∧
        ∀ v, store (after (getData E v e'))
             = store (after (getData E v e))
               ++ saved E (as_shouldValidate v) (blocks.*1).
Proof.
  intros Hp Hnd Hall.
  destruct (render_all_dom_order blocks i e Hp Hnd Hall) as (_ & e' & He' & Hbm & Hdo).
  exists e'. split_and!; [done..|].
  intros v.
  destruct (getData_spec E v e) as (_ & -> & _).
  destruct (getData_spec E v e') as (_ & -> & _).
  cbn [store set_store set_errors]. by rewrite Hdo, saved_app.
Qed.

Lemma render_all_then_getData_witness :
  ∃ e', parts (left_ (render_all [(Demo.quote_block, Demo.quote_node)] Demo.instance))
        = Some e' ∧
        blocks_in_dom_order e'
        = [Sample.image_block; Sample.text_block; Demo.quote_block].
Proof.
  destruct (render_all_then_getData Sample.strict
              [(Demo.quote_block, Demo.quote_node)] Demo.instance Demo.editor eq_refl)
    as (e' & He' & Hdo & _).
  - apply (bool_decide_unpack _). vm_compute. exact I.
  - intros b n Hin. apply list_elem_of_singleton in Hin. injection Hin as -> ->.
    split_and!; [|reflexivity..].
    apply (bool_decide_unpack _). vm_compute. exact I.
  - exists e'. split; [exact He'|exact Hdo].
Defined.

(** * Properties of initialize and reinitialize *)

Section LifeFacts.

Variable U : Setup.

Lemma lbind_lgets {A B} (f : Instance → A) (k : A → L B) i :
  lbind (lgets f) k i = k (f i) i.
Proof. unfold lbind, lgets; cbn. by destruct (k (f i) i). Qed.

Lemma lout_eq {A} (o1 o2 : LOut A) :
  returned o1 = returned o2 → left_ o1 = left_ o2 → steps o1 = steps o2 → o1 = o2.
Proof. destruct o1, o2; cbn. by intros -> -> ->. Qed.

Lemma _ensureAndSetElements_ok i m :
  prop "el" (options i) = OElement m →
  _ensureAndSetElements i
  = MkLOut (Some true) (set_el (OElement m) i)
      [DomCreateElement "div" [("class", "st-outer notranslate");
                               ("dropzone", "copy link move")];
       DomCreateElement "div" [("class", "st-blocks")];
       DomWrapEl; DomWrapInWrapper].
Proof.
  intros Hel. unfold _ensureAndSetElements. rewrite lbind_lgets, Hel. reflexivity.
Qed.

Lemma _ensureAndSetElements_undefined i :
  isUndefined (prop "el" (options i)) = true →
  _ensureAndSetElements i
  = MkLOut (Some false) i [Did (Log "You must provide an el")].
Proof.
  intros Hel. unfold _ensureAndSetElements. rewrite lbind_lgets, Hel. reflexivity.
Qed.

Lemma build_out i :
  let e0 := set_wrapper (insert_first (fl_block_controls_el U) (wrapped U))
              (constructed U (options i)) in
  let c := createBlocks (pipeline U) e0 in
  build U i
  = MkLOut (Some ())
      (set_parts (Some (after c))
         (set_dataStore (Some "Please use store.retrieve();") i))
      ([ DomHideEl;
         NewErrorHandler; NewEditorStore (prop "data" (options i)); NewBlockManager;
         NewBlockControls; NewFloatingBlockControls; NewFormatBar;
         MediatorOn "block:changePosition" "changeBlockPosition";
         MediatorOn "block-controls:reset" "resetBlockControls";
         MediatorOn "block:limitReached" "blockLimitReached";
         MediatorOn "block:render" "renderBlock";
         EventBusOn "block:reorder:dragend" "removeBlockDragOver";
         EventBusOn "block:reorder:dropped" "removeBlockDragOver";
         EventBusOn "block:content:dropped" "removeBlockDragOver";
         FlBlockControlsRender; BlockControlsRender; OuterAppendChild;
         WindowAddClickListener ]
       ++ (Did <$> actions c)
       ++ [WrapperClassListAdd "st-ready"]
       ++ match onEditorRender i with
          | Some f => [CallOnEditorRender f]
          | None => []
          end).
Proof.
  cbn zeta. unfold build.
  apply lout_eq.
  - cbn. by destruct (onEditorRender i).
  - cbn. by destruct (onEditorRender i).
  - cbn. destruct (onEditorRender i); cbn; by rewrite ?app_nil_r.
Qed.

Lemma lbind_then {A B} (m : L A) (k : A → L B) i a i' s :
  m i = MkLOut (Some a) i' s → lbind m k i = after_steps s (k a i').
Proof. intros H. unfold lbind, after_steps. by rewrite H. Qed.

Lemma after_steps_out {A} (s : list Step) (r : option A) j st :
  after_steps s (MkLOut r j st) = MkLOut r j (s ++ st).
Proof. reflexivity. Qed.

Lemma after_steps_after_steps {A} (s1 s2 : list Step) (o : LOut A) :
  after_steps s1 (after_steps s2 o) = after_steps (s1 ++ s2) o.
Proof. unfold after_steps. cbn. by rewrite app_assoc. Qed.

Lemma prop_insert k v (o : gmap string OVal) : prop k (<[k := v]> o) = v.
Proof. unfold prop. by rewrite lookup_insert_eq. Qed.

Lemma prop_insert_ne k k' v (o : gmap string OVal) :
  k ≠ k' → prop k' (<[k := v]> o) = prop k' o.
Proof. intros H. unfold prop. by rewrite lookup_insert_ne. Qed.

Lemma initialize_ok given i m :
  prop "el" (merged U given) = OElement m →
  initialize U given i
  = MkLOut (Some RUndefined) (initialized U given i m) (initialize_steps U given i m).
Proof.
  intros Hel. unfold initialize.
  erewrite lbind_then by reflexivity.
  erewrite lbind_then by reflexivity.
  erewrite (lbind_then _ensureAndSetElements)
    by (apply _ensureAndSetElements_ok; exact Hel).
  cbn [negb]. rewrite !lbind_lgets. cbn [options el set_el set_options].
  fold (merged U given).
  assert (Hdata : ∀ j, (if truthy (prop "data" (merged U given))
                        then lret (prop "data" (merged U given))
                        else match value_of (OElement m) with
                             | Some v => lret (OV v)
                             | None => lthrow
                             end) j
                       = MkLOut (Some (initial_data U given m)) j []).
  { intros j. unfold initial_data. by destruct (truthy _). }
  erewrite lbind_then by apply Hdata.
  erewrite lbind_then by reflexivity.
  assert (Hcb : ∀ j, match prop "onEditorRender" (merged U given) with
                     | OFunction f => lmodify (set_onEditorRender (Some f))
                     | _ => lret ()
                     end j
                     = MkLOut (Some ())
                         (set_onEditorRender
                            (match prop "onEditorRender" (merged U given) with
                             | OFunction f => Some f
                             | _ => onEditorRender j
                             end) j) []).
  { intros j. destruct (prop "onEditorRender" _); try by destruct j. }
  erewrite lbind_then by apply Hcb.
  erewrite lbind_then by reflexivity.
  erewrite lbind_then by reflexivity.
  erewrite (lbind_then (build U)) by apply build_out.
  rewrite !lbind_lgets.
  cbn [options onEditorRender formEvents set_parts set_dataStore set_onEditorRender
       set_options set_el].
  fold (final_options U given m) (render_callback U given i)
       (parts_before_blocks U given m) (makes_formEvents U given i m).
  assert (Hfe : ∀ j, (if makes_formEvents U given i m
                      then exec call NewFormEvents; lmodify (set_formEvents true)
                      else lret ()) j
                     = MkLOut (Some ())
                         (set_formEvents (formEvents j || makes_formEvents U given i m) j)
                         (if makes_formEvents U given i m then [NewFormEvents] else [])).
  { intros j. destruct (makes_formEvents _ _ _ _).
    - rewrite orb_true_r. reflexivity.
    - rewrite orb_false_r. by destruct j. }
  erewrite lbind_then by apply Hfe.
  erewrite (lbind_then (lift _)) by (by apply lift_out).
  unfold lret. rewrite !after_steps_out.
  apply lout_eq; cbn [returned left_ steps]; [reflexivity| |].
  - rewrite trigger_out. reflexivity.
  - rewrite trigger_out. cbn [actions fmap list_fmap].
    unfold initialize_steps.
    assert (Hpd : prop "data" (final_options U given m) = initial_data U given m)
      by apply prop_insert.
    rewrite Hpd.
    destruct (render_callback U given i), (makes_formEvents U given i m);
      rewrite ?app_nil_r; cbn [app]; rewrite <- ?app_assoc; cbn [app]; reflexivity.
Qed.

(** Options that went through [initialize] have every key of the
    defaults: merging them over the defaults again changes nothing. *)
Lemma merged_final_options given m :
  Object_assign (config_defaults U) (final_options U given m) = final_options U given m.
Proof.
  unfold Object_assign, final_options, merged, Object_assign.
  apply map_eq. intros k. rewrite lookup_union.
  destruct (decide (k = "data")) as [->|Hne].
  - rewrite lookup_insert_eq. by destruct (config_defaults U !! "data").
  - rewrite lookup_insert_ne by done. rewrite lookup_union.
    destruct (default ∅ given !! k), (config_defaults U !! k); done.
Qed.

Lemma reinitialize_out given i e :
  parts i = Some e →
  reinitialize U given i
  = let o := initialize U (Some (default (options i) given))
               (set_parts (Some (after (destroy (pipeline U) e))) i) in
    MkLOut (match returned o with Some _ => Some () | None => None end)
           (left_ o)
           ((Did <$> actions (destroy (pipeline U) e)) ++ steps o).
Proof.
  intros Hp. unfold reinitialize.
  erewrite (lbind_then (lift _)) by (by apply lift_out).
  rewrite lbind_lgets. cbn [options set_parts]. cbn zeta.
  unfold lbind, after_steps.
  destruct (initialize U _ _) as [[r|] j st]; cbn [returned left_ steps lret];
    by rewrite ?app_nil_r.
Qed.

End LifeFacts.

Ltac step_cases H :=
  repeat (apply elem_of_cons in H; destruct H as [H|H]; [try discriminate H|]);
  try (apply elem_of_nil in H; destruct H).

Lemma initialize_failed (U : Setup) (given : option (gmap string OVal))
    (i : Instance) :
  isUndefined (prop "el" (merged U given)) = true →
  initialize U given i
  = MkLOut (Some RFalse) (set_options (merged U given) i)
      [Did (Log "Init SirTrevor.Editor"); Did (Log "You must provide an el")].
Proof.
  intros Hel. unfold initialize.
  erewrite lbind_out by reflexivity.
  erewrite lbind_out by reflexivity.
  erewrite (lbind_out _ensureAndSetElements)
    by (apply _ensureAndSetElements_undefined; exact Hel).
  reflexivity.
Qed.

(** X17: without a mount element ([options.el] undefined after the
    defaults are merged in) [initialize] returns [false] after two log
    lines: it creates no element, constructs no component, subscribes to
    and triggers nothing, and changes nothing of the instance but its
    options. *)
Theorem initialize_without_el (U : Setup) (given : option (gmap string OVal))
    (i : Instance) :
  isUndefined (prop "el" (merged U given)) = true →
  initialize U given i
  = MkLOut (Some RFalse) (set_options (merged U given) i)
      [Did (Log "Init SirTrevor.Editor"); Did (Log "You must provide an el")].
Proof. apply initialize_failed. Qed.

(** X18: with a mount element [initialize] succeeds (it returns
    [undefined]) and makes its calls in this order: the two wrappers are
    created and put around the element, the mediator is made, the element
    is hidden, the six components are constructed (the store from the
    initial data), the four mediator and three EventBus subscriptions are
    made, the controls are rendered, [createBlocks] runs, the wrapper
    becomes [st-ready], the render callback is called if the instance has
    one, the form events are constructed if asked for and not there yet,
    and [initialize] is triggered last. *)
Theorem initialize_builds_in_order (U : Setup) (given : option (gmap string OVal))
    (i : Instance) (m : Element) :
  prop "el" (merged U given) = OElement m →
  returned (initialize U given i) = Some RUndefined ∧
  steps (initialize U given i) = initialize_steps U given i m ∧
  last (steps (initialize U given i)) = Some (Did (Trigger "initialize" [])) ∧
  parts (left_ (initialize U given i))
  = Some (after (createBlocks (pipeline U) (parts_before_blocks U given m))).
Proof.
  intros Hel. rewrite (initialize_ok U given i m Hel). cbn [returned steps left_].
  split_and!; [done..| |done].
  unfold initialize_steps. rewrite !app_assoc. apply last_snoc.
Qed.

(** X19: the data the editor starts from is [options.data] when that is
    truthy and the [value] of the mount element otherwise; it is what the
    options hold afterwards, what the store is constructed with, and the
    entries of that store are what [createBlocks] starts from. *)
Theorem initialize_data (U : Setup) (given : option (gmap string OVal))
    (i : Instance) (m : Element) :
  prop "el" (merged U given) = OElement m →
  let o := initialize U given i in
  let data := if truthy (prop "data" (merged U given))
              then prop "data" (merged U given) else OV (el_value m) in
  prop "data" (options (left_ o)) = data ∧
  (∀ k, k ≠ "data" → prop k (options (left_ o)) = prop k (merged U given)) ∧
  (∀ d, NewEditorStore d ∈ steps o ↔ d = data) ∧
  store (parts_before_blocks U given m) = EditorStore_data U data.
Proof.
  intros Hel. cbn zeta. rewrite (initialize_ok U given i m Hel).
  cbn [returned steps left_ options initialized].
  fold (initial_data U given m).
  split_and!.
  - unfold final_options. apply prop_insert.
  - intros k Hk. unfold final_options. by apply prop_insert_ne.
  - intros d. unfold initialize_steps. split.
    + intros H. rewrite !elem_of_app in H.
      destruct H as [H|[H|[H|[H|[H|H]]]]].
      * step_cases H. by injection H.
      * apply list_elem_of_fmap in H as (? & ? & _). discriminate.
      * step_cases H.
      * destruct (render_callback U given i); step_cases H.
      * destruct (makes_formEvents U given i m); step_cases H.
      * step_cases H.
    + intros ->. apply elem_of_app. left.
      apply list_elem_of_In. cbn. tauto.
  - unfold parts_before_blocks, constructed, final_options. cbn [store set_wrapper].
    by rewrite prop_insert.
Qed.

Lemma initialize_without_el_witness :
  initialize Demo.setup None blank
  = MkLOut (Some RFalse) (set_options Demo.defaults blank)
      [Did (Log "Init SirTrevor.Editor"); Did (Log "You must provide an el")].
Proof.
  apply (initialize_without_el Demo.setup None blank). vm_compute. reflexivity.
Defined.

Lemma initialize_builds_in_order_witness :
  returned (new_Editor Demo.setup Demo.given) = Some RUndefined ∧
  steps (new_Editor Demo.setup Demo.given)
  = initialize_steps Demo.setup Demo.given blank Demo.mount.
Proof.
  destruct (initialize_builds_in_order Demo.setup Demo.given blank Demo.mount)
    as (H1 & H2 & _); [vm_compute; reflexivity|].
  split; [exact H1|exact H2].
Defined.

Lemma initialize_data_witness :
  prop "data" (options (left_ (new_Editor Demo.setup Demo.given)))
  = OV (VStr "saved content").
Proof.
  destruct (initialize_data Demo.setup Demo.given blank Demo.mount) as (H & _);
    [vm_compute; reflexivity|].
  exact H.
Defined.

(** The calls of the sample editor's construction. *)
Example new_Editor_steps :
  steps (new_Editor Demo.setup Demo.given)
  = [ Did (Log "Init SirTrevor.Editor");
      DomCreateElement "div" [("class", "st-outer notranslate");
                              ("dropzone", "copy link move")];
      DomCreateElement "div" [("class", "st-blocks")];
      DomWrapEl; DomWrapInWrapper; NewMediator; BindFunctions; DomHideEl;
      NewErrorHandler; NewEditorStore (OV (VStr "saved content")); NewBlockManager;
      NewBlockControls; NewFloatingBlockControls; NewFormatBar;
      MediatorOn "block:changePosition" "changeBlockPosition";
      MediatorOn "block-controls:reset" "resetBlockControls";
      MediatorOn "block:limitReached" "blockLimitReached";
      MediatorOn "block:render" "renderBlock";
      EventBusOn "block:reorder:dragend" "removeBlockDragOver";
      EventBusOn "block:reorder:dropped" "removeBlockDragOver";
      EventBusOn "block:content:dropped" "removeBlockDragOver";
      FlBlockControlsRender; BlockControlsRender; OuterAppendChild;
      WindowAddClickListener;
      Did (Trigger "block:create"
             [AValue (VStr "text"); AJson (JObj [("text", JStr "Hello")])]);
      Did (Trigger "block:create" [AValue (VStr "image"); AJson empty_object]);
      WrapperClassListAdd "st-ready";
      CallOnEditorRender 1;
      NewFormEvents;
      Did (Trigger "initialize" []) ].
Proof. vm_compute. reflexivity. Qed.

Lemma elem_of_initialize_steps (U : Setup) given i m (s : Step) :
  (∀ a, s ≠ Did a) →
  (∀ t attrs, s ≠ DomCreateElement t attrs) →
  (∀ d, s ≠ NewEditorStore d) →
  (∀ n h, s ≠ MediatorOn n h) → (∀ n h, s ≠ EventBusOn n h) →
  s ∉ [DomWrapEl; DomWrapInWrapper; NewMediator; BindFunctions; DomHideEl;
       NewErrorHandler; NewBlockManager; NewBlockControls;
       NewFloatingBlockControls; NewFormatBar; FlBlockControlsRender;
       BlockControlsRender; OuterAppendChild; WindowAddClickListener;
       WrapperClassListAdd "st-ready"] →
  s ∈ initialize_steps U given i m ↔
  (∃ f, render_callback U given i = Some f ∧ s = CallOnEditorRender f) ∨
  (makes_formEvents U given i m = true ∧ s = NewFormEvents).
Proof.
  intros Hdid Hdom Hstore Hmed Hbus Hrest. unfold initialize_steps.
  rewrite !elem_of_app. split.
  - intros [H|[H|[H|[H|[H|H]]]]].
    + exfalso.
      repeat (apply elem_of_cons in H; destruct H as [H|H];
              [first [by apply Hdid in H | by apply Hdom in H | by apply Hstore in H
                     | by apply Hmed in H | by apply Hbus in H
                     | (apply Hrest; rewrite H; apply list_elem_of_In; cbn; tauto)]|]).
      by apply elem_of_nil in H.
    + apply list_elem_of_fmap in H as (a & -> & _). by destruct (Hdid a).
    + exfalso. apply Hrest. apply list_elem_of_singleton in H as ->.
      apply list_elem_of_In. cbn. tauto.
    + left. destruct (render_callback U given i) as [f|];
        [|by apply elem_of_nil in H].
      apply list_elem_of_singleton in H. by exists f.
    + right. destruct (makes_formEvents U given i m); [|by apply elem_of_nil in H].
      by apply list_elem_of_singleton in H.
    + apply list_elem_of_singleton in H. by destruct (Hdid (Trigger "initialize" [])).
  - intros [(f & Hf & ->)|[Hf ->]].
    + do 3 right. left. rewrite Hf. apply list_elem_of_here.
    + do 4 right. left. rewrite Hf. apply list_elem_of_here.
Qed.

(** X20: a successful [initialize] calls a render callback exactly when
    the instance has one: the function given as [onEditorRender] in these
    options, and, when these options give none, the function a former
    [initialize] of the same instance was given. *)
Theorem initialize_render_callback (U : Setup) (given : option (gmap string OVal))
    (i : Instance) (m : Element) :
  prop "el" (merged U given) = OElement m →
  (∀ f, prop "onEditorRender" (merged U given) = OFunction f →
        onEditorRender (left_ (initialize U given i)) = Some f ∧
        ∀ g, CallOnEditorRender g ∈ steps (initialize U given i) ↔ g = f) ∧
  ((∀ f, prop "onEditorRender" (merged U given) ≠ OFunction f) →
        onEditorRender (left_ (initialize U given i)) = onEditorRender i ∧
        ∀ g, CallOnEditorRender g ∈ steps (initialize U given i)
             ↔ onEditorRender i = Some g).
Proof.
  intros Hel. rewrite (initialize_ok U given i m Hel).
  cbn [steps left_ initialized onEditorRender].
  assert (Hin : ∀ g, CallOnEditorRender g ∈ initialize_steps U given i m
                     ↔ render_callback U given i = Some g).
  { intros g. rewrite elem_of_initialize_steps; try done.
    - split.
      + intros [(f & Hf & [= ->])|[_ ?]]; done.
      + intros Hg. left. by exists g.
    - intros H. step_cases H. }
  split.
  - intros f Hf. unfold render_callback in *. rewrite Hf in *. split; [done|].
    intros g. rewrite Hin. split; [by intros [= ->]|by intros ->].
  - intros Hnone. unfold render_callback in *.
    destruct (prop "onEditorRender" (merged U given)) as [v|x|f]; try done.
    by destruct (Hnone f).
Qed.

Lemma initialize_render_callback_witness :
  CallOnEditorRender 1
    ∈ steps (initialize Demo.setup Demo.plain
               (left_ (new_Editor Demo.setup Demo.given))).
Proof.
  destruct (initialize_render_callback Demo.setup Demo.plain
              (left_ (new_Editor Demo.setup Demo.given)) Demo.mount)
    as [_ H]; [vm_compute; reflexivity|].
  apply H.
  - intros f. vm_compute. discriminate.
  - vm_compute. reflexivity.
Defined.

(** X21: a successful [initialize] constructs the form events exactly
    when [options.formEvents] is truthy and the instance has none yet; an
    instance that has them keeps them, so they are constructed at most
    once however often it is initialised again. *)
Theorem initialize_formEvents (U : Setup) (given : option (gmap string OVal))
    (i : Instance) (m : Element) :
  prop "el" (merged U given) = OElement m →
  (NewFormEvents ∈ steps (initialize U given i) ↔
     truthy (prop "formEvents" (merged U given)) = true ∧ formEvents i = false) ∧
  formEvents (left_ (initialize U given i))
  = formEvents i || truthy (prop "formEvents" (merged U given)).
Proof.
  intros Hel. rewrite (initialize_ok U given i m Hel).
  cbn [steps left_ initialized formEvents].
  assert (Hfe : makes_formEvents U given i m
                = truthy (prop "formEvents" (merged U given)) && negb (formEvents i)).
  { unfold makes_formEvents, final_options. by rewrite prop_insert_ne. }
  split.
  - rewrite elem_of_initialize_steps; try done.
    + rewrite Hfe, andb_true_iff, negb_true_iff. split.
      * intros [(f & _ & ?)|[? _]]; done.
      * intros H. by right.
    + intros H. step_cases H.
  - rewrite Hfe. by destruct (formEvents i), (truthy _).
Qed.

Lemma initialize_formEvents_witness :
  NewFormEvents ∈ steps (new_Editor Demo.setup Demo.given) ∧
  ¬ (NewFormEvents
       ∈ steps (initialize Demo.setup Demo.given
                  (left_ (new_Editor Demo.setup Demo.given)))).
Proof.
  split.
  - apply (initialize_formEvents Demo.setup Demo.given blank Demo.mount);
      [vm_compute; reflexivity|]. split; reflexivity.
  - intros H.
    apply (initialize_formEvents Demo.setup Demo.given
             (left_ (new_Editor Demo.setup Demo.given)) Demo.mount) in H;
      [|vm_compute; reflexivity].
    destruct H as [_ H]. vm_compute in H. discriminate H.
Defined.

(** X22: an instance whose [initialize] found no mount element was never
    built, and [reinitialize] throws on it before doing anything, whatever
    options it is given: [destroy] runs first and finds no format bar. *)
Theorem reinitialize_before_build (U : Setup) (given given' : option (gmap string OVal))
    (i : Instance) :
  parts i = None →
  isUndefined (prop "el" (merged U given)) = true →
  reinitialize U given' (left_ (initialize U given i))
  = MkLOut None (left_ (initialize U given i)) [].
Proof.
  intros Hp Hel. rewrite (initialize_failed U given i Hel). cbn [left_].
  unfold reinitialize. apply lbind_throw. unfold lift. cbn [parts set_options].
  by rewrite Hp.
Qed.

Lemma reinitialize_before_build_witness :
  returned (reinitialize Demo.setup Demo.given (left_ (new_Editor Demo.setup None)))
  = None.
Proof.
  unfold new_Editor.
  rewrite (reinitialize_before_build Demo.setup None Demo.given blank);
    [reflexivity|reflexivity|vm_compute; reflexivity].
Defined.

(** X23: [reinitialize()] without options starts the editor again from the
    data it was initialised with, not from what the store holds by then:
    after a successful [initialize] with truthy initial data, it tears the
    editor down, keeps the options as they are and constructs the store
    from the same initial data. *)
Theorem reinitialize_restores_initial_data (U : Setup)
    (given : option (gmap string OVal)) (i0 : Instance) (m : Element) :
  prop "el" (merged U given) = OElement m →
  truthy (initial_data U given m) = true →
  let i := left_ (initialize U given i0) in
  let o := reinitialize U None i in
  returned o = Some () ∧
  options (left_ o) = options i ∧
  (∃ e, parts i = Some e ∧
        steps o = (Did <$> actions (destroy (pipeline U) e))
                  ++ initialize_steps U (Some (options i))
                       (set_parts (Some (after (destroy (pipeline U) e))) i) m) ∧
  (∀ d, NewEditorStore d ∈ steps o ↔ d = initial_data U given m).
Proof.
  intros Hel Hdata. cbn zeta. rewrite (initialize_ok U given i0 m Hel). cbn [left_].
  set (i := initialized U given i0 m).
  set (e := after (createBlocks (pipeline U) (parts_before_blocks U given m))).
  assert (Hp : parts i = Some e) by reflexivity.
  rewrite (reinitialize_out U None i e Hp). cbn zeta. cbn [default].
  change (options i) with (final_options U given m).
  assert (Hmerged : merged U (Some (final_options U given m)) = final_options U given m).
  { apply merged_final_options. }
  assert (Hel' : prop "el" (merged U (Some (final_options U given m))) = OElement m).
  { rewrite Hmerged. unfold final_options. by rewrite prop_insert_ne. }
  rewrite (initialize_ok U _ _ m Hel'). cbn [returned left_ steps initialized options].
  assert (Hd : initial_data U (Some (final_options U given m)) m = initial_data U given m).
  { unfold initial_data at 1. rewrite Hmerged. unfold final_options.
    rewrite prop_insert. by rewrite Hdata. }
  assert (Hfinal : final_options U (Some (final_options U given m)) m
                   = final_options U given m).
  { unfold final_options at 1. rewrite Hmerged, Hd.
    unfold final_options. apply insert_insert_eq. }
  split_and!; [done|exact Hfinal|by exists e|].
  intros d. rewrite elem_of_app. split.
  - intros [H|H].
    + apply list_elem_of_fmap in H as (? & ? & _). discriminate.
    + unfold initialize_steps in H. rewrite !elem_of_app in H.
      destruct H as [H|[H|[H|[H|[H|H]]]]].
      * step_cases H. injection H as ->. exact Hd.
      * apply list_elem_of_fmap in H as (? & ? & _). discriminate.
      * step_cases H.
      * destruct (render_callback _ _ _); step_cases H.
      * destruct (makes_formEvents _ _ _ _); step_cases H.
      * step_cases H.
  - intros ->. right. unfold initialize_steps. apply elem_of_app. left.
    rewrite Hd. apply list_elem_of_In. cbn. tauto.
Qed.

Lemma reinitialize_restores_initial_data_witness :
  options (left_ (reinitialize Demo.setup None (left_ (new_Editor Demo.setup Demo.given))))
  = options (left_ (new_Editor Demo.setup Demo.given)).
Proof.
  apply (reinitialize_restores_initial_data Demo.setup Demo.given blank Demo.mount);
    vm_compute; reflexivity.
Defined.

(** With one element dragged over, the handler runs once and throws the
    second time. *)
Example removeBlockDragOver_twice :
  is_Some (removeBlockDragOver_times 1 Demo.dragged_over) ∧
  removeBlockDragOver_times 2 Demo.dragged_over = None.
Proof. split; [by eexists|reflexivity]. Qed.

(** * Further properties of the event wiring *)

Lemma initialize_again
    (outside : Wiring.Stage → nat → nat → Wiring.Page → list Wiring.Op)
    (this : nat) (p : Wiring.Page) :
  Wiring.keeps_to_instance outside →
  (∀ i a, Wiring.mediator p !! i = Some a → a ∈ dom (Wiring.objects p)) →
  ∃ p' m, Wiring.initialize outside this p = Some p' ∧
    Wiring.mediator p' !! this = Some m ∧
    (∀ i, Wiring.mediator p !! i ≠ Some m) ∧
    (∀ j, j ≠ this → Wiring.mediator p' !! j = Wiring.mediator p !! j) ∧
    (∀ a, a ∈ dom (Wiring.objects p) → Wiring.objects p' !! a = Wiring.objects p !! a) ∧
    (∃ before after_,
       Wiring.mediator_of this p' = before ++ Wiring.own_subscriptions this ++ after_ ∧
       ∀ s j, s ∈ before ++ after_ →
              Wiring.belongs_to (Wiring.s_callback s) = Some j → j = this) ∧
    (∃ more, Wiring.eventBus p' = Wiring.eventBus p ++ more) ∧
    (Wiring.leaves_drag_events outside → ∀ name, name ∈ Wiring.events.*1 →
       Wiring.receivers name (Wiring.eventBus p')
       = Wiring.receivers name (Wiring.eventBus p)
         ++ [Wiring.drag_subscription name this]).
Proof.
  intros Hk Halloc.
  destruct (initialize_spec outside this p Hk) as
    (p' & Hinit & Hfresh & Hm' & Hi' & Hd' & Ho' & (l1 & l2 & Hl' & Hown') & Hbus & Hdrag).
  exists p', (fresh (dom (Wiring.objects p))).
  split_and!; [exact Hinit| | | | | |exact Hbus|exact Hdrag].
  - rewrite Hm'. apply lookup_insert_eq.
  - intros i Hi. apply Hfresh. by eapply Halloc.
  - intros j Hj. rewrite Hm'. by rewrite lookup_insert_ne.
  - intros a Ha. apply Ho'. by intros ->.
  - exists l1, l2. split; [|exact Hown'].
    unfold Wiring.mediator_of. rewrite Hm', lookup_insert_eq.
    cbn -[Wiring.own_subscriptions app]. by rewrite Hl'.
Qed.

(** X24: [initialize] run for an instance on a page where the mediator
    fields refer to mediator objects and the code of other modules keeps
    to the instance it runs for.  The instance gets a mediator object that
    no instance had; the mediator objects that were there, the former one
    of the instance included, keep exactly their subscriptions, and the
    other instances keep their mediators; the new mediator holds the four
    handlers of the editor, among callbacks of that instance only; the
    EventBus keeps its subscriptions and, when the other code subscribes
    nothing there for the drag and reorder events, gets one more
    [removeBlockDragOver] of the instance for each of them. *)
Theorem initialize_fresh_mediator
    (outside : Wiring.Stage → nat → nat → Wiring.Page → list Wiring.Op)
    (this : nat) (p : Wiring.Page) :
  Wiring.keeps_to_instance outside →
  (∀ i a, Wiring.mediator p !! i = Some a → a ∈ dom (Wiring.objects p)) →
  ∃ p' m, Wiring.initialize outside this p = Some p' ∧
    Wiring.mediator p' !! this = Some m ∧
    (∀ i, Wiring.mediator p !! i ≠ Some m) ∧
    (∀ j, j ≠ this → Wiring.mediator p' !! j = Wiring.mediator p !! j) ∧
    (∀ a, a ∈ dom (Wiring.objects p) → Wiring.objects p' !! a = Wiring.objects p !! a) ∧
    (∃ before after_,
       Wiring.mediator_of this p' = before ++ Wiring.own_subscriptions this ++ after_ ∧
       ∀ s j, s ∈ before ++ after_ →
              Wiring.belongs_to (Wiring.s_callback s) = Some j → j = this) ∧
    (∃ more, Wiring.eventBus p' = Wiring.eventBus p ++ more) ∧
    (Wiring.leaves_drag_events outside → ∀ name, name ∈ Wiring.events.*1 →
       Wiring.receivers name (Wiring.eventBus p')
       = Wiring.receivers name (Wiring.eventBus p)
         ++ [Wiring.drag_subscription name this]).
Proof. apply initialize_again. Qed.

(** An editor initialized a second time has a new mediator, and its
    [removeBlockDragOver] is on the EventBus twice. *)
Lemma initialize_fresh_mediator_witness :
  ∃ p p' m,
    Wiring.page_with Demo.outside 1 = Some p ∧
    Wiring.initialize Demo.outside 0 p = Some p' ∧
    Wiring.mediator p' !! 0 = Some m ∧
    Wiring.mediator p !! 0 ≠ Some m ∧
    Wiring.receivers "block:reorder:dropped" (Wiring.eventBus p')
    = [Wiring.drag_subscription "block:reorder:dropped" 0;
       Wiring.drag_subscription "block:reorder:dropped" 0].
Proof.
  destruct (page_with_wired Demo.outside 1 Demo_outside_keeps_to_instance
              Demo_outside_leaves_drag_events)
    as (p & Hp & _ & _ & Halloc & _ & _ & _ & Hbus).
  destruct (initialize_fresh_mediator Demo.outside 0 p
              Demo_outside_keeps_to_instance Halloc)
    as (p' & m & Hinit & Hm & Hnew & _ & _ & _ & _ & Hdrag).
  exists p, p', m. split_and!; [exact Hp|exact Hinit|exact Hm|apply Hnew|].
  rewrite (Hdrag Demo_outside_leaves_drag_events "block:reorder:dropped"),
    (Hbus "block:reorder:dropped"); [reflexivity|..];
    apply list_elem_of_further, list_elem_of_here.
Defined.
